(** * pulsar.apps.tasks.backends: the task backend, its executor, its
      pull loop and its periodic scheduler

    A shallow embedding of [pulsar/apps/tasks/backends/__init__.py].
    Python objects are records, dictionaries are [gmap]s, the generator
    coroutines are computations in a state-and-exception monad [M] whose
    state (the [world]) holds the backend store, the wall clock, the
    scheduler table, the worker's counters and queues, and the log of every
    call made to a collaborator. *)

From stdpp Require Import base numbers strings gmap list option.

Local Open Scope Z_scope.
#[local] Set Warnings "-register-all".

(** ** The [states] module

    Modelled from the spec: [pulsar.apps.tasks.states] is imported by the
    source but is not part of it.  The status tokens and [READY_STATES] /
    [FULL_RUN_STATES] are the ones listed in the source's module docstring and
    in the data model; the numeric precedence table ([PRECEDENCE_MAPPING],
    [UNKNOWN_STATE]) is given nowhere and stays a parameter below. *)
Module states.
Definition PENDING : string := "PENDING".
Definition QUEUED : string := "QUEUED".
Definition RETRY : string := "RETRY".
Definition STARTED : string := "STARTED".
Definition REVOKED : string := "REVOKED".
Definition UNKNOWN : string := "UNKNOWN".
Definition FAILURE : string := "FAILURE".
Definition SUCCESS : string := "SUCCESS".

Definition ALL_STATES : list string :=
  [PENDING; QUEUED; RETRY; STARTED; REVOKED; UNKNOWN; FAILURE; SUCCESS].
Definition FULL_RUN_STATES : list string := [FAILURE; SUCCESS].
Definition READY_STATES : list string := [REVOKED; FAILURE; SUCCESS].
End states.

(** ** Python values *)

(** Exceptions raised inside the module ([TaskNotAvailable], [TaskTimeout],
    the [RuntimeError] of the executor) and by the Python runtime
    ([KeyError], [TypeError], [ZeroDivisionError]); [JobError] stands for
    whatever else a job body raises. *)
Inductive exn :=
| TaskNotAvailable (task_name : string)
| TaskTimeout
| RuntimeError (msg : string)
| KeyError (key : string)
| TypeError (msg : string)
| ZeroDivisionError
| JobError (msg : string).

(** Dates are seconds on the integer line ([VDatetime]), durations are
    integers of the same unit ([VTimedelta]).  [VFailure] is pulsar's
    failure wrapper (what [maybe_failure] builds and [is_failure]
    recognises). *)
Inductive value :=
| VNone
| VBool (b : bool)
| VInt (z : Z)
| VStr (s : string)
| VDatetime (t : Z)
| VTimedelta (d : Z)
| VTuple (vs : list value)
| VDict (kvs : list (string * value))
| VFailure (e : exn).

(** Python truth value, as [if x:] and [x or y] compute it. *)
Definition truthy (v : value) : bool :=
  match v with
  | VNone => false
  | VBool b => b
  | VInt z => negb (z =? 0)
  | VStr s => negb (String.eqb s "")
  | VDatetime _ => true
  | VTimedelta d => negb (d =? 0)
  | VTuple vs => match vs with [] => false | _ => true end
  | VDict kvs => match kvs with [] => false | _ => true end
  | VFailure _ => true
  end.

Definition EMPTY_TUPLE : value := VTuple [].
Definition EMPTY_DICT : value := VDict [].

(** [x or y]. *)
Definition py_or (x y : value) : value := if truthy x then x else y.

Definition is_failure (v : value) : bool :=
  match v with VFailure _ => true | _ => false end.

(** [maybe_failure(sys.exc_info())] inside an [except:] block. *)
Definition maybe_failure (e : exn) : value := VFailure e.

Definition of_opt {A} (f : A → value) (o : option A) : value :=
  match o with Some a => f a | None => VNone end.

(** ** Task *)

Module Task.
Record t := mk {
  id : string;
  name : option string;
  time_executed : option Z;
  from_task : option string;
  time_started : option Z;
  time_ended : option Z;
  expiry : option Z;
  args : value;
  kwargs : value;
  status : option string;
  result : value;
  params : gmap string value
}.

(** [self.__dict__]: one entry per instance attribute set by [__init__],
    each holding the attribute's value as it is. *)
Definition __dict__ (self : t) : gmap string value :=
  <["id" := VStr (id self)]>
  (<["name" := of_opt VStr (name self)]>
  (<["time_executed" := of_opt VDatetime (time_executed self)]>
  (<["from_task" := of_opt VStr (from_task self)]>
  (<["time_started" := of_opt VDatetime (time_started self)]>
  (<["time_ended" := of_opt VDatetime (time_ended self)]>
  (<["expiry" := of_opt VDatetime (expiry self)]>
  (<["args" := args self]>
  (<["kwargs" := kwargs self]>
  (<["status" := of_opt VStr (status self)]>
  (<["result" := result self]>
  (<["params" := VDict (map_to_list (params self))]> ∅))))))))))).

(** [dict.get(key, default)]; the key [None] is in no table of strings. *)
Definition dict_get (m : gmap string Z) (k : option string) (d : Z) : Z :=
  match k with
  | Some s => default d (m !! s)
  | None => d
  end.

(** [status_code], over [states.PRECEDENCE_MAPPING] and
    [states.UNKNOWN_STATE]. *)
Definition status_code (PRECEDENCE_MAPPING : gmap string Z)
    (UNKNOWN_STATE : Z) (self : t) : Z :=
  dict_get PRECEDENCE_MAPPING (status self) UNKNOWN_STATE.

Definition done (self : t) : bool :=
  match status self with
  | Some s => bool_decide (s ∈ states.READY_STATES)
  | None => false
  end.

Definition tojson (self : t) : gmap string value := __dict__ self.

(** [__init__(id, name=None, ..., **params)]: the keywords it names become
    attributes, [time_started] and [time_ended] start unset, and every
    other keyword is collected in [params]. *)
Definition INIT_KEYWORDS : list string :=
  ["name"; "time_executed"; "expiry"; "args"; "kwargs"; "status";
   "from_task"; "result"]%string.

Definition as_str (v : option value) : option string :=
  match v with Some (VStr s) => Some s | _ => None end.
Definition as_datetime (v : option value) : option Z :=
  match v with Some (VDatetime d) => Some d | _ => None end.
Definition as_value (v : option value) : value := default VNone v.

Definition __init__ (task_id : string) (kw : gmap string value) : t :=
  {| id := task_id;
     name := as_str (kw !! "name");
     time_executed := as_datetime (kw !! "time_executed");
     from_task := as_str (kw !! "from_task");
     time_started := None;
     time_ended := None;
     expiry := as_datetime (kw !! "expiry");
     args := as_value (kw !! "args");
     kwargs := as_value (kw !! "kwargs");
     status := as_str (kw !! "status");
     result := as_value (kw !! "result");
     params := filter (λ kv, kv.1 ∉ INIT_KEYWORDS) kw |}.
End Task.

(** ** The timing methods of Task *)

(** What Python raises besides the exceptions of [exn]: an
    [AttributeError], a [ValueError], an [OverflowError], or one of
    [exn]. *)
Inductive py_error :=
| AttributeError
| ValueError (msg : string)
| OverflowError
| Raised (e : exn).

(** The methods read attributes by name.  [self.<name>], for a name that
    is not one of the class's methods or properties, is the entry of the
    instance's dictionary under that name, else the class's own
    [stack_trace = None], else an [AttributeError]. *)

Definition Task_getattr (self : Task.t) (name : string)
    : py_error + value :=
  match Task.__dict__ self !! name with
  | Some v => inr v
  | None =>
      if decide (name = "stack_trace"%string) then inr VNone
      else inl AttributeError
  end.

(** [x - y] on dates, durations and numbers. *)
Definition py_sub (x y : value) : py_error + value :=
  match x, y with
  | VDatetime a, VDatetime b => inr (VTimedelta (a - b))
  | VDatetime a, VTimedelta d => inr (VDatetime (a - d))
  | VTimedelta a, VTimedelta b => inr (VTimedelta (a - b))
  | VInt a, VInt b => inr (VInt (a - b))
  | _, _ => inl (Raised (TypeError "unsupported operand type(s) for -"))
  end.

Definition and_then {A B} (m : py_error + A) (k : A → py_error + B)
    : py_error + B :=
  match m with
  | inr a => k a
  | inl e => inl e
  end.

Definition execute2start (self : Task.t) : py_error + value :=
  and_then (Task_getattr self "time_start") (λ time_start,
  if truthy time_start
  then and_then (Task_getattr self "time_start") (λ time_start,
       and_then (Task_getattr self "time_executed") (λ time_executed,
       py_sub time_start time_executed))
  else inr VNone).

Definition execute2end (self : Task.t) : py_error + value :=
  and_then (Task_getattr self "time_end") (λ time_end,
  if truthy time_end
  then and_then (Task_getattr self "time_ended") (λ time_ended,
       and_then (Task_getattr self "time_executed") (λ time_executed,
       py_sub time_ended time_executed))
  else inr VNone).

(** [if self.time_end and self.time_started:] reads [time_started] only
    when [time_end] is true. *)
Definition duration (self : Task.t) : py_error + value :=
  and_then (Task_getattr self "time_end") (λ time_end,
  and_then (if truthy time_end
            then and_then (Task_getattr self "time_started")
                   (λ time_started, inr (truthy time_started))
            else inr false) (λ both : bool,
  if both
  then and_then (Task_getattr self "time_ended") (λ time_ended,
       and_then (Task_getattr self "time_started") (λ time_started,
       py_sub time_ended time_started))
  else inr VNone)).

(** ** Task objects, with whatever their attributes hold

    [__init__] stores each argument as it is given, whatever its type, and
    an attribute can be assigned any value later.  [TaskObject] is the
    instance as Python has it: its dictionary of attributes, each a value.
    The record [Task.t] above holds the instances whose attributes have
    the types the backend gives them, and [Task.__dict__] is their
    dictionary. *)
Module TaskObject.
Abbreviation t := (gmap string value).

(** [__init__(id, name=None, ..., **params)] *)
Definition __init__ (id : value) (kw : gmap string value) : t :=
  <["id" := id]>
  (<["name" := default VNone (kw !! "name")]>
  (<["time_executed" := default VNone (kw !! "time_executed")]>
  (<["from_task" := default VNone (kw !! "from_task")]>
  (<["time_started" := VNone]>
  (<["time_ended" := VNone]>
  (<["expiry" := default VNone (kw !! "expiry")]>
  (<["args" := default VNone (kw !! "args")]>
  (<["kwargs" := default VNone (kw !! "kwargs")]>
  (<["status" := default VNone (kw !! "status")]>
  (<["result" := default VNone (kw !! "result")]>
  (<["params" := VDict (map_to_list
                          (filter (λ kv, kv.1 ∉ Task.INIT_KEYWORDS) kw))]>
     ∅))))))))))).

(** [self.<name>], as [Task_getattr] above. *)
Definition getattr (self : t) (name : string) : py_error + value :=
  match self !! name with
  | Some v => inr v
  | None =>
      if decide (name = "stack_trace"%string) then inr VNone
      else inl AttributeError
  end.

(** [hash(v)] succeeds: a dictionary has no hash, a tuple has one when
    each of its items has; [None], booleans, numbers, strings, dates,
    durations and failure objects have one. *)
Fixpoint hashable (v : value) : bool :=
  match v with
  | VDict _ => false
  | VTuple vs => forallb hashable vs
  | _ => true
  end.

(** [table.get(key, default)] of a table with strings as keys: the key is
    hashed first, a [TypeError] when it has no hash; a key that is not a
    string is equal to none of the table's. *)
Definition dict_get (table : gmap string Z) (key : value) (d : Z)
    : py_error + Z :=
  if hashable key
  then inr (match key with
            | VStr s => default d (table !! s)
            | _ => d
            end)
  else inl (Raised (TypeError "unhashable type")).

(** The property [status_code]. *)
Definition status_code (PRECEDENCE_MAPPING : gmap string Z)
    (UNKNOWN_STATE : Z) (self : t) : py_error + Z :=
  and_then (getattr self "status") (λ status,
  dict_get PRECEDENCE_MAPPING status UNKNOWN_STATE).
End TaskObject.

(** The attribute names of the data model. *)
Definition DATA_MODEL_ATTRIBUTES : list string :=
  ["id"; "name"; "args"; "kwargs"; "status"; "time_executed"; "time_started";
   "time_ended"; "expiry"; "result"; "from_task"]%string.

(** The attributes that hold a timestamp. *)
Definition TIMESTAMP_ATTRIBUTES : list string :=
  ["time_executed"; "time_started"; "time_ended"; "expiry"]%string.

(** ** Jobs and the registry *)

(** What [get_datetime] accepts: a [datetime], a [timedelta], or a number of
    seconds since the epoch. *)
Inductive expiry_arg :=
| a_datetime (d : Z)
| a_timedelta (d : Z)
| a_timestamp (s : Z).

(** [get_datetime(expiry, start)]; [datetime.fromtimestamp] of a number of
    seconds is the date at that second. *)
Definition get_datetime (expiry : expiry_arg) (start : Z) : Z :=
  match expiry with
  | a_datetime d => d
  | a_timedelta d => start + d
  | a_timestamp s => s
  end.

(** Truth value of a job's [timeout] ([None], a zero [timedelta] and the
    number 0 are false). *)
Definition timeout_truthy (o : option expiry_arg) : bool :=
  match o with
  | None => false
  | Some (a_datetime _) => true
  | Some (a_timedelta d) => negb (d =? 0)
  | Some (a_timestamp s) => negb (s =? 0)
  end.

Module Job.
(** How a call of the job body ends. *)
Inductive outcome :=
| Returns (v : value)
| Raises (e : exn).

(** Modelled from the spec: the job descriptor of
    [pulsar.apps.tasks.models], which the source imports; the fields are
    the ones the backend reads.  [make_task_id] is the job's id
    function of the arguments.  The body is user code: [call] is how
    running it on [(args, kwargs)] ends, with a value (a failure object
    counts as a value, [is_failure] tells) or with an exception. *)
Record t := mk {
  name : string;
  type : string;
  timeout : option expiry_arg;
  run_every : Z;
  anchor : option Z;
  make_task_id : value → value → string;
  call : value → value → outcome
}.
End Job.

(** ** Schedule and SchedulerEntry *)

Module Schedule.
Record t := mk {
  run_every : Z;
  anchor : option Z
}.
End Schedule.

Module SchedulerEntry.
Record t := mk {
  name : string;
  schedule : Schedule.t;
  last_run_at : Z;
  total_run_count : Z
}.

Definition run_every (self : t) : Z := Schedule.run_every (schedule self).
Definition anchor (self : t) : option Z := Schedule.anchor (schedule self).

Definition set_anchor (self : t) (a : Z) : t :=
  {| name := name self;
     schedule := {| Schedule.run_every := run_every self;
                    Schedule.anchor := Some a |};
     last_run_at := last_run_at self;
     total_run_count := total_run_count self |}.
End SchedulerEntry.

(** ** Consumers, callbacks and the call log *)

Record TaskConsumer := mkTaskConsumer {
  consumer_task_id : string;
  consumer_job : option Job.t
}.

(** What is handed to the event loop with [call_soon] and
    [call_soon_threadsafe]. *)
Inductive callback :=
| cb_may_pool_task
| cb_done_task (task_id : string).

(** Every call the backend makes to a collaborator, in the order made. *)
Inductive call :=
| c_get_task (task_id : option string)
| c_save_task (task_id : string) (params : gmap string value)
| c_delete_tasks (task_ids : list string)
| c_put_task (task_id : value)
| c_create_task_id (new_id : string)
| c_on_start_task (task_id : string)
| c_on_finish_task (task_id : string)
| c_job (job_name : string) (args kwargs : value)
| c_failure_log (failure : value)
| c_run_job (jobname : string)
| c_logger (level : string)
| c_apply_async (task_id : string)
| c_call_soon (cb : callback)
| c_call_soon_threadsafe (cb : callback).

(** ** The abstract methods of TaskBackend

    [put_task], [get_task], [save_task] and [delete_tasks] raise
    [NotImplementedError] in the base class: a concrete backend supplies
    them.  They act on the backend's own state [S] (its queue and store)
    and answer with a value; [get_task] is called with a task id or with
    none, never with [when_done], by the code below. *)
Class TaskBackendImpl (S : Type) := {
  impl_get_task : option string → S → option Task.t * S;
  impl_save_task : string → gmap string value → S → value * S;
  impl_delete_tasks : list string → S → value * S;
  impl_put_task : value → S → value * S
}.

(** How a computation ends: with a value, with a Python exception, or not at
    all (a loop that ran out of its fuel). *)
Inductive res (A : Type) :=
| Ok (a : A)
| Exc (e : exn)
| Diverges.
Arguments Ok {A} a.
Arguments Exc {A} e.
Arguments Diverges {A}.

Section backend.
Context {S : Type} `{!TaskBackendImpl S}.

(** [states.PRECEDENCE_MAPPING], [states.UNKNOWN_STATE]. *)
Variable PRECEDENCE_MAPPING : gmap string Z.
Variable UNKNOWN_STATE : Z.
(** [self.registry], loaded once from [task_paths]. *)
Variable registry : gmap string Job.t.
(** [str(failure)]. *)
Variable failure_str : value → string.
(** [pulsar.utils.timeutils.remaining(start, ends_in, now)] on an explicit
    [now], and [timedelta_seconds]. *)
Variable remaining : Z → Z → Z → Z.
Variable timedelta_seconds : Z → Z.

(** The state the code runs in: the backend instance and its actor-local
    data, the worker, the clock and the id generator. *)
Record world := mkWorld {
  store : S;                          (* the concrete backend's queue and store *)
  calls : list call;                  (* log of collaborator calls *)
  clock : nat → Z;                    (* the readings [datetime.now()] will give *)
  ids : nat → string;                 (* the ids [create_task_id()] will give *)
  entries : option (gmap string SchedulerEntry.t);  (* [self.entries] *)
  schedule_periodic : bool;           (* [self.local.schedule_periodic] *)
  next_run : Z;                       (* [self.next_run] *)
  backlog : Z;                        (* [self.backlog] *)
  concurrent_requests : Z;            (* [self.local.concurrent_requests] *)
  running : bool;                     (* [worker.running] *)
  thread_pool : option (list Task.t); (* [worker.thread_pool] and what was submitted to it *)
  event_loop : list callback          (* callbacks queued on [worker.event_loop] *)
}.

Definition with_store (s : S) (w : world) : world :=
  mkWorld s (calls w) (clock w) (ids w) (entries w) (schedule_periodic w)
    (next_run w) (backlog w) (concurrent_requests w) (running w)
    (thread_pool w) (event_loop w).
Definition with_calls (l : list call) (w : world) : world :=
  mkWorld (store w) l (clock w) (ids w) (entries w) (schedule_periodic w)
    (next_run w) (backlog w) (concurrent_requests w) (running w)
    (thread_pool w) (event_loop w).
Definition with_clock (c : nat → Z) (w : world) : world :=
  mkWorld (store w) (calls w) c (ids w) (entries w) (schedule_periodic w)
    (next_run w) (backlog w) (concurrent_requests w) (running w)
    (thread_pool w) (event_loop w).
Definition with_ids (i : nat → string) (w : world) : world :=
  mkWorld (store w) (calls w) (clock w) i (entries w) (schedule_periodic w)
    (next_run w) (backlog w) (concurrent_requests w) (running w)
    (thread_pool w) (event_loop w).
Definition with_entries (e : option (gmap string SchedulerEntry.t))
    (w : world) : world :=
  mkWorld (store w) (calls w) (clock w) (ids w) e (schedule_periodic w)
    (next_run w) (backlog w) (concurrent_requests w) (running w)
    (thread_pool w) (event_loop w).
Definition with_next_run (n : Z) (w : world) : world :=
  mkWorld (store w) (calls w) (clock w) (ids w) (entries w)
    (schedule_periodic w) n (backlog w) (concurrent_requests w) (running w)
    (thread_pool w) (event_loop w).
Definition with_concurrent_requests (n : Z) (w : world) : world :=
  mkWorld (store w) (calls w) (clock w) (ids w) (entries w)
    (schedule_periodic w) (next_run w) (backlog w) n (running w)
    (thread_pool w) (event_loop w).
Definition with_running (b : bool) (w : world) : world :=
  mkWorld (store w) (calls w) (clock w) (ids w) (entries w)
    (schedule_periodic w) (next_run w) (backlog w) (concurrent_requests w) b
    (thread_pool w) (event_loop w).
Definition with_thread_pool (p : option (list Task.t)) (w : world) : world :=
  mkWorld (store w) (calls w) (clock w) (ids w) (entries w)
    (schedule_periodic w) (next_run w) (backlog w) (concurrent_requests w)
    (running w) p (event_loop w).
Definition with_event_loop (l : list callback) (w : world) : world :=
  mkWorld (store w) (calls w) (clock w) (ids w) (entries w)
    (schedule_periodic w) (next_run w) (backlog w) (concurrent_requests w)
    (running w) (thread_pool w) l.

(** *** The monad of the coroutines

    A [yield] of an asynchronous call is the call itself: the value sent
    back into the generator is the call's result, and the result of a
    coroutine is the last value it yields. *)
Definition M (A : Type) : Type := world → res A * world.

Definition ret {A} (a : A) : M A := λ w, (Ok a, w).
Definition bind {A B} (m : M A) (k : A → M B) : M B :=
  λ w, match m w with
       | (Ok a, w') => k a w'
       | (Exc e, w') => (Exc e, w')
       | (Diverges, w') => (Diverges, w')
       end.
Definition raise {A} (e : exn) : M A := λ w, (Exc e, w).
(** [try: m  except: ...]: the exception, if any, becomes a value. *)
Definition try {A} (m : M A) : M (A + exn) :=
  λ w, match m w with
       | (Ok a, w') => (Ok (inl a), w')
       | (Exc e, w') => (Ok (inr e), w')
       | (Diverges, w') => (Diverges, w')
       end.

#[global] Instance M_ret : MRet M := @ret.
#[global] Instance M_bind : MBind M := λ A B k m, bind m k.

Definition log (c : call) : M unit :=
  λ w, (Ok tt, with_calls (calls w ++ [c]) w).

(** The calls made between two states. *)
Definition new_calls (w w' : world) : list call :=
  drop (length (calls w)) (calls w').

(** Recognisers of calls in the log. *)
Definition is_job_call (c : call) : bool :=
  match c with c_job _ _ _ => true | _ => false end.
Definition is_save_task (c : call) : bool :=
  match c with c_save_task _ _ => true | _ => false end.
Definition is_put_task (c : call) : bool :=
  match c with c_put_task _ => true | _ => false end.
Definition is_save_with_status (status : string) (c : call) : bool :=
  match c with
  | c_save_task _ kw =>
      match kw !! "status" with
      | Some (VStr s) => String.eqb s status
      | _ => false
      end
  | _ => false
  end.
Definition is_save_with_key (key : string) (c : call) : bool :=
  match c with
  | c_save_task _ kw => bool_decide (is_Some (kw !! key))
  | _ => false
  end.

(** [tick]'s call of [run_job] for the entry [key], and the [save_task]
    that creates a PENDING task of the job [key]. *)
Definition is_run_job_of (key : string) (c : call) : bool :=
  match c with c_run_job k => String.eqb k key | _ => false end.
Definition is_pending_save_of (key : string) (c : call) : bool :=
  match c with
  | c_save_task _ kw =>
      match kw !! "name", kw !! "status" with
      | Some (VStr n), Some (VStr s) =>
          String.eqb n key && String.eqb s states.PENDING
      | _, _ => false
      end
  | _ => false
  end.
Definition fired (key : string) (l : list call) : bool :=
  existsb (is_run_job_of key) l.
Definition created (key : string) (l : list call) : bool :=
  existsb (is_pending_save_of key) l.

(** [datetime.now()] *)
Definition datetime_now : M Z :=
  λ w, (Ok (clock w 0%nat), with_clock (λ n, clock w (Datatypes.S n)) w).

(** [pulsar.apps.tasks.create_task_id()]: a new id at every call. *)
Definition fresh_task_id : M string :=
  λ w, (Ok (ids w 0%nat),
        with_calls (calls w ++ [c_create_task_id (ids w 0%nat)])
          (with_ids (λ n, ids w (Datatypes.S n)) w)).

(** *** The backend's operations, as the code calls them *)
Definition get_task (task_id : option string) : M (option Task.t) :=
  λ w, let r := impl_get_task task_id (store w) in
       (Ok r.1, with_store r.2 (with_calls (calls w ++ [c_get_task task_id]) w)).
Definition save_task (task_id : string) (params : gmap string value)
    : M value :=
  λ w, let r := impl_save_task task_id params (store w) in
       (Ok r.1, with_store r.2
                  (with_calls (calls w ++ [c_save_task task_id params]) w)).
Definition delete_tasks (task_ids : list string) : M value :=
  λ w, let r := impl_delete_tasks task_ids (store w) in
       (Ok r.1, with_store r.2
                  (with_calls (calls w ++ [c_delete_tasks task_ids]) w)).
Definition put_task (task_id : value) : M value :=
  λ w, let r := impl_put_task task_id (store w) in
       (Ok r.1, with_store r.2 (with_calls (calls w ++ [c_put_task task_id]) w)).

(** The hooks; both are [pass] in this class. *)
Definition on_start_task (consumer : TaskConsumer) : M unit :=
  log (c_on_start_task (consumer_task_id consumer)).
Definition on_finish_task (consumer : TaskConsumer) : M unit :=
  log (c_on_finish_task (consumer_task_id consumer)).

(** [f(k1=v1, ..., **params)]: a keyword given twice is a [TypeError]. *)
Definition keywords (explicit : list (string * value))
    (params : gmap string value) : M (gmap string value) :=
  if forallb (λ kv, bool_decide (params !! kv.1 = None)) explicit
  then ret (list_to_map explicit ∪ params)
  else raise (TypeError "got multiple values for keyword argument").

Definition diverge {A} : M A := λ w, (Diverges, w).
(** Reading an attribute of the state. *)
Definition get {A} (f : world → A) : M A := λ w, (Ok (f w), w).
Definition modify (f : world → world) : M unit := λ w, (Ok tt, f w).

(** [now or datetime.now()] *)
Definition now_or_datetime_now (now : option Z) : M Z :=
  match now with
  | Some n => mret n
  | None => datetime_now
  end.

(** *** SchedulerEntry.next, on the entry [self.entries[key]] *)
Definition SchedulerEntry_next (now : option Z) (self : SchedulerEntry.t)
    : M SchedulerEntry.t :=
  now ← now_or_datetime_now now;
  mret {| SchedulerEntry.name := SchedulerEntry.name self;
          SchedulerEntry.schedule := SchedulerEntry.schedule self;
          SchedulerEntry.last_run_at := now;
          SchedulerEntry.total_run_count :=
            SchedulerEntry.total_run_count self + 1 |}.

Definition set_entry (key : string) (e : SchedulerEntry.t) : M unit :=
  modify (λ w, with_entries (insert key e <$> entries w) w).

(** [if self.entries and job.name in self.entries:
        self.entries[job.name].next()] *)
Definition advance_entry (job_name : string) : M unit :=
  es ← get entries;
  match es ≫= (.!! job_name) with
  | Some e => e' ← SchedulerEntry_next None e; set_entry job_name e'
  | None => mret tt
  end.

(** *** TaskBackend.create_task_id *)
Definition create_task_id (job : Job.t) (args kwargs : value) : string :=
  Job.make_task_id job args kwargs.

(** *** TaskBackend.handle_task_done *)
Definition handle_task_done (task : Task.t) : M (option Task.t) :=
  new_id ← fresh_task_id;
  let data := Task.tojson task in
  let data := delete "id" data in
  delete_tasks [Task.id task];;
  save_task new_id data;;
  mret None.

(** The keywords [create_task] passes to [save_task] itself. *)
Definition CREATE_KEYWORDS : list string :=
  ["name"; "time_executed"; "expiry"; "args"; "kwargs"; "status"]%string.

Definition pending_fields (job : Job.t) (time_executed : Z)
    (expiry : option Z) (targs tkwargs : value) : list (string * value) :=
  [("name", VStr (Job.name job));
   ("time_executed", VDatetime time_executed);
   ("expiry", of_opt VDatetime expiry);
   ("args", targs);
   ("kwargs", tkwargs);
   ("status", VStr states.PENDING)]%string.

(** *** TaskBackend.create_task *)
Definition create_task (jobname : string) (targs tkwargs : value)
    (expiry : option expiry_arg) (params : gmap string value) : M value :=
  match registry !! jobname with
  | Some job =>
      let targs := py_or targs EMPTY_TUPLE in
      let tkwargs := py_or tkwargs EMPTY_DICT in
      let task_id := create_task_id job targs tkwargs in
      task ← get_task (Some task_id);
      task ← match task with
             | Some t =>
                 (* the task with id is already available *)
                 if Task.done t then handle_task_done t else mret (Some t)
             | None => mret None
             end;
      match task with
      | Some _ =>
          log (c_logger "debug");;
          mret VNone
      | None =>
          advance_entry (Job.name job);;
          time_executed ← datetime_now;
          let expiry :=
            match expiry with
            | Some e => Some (get_datetime e time_executed)
            | None =>
                if timeout_truthy (Job.timeout job)
                then (λ e, get_datetime e time_executed) <$> Job.timeout job
                else None
            end in
          log (c_logger "debug");;
          kw ← keywords (pending_fields job time_executed expiry
                           targs tkwargs) params;
          save_task task_id kw
      end
  | None => raise (TaskNotAvailable jobname)
  end.

(** *** TaskBackend._run_job *)
Definition _run_job (jobname : string) (targs tkwargs : value)
    (expiry : option expiry_arg) (meta_params : gmap string value)
    : M value :=
  task_id ← create_task jobname targs tkwargs expiry meta_params;
  (if truthy task_id then put_task task_id;; mret tt else mret tt);;
  mret task_id.

(** *** TaskBackend.run_job: [_run_job(...).add_errback(log_failure)] *)
Definition run_job (jobname : string) (targs tkwargs : value)
    (expiry : option expiry_arg) (meta_params : gmap string value)
    : M value :=
  r ← try (_run_job jobname targs tkwargs expiry meta_params);
  match r with
  | inl v => mret v
  | inr e => log (c_failure_log (maybe_failure e));; mret (maybe_failure e)
  end.

(** *** SchedulerEntry.scheduled_last_run_at

    The two [while] loops run on fuel; [None] is a loop that did not
    finish. *)
Fixpoint anchor_up (fuel : nat) (anchor last_run_at run_every : Z)
    : option Z :=
  match fuel with
  | O => None
  | Datatypes.S fuel =>
      if anchor <=? last_run_at
      then anchor_up fuel (anchor + run_every) last_run_at run_every
      else Some anchor
  end.

Fixpoint anchor_down (fuel : nat) (anchor last_run_at run_every : Z)
    : option Z :=
  match fuel with
  | O => None
  | Datatypes.S fuel =>
      if anchor >? last_run_at
      then anchor_down fuel (anchor - run_every) last_run_at run_every
      else Some anchor
  end.

Definition scheduled_last_run_at (fuel : nat) (self : SchedulerEntry.t)
    : res (Z * SchedulerEntry.t) :=
  let last_run_at := SchedulerEntry.last_run_at self in
  match SchedulerEntry.anchor self with
  | Some anchor =>
      let run_every := SchedulerEntry.run_every self in
      if timedelta_seconds run_every =? 0 then Exc ZeroDivisionError
      else
        let times := Z.quot (timedelta_seconds (last_run_at - anchor))
                            (timedelta_seconds run_every) in
        if times =? 0 then Ok (anchor, self)
        else
          match anchor_up fuel (anchor + times * run_every)
                  last_run_at run_every with
          | Some anchor =>
              match anchor_down fuel anchor last_run_at run_every with
              | Some anchor =>
                  Ok (anchor, SchedulerEntry.set_anchor self anchor)
              | None => Diverges
              end
          | None => Diverges
          end
  | None => Ok (last_run_at, self)
  end.

(** *** Schedule.remaining_estimate and Schedule.is_due

    [remaining] reads the clock itself when [now] is [None]. *)
Definition remaining_estimate (self : Schedule.t) (last_run_at : Z)
    (now : option Z) : M Z :=
  now ← now_or_datetime_now now;
  mret (remaining last_run_at (Schedule.run_every self) now).

Definition Schedule_is_due (self : Schedule.t) (last_run_at : Z)
    (now : option Z) : M (bool * Z) :=
  rem_delta ← remaining_estimate self last_run_at now;
  let rem := timedelta_seconds rem_delta in
  if rem =? 0
  then mret (true, timedelta_seconds (Schedule.run_every self))
  else mret (false, rem).

(** *** SchedulerEntry.is_due, on the entry [self.entries[key]] *)
Definition is_due (fuel : nat) (key : string) (self : SchedulerEntry.t)
    (now : option Z) : M (bool * Z) :=
  match scheduled_last_run_at fuel self with
  | Ok (last, self') =>
      set_entry key self';;
      Schedule_is_due (SchedulerEntry.schedule self') last now
  | Exc e => raise e
  | Diverges => diverge
  end.

(** *** TaskBackend.tick *)

(** One turn of [for entry in itervalues(self.entries)]. *)
Definition tick_entry (fuel : nat) (now : option Z) (key : string)
    (remaining_times : list Z) : M (list Z) :=
  es ← get entries;
  match es ≫= (.!! key) with
  | Some entry =>
      '(due, next_time_to_run) ← is_due fuel key entry now;
      (if due : bool
       then log (c_run_job (SchedulerEntry.name entry));;
            run_job (SchedulerEntry.name entry) VNone VNone None ∅;;
            mret tt
       else mret tt);;
      if next_time_to_run =? 0
      then mret remaining_times
      else mret (remaining_times ++ [next_time_to_run])
  | None => mret remaining_times
  end.

(** The loop inside [try: ... except Exception:], with the list it has
    filled when it stops. *)
Fixpoint tick_loop (fuel : nat) (now : option Z) (keys : list string)
    (remaining_times : list Z) : M (list Z) :=
  match keys with
  | [] => mret remaining_times
  | key :: keys =>
      r ← try (tick_entry fuel now key remaining_times);
      match r with
      | inl remaining_times => tick_loop fuel now keys remaining_times
      | inr e => log (c_logger "exception");; mret remaining_times
      end
  end.

Definition list_min (l : list Z) : Z :=
  match l with
  | [] => 0
  | x :: l => foldr Z.min x l
  end.

Definition tick (fuel : nat) (now : option Z) : M unit :=
  periodic ← get schedule_periodic;
  if negb periodic then mret tt
  else
    es ← get entries;
    remaining_times ←
      match es with
      | Some es => tick_loop fuel now (map_to_list es).*1 []
      | None => log (c_logger "exception");; mret []
      end;
    next_run ← now_or_datetime_now now;
    let next_run :=
      match remaining_times with
      | [] => next_run
      | _ => next_run + list_min remaining_times
      end in
    modify (with_next_run next_run).

(** *** The scheduler table

    What [_setup_schedule] ([entries[name] = SchedulerEntry(name, schedule)]
    for the [name] of each periodic job of the registry) and the registry
    guarantee: an entry is filed under its own name, a job under its own
    name. *)
Definition entries_wf (w : world) : Prop :=
  ∀ es k e, entries w = Some es → es !! k = Some e →
            SchedulerEntry.name e = k.
Definition registry_wf : Prop :=
  ∀ n j, registry !! n = Some j → Job.name j = n.

(** The run count and the last run of the entry [key]. *)
Definition entry_track (key : string) (w : world) : option (Z * Z) :=
  (λ e, (SchedulerEntry.total_run_count e, SchedulerEntry.last_run_at e))
    <$> (entries w ≫= (.!! key)).

(** The entry [key], if there is one, has advanced by one run, to a
    reading of the clock. *)
Definition advanced (key : string) (w w' : world) : Prop :=
  (∀ c t, entry_track key w = Some (c, t) →
          ∃ i, entry_track key w' = Some (c + 1, clock w i)) ∧
  (entry_track key w = None → entry_track key w' = None).

(** A stretch of execution from [w] to [w'], seen from the entry [key]:
    [f] tells whether [tick] fired the entry in it, [c] whether a PENDING
    task of the job was saved in it, [a] whether the entry advanced (once)
    or stayed as it was. *)
Definition stretch (key : string) (f a c : bool) (w w' : world) : Prop :=
  (entries_wf w → entries_wf w') ∧
  ∃ l j, calls w' = calls w ++ l ∧
         (∀ n, clock w' n = clock w (n + j)%nat) ∧
         fired key l = f ∧
         created key l = c ∧
         if a then advanced key w w'
         else entry_track key w' = entry_track key w.

(** The entry advances exactly when a task is created for it, which
    happens only after it was fired. *)
Definition one_turn (key : string) (w w' : world) : Prop :=
  ∃ f c, stretch key f c c w w' ∧ (c = true → f = true).

(** A request made by the scheduler for the job [name], seen from the
    entry [key]: for another job nothing happens to the entry; for the job
    itself either no task is created and the entry stays, or one is and
    the entry advances. *)
Definition request_effect (name key : string) (w w' : world) : Prop :=
  if decide (name = key)
  then stretch key false false false w w' ∨ stretch key false true true w w'
  else stretch key false false false w w'.

(** *** TaskBackend._execute_task *)

(** [thread_pool.apply_async], [event_loop.call_soon] and
    [event_loop.call_soon_threadsafe]. *)
Definition apply_async (task : Task.t) : M unit :=
  log (c_apply_async (Task.id task));;
  modify (λ w, with_thread_pool ((.++ [task]) <$> thread_pool w) w).
Definition call_soon (cb : callback) : M unit :=
  log (c_call_soon cb);;
  modify (λ w, with_event_loop (event_loop w ++ [cb]) w).
Definition call_soon_threadsafe (cb : callback) : M unit :=
  log (c_call_soon_threadsafe cb);;
  modify (λ w, with_event_loop (event_loop w ++ [cb]) w).

(** [job(consumer, *task.args, **task.kwargs)] *)
Definition call_job (job : Job.t) (task : Task.t) : M value :=
  log (c_job (Job.name job) (Task.args task) (Task.kwargs task));;
  match Job.call job (Task.args task) (Task.kwargs task) with
  | Job.Returns v => mret v
  | Job.Raises e => raise e
  end.

(** [states.PRECEDENCE_MAPPING[key]] *)
Definition precedence (key : string) : M Z :=
  match PRECEDENCE_MAPPING !! key with
  | Some p => mret p
  | None => raise (KeyError key)
  end.

(** The keywords of the two [save_task] calls of the executor. *)
Definition started_fields (time_started : Z) : gmap string value :=
  {[ "status" := VStr states.STARTED;
     "time_started" := VDatetime time_started ]}.
Definition finished_fields (time_ended : Z) (status : string)
    (result : value) : gmap string value :=
  {[ "time_ended" := VDatetime time_ended;
     "status" := VStr status;
     "result" := result ]}.



(** [task.expiry and time_ended > task.expiry] *)
Definition expired (task : Task.t) (time_ended : Z) : bool :=
  match Task.expiry task with
  | Some expiry => time_ended >? expiry
  | None => false
  end.

(** The body of the [try] statement, entered with [result = None],
    [status = None], [time_ended] the time of entry and, from its second
    line on, [consumer] set.  It gives [result], [time_ended] and
    [consumer] as they are when it ends normally; when it raises, none of
    them has been assigned since. *)
Definition _execute_task_try (task : Task.t) (consumer : TaskConsumer)
    (time_ended : Z) : M (value * Z * option TaskConsumer) :=
  let task_id := Task.id task in
  match consumer_job consumer with
  | None => raise (RuntimeError "Task not in registry")
  | Some job =>
      started ← precedence states.STARTED;
      if Task.status_code PRECEDENCE_MAPPING UNKNOWN_STATE task >? started
      then
        if expired task time_ended then raise TaskTimeout
        else
          log (c_logger "debug");;
          save_task task_id (started_fields time_ended);;
          on_start_task consumer;;
          result ← call_job job task;
          time_ended ← datetime_now;
          mret (result, time_ended, Some consumer)
      else mret (VNone, time_ended, None)
  end.

Definition _execute_task (task : Task.t) : M value :=
  let task_id := Task.id task in
  time_ended ← datetime_now;
  let job := Task.name task ≫= (registry !!.) in
  let consumer := mkTaskConsumer task_id job in
  r ← try (_execute_task_try task consumer time_ended);
  '(result, status, time_ended, consumer) ←
    match r with
    | inl (result, time_ended, consumer) =>
        mret (result, None, time_ended, consumer)
    | inr TaskTimeout =>
        log (c_logger "debug");;
        mret (VNone, Some states.REVOKED, time_ended, Some consumer)
    | inr e =>
        mret (maybe_failure e, None, time_ended, Some consumer)
    end;
  '(result, status) ←
    (if is_failure result
     then log (c_failure_log result);;
          mret (VStr (failure_str result), states.FAILURE)
     else match status with
          | Some status => mret (result, status)
          | None => mret (result, states.SUCCESS)
          end);
  match consumer with
  | Some consumer =>
      save_task task_id (finished_fields time_ended status result);;
      log (c_logger "debug");;
      on_finish_task consumer
  | None => mret tt
  end;;
  call_soon_threadsafe (cb_done_task task_id);;
  mret (VStr task_id).

(** *** TaskBackend._done_task *)
Definition _done_task (task_id : string) : M unit :=
  modify (λ w, with_concurrent_requests (concurrent_requests w - 1) w).

(** *** TaskBackend.may_pool_task

    The generator has one [yield], at [self.get_task()].  A run of it goes
    from its start, or from that [yield] once the answer is there, to the
    next [yield] or to its end. *)
Inductive poll :=
| poll_suspended   (* stopped at [task = yield self.get_task()] *)
| poll_returned.   (* ran to the end of the function *)

(** The [while] loop from its head. *)
Fixpoint may_pool_task_loop (fuel : nat) : M poll :=
  match fuel with
  | O => diverge
  | Datatypes.S fuel =>
      is_running ← get running;
      if is_running : bool then
        pool ← get thread_pool;
        match pool with
        | None =>
            log (c_logger "warning");;
            may_pool_task_loop fuel
        | Some _ =>
            c ← get concurrent_requests;
            b ← get backlog;
            if c <? b then mret poll_suspended
            else
              log (c_logger "info");;
              call_soon cb_may_pool_task;;     (* after [break] *)
              mret poll_returned
        end
      else
        call_soon cb_may_pool_task;;
        mret poll_returned
  end.

(** A call of [may_pool_task(worker)]. *)
Definition may_pool_task (fuel : nat) : M poll := may_pool_task_loop fuel.

(** The generator resumed with the answer of [self.get_task()]. *)
Definition may_pool_task_resume (fuel : nat) : M poll :=
  task ← get_task None;
  match task with
  | Some task =>
      modify (λ w, with_concurrent_requests (concurrent_requests w + 1) w);;
      apply_async task
  | None => mret tt
  end;;
  may_pool_task_loop fuel.

(** *** TaskBackend.start *)
Definition start : M unit :=
  modify (with_thread_pool (Some []));;       (* worker.create_thread_pool() *)
  call_soon cb_may_pool_task;;
  log (c_logger "debug").

(** *** The worker: its event loop and its thread pool

    A state of the worker is the [world] and the number of
    [may_pool_task] generators suspended at their [yield].  The event
    loop runs the callback at the head of its queue; a suspended generator
    is resumed when the backend answers; a thread of the pool takes a
    submitted task and runs [_execute_task] on it; the worker may be
    stopped. *)
Definition suspensions (p : poll) : nat :=
  match p with
  | poll_suspended => 1%nat
  | poll_returned => 0%nat
  end.

(** The [may_pool_task] callbacks waiting in a queue of the event loop. *)
Definition is_poller (cb : callback) : bool :=
  match cb with cb_may_pool_task => true | cb_done_task _ => false end.
Fixpoint pollers (l : list callback) : nat :=
  match l with
  | [] => 0%nat
  | cb :: l => ((if is_poller cb then 1 else 0) + pollers l)%nat
  end.

Inductive worker_step : world * nat → world * nat → Prop :=
| step_done_task w n task_id rest w' :
    event_loop w = cb_done_task task_id :: rest →
    _done_task task_id (with_event_loop rest w) = (Ok tt, w') →
    worker_step (w, n) (w', n)
| step_may_pool_task w n rest fuel p w' :
    event_loop w = cb_may_pool_task :: rest →
    may_pool_task fuel (with_event_loop rest w) = (Ok p, w') →
    worker_step (w, n) (w', (n + suspensions p)%nat)
| step_resume w n fuel p w' :
    may_pool_task_resume fuel w = (Ok p, w') →
    worker_step (w, Datatypes.S n) (w', (n + suspensions p)%nat)
| step_execute w n before task after r w' :
    thread_pool w = Some (before ++ task :: after) →
    _execute_task task (with_thread_pool (Some (before ++ after)) w)
      = (r, w') →
    worker_step (w, n) (w', n)
| step_stop w n :
    worker_step (w, n) (with_running false w, n).

(** The worker after [start]: nothing dispatched yet, nothing queued but
    the poller. *)
Definition started (w : world) : Prop :=
  ∃ w0, concurrent_requests w0 = 0 ∧ event_loop w0 = [] ∧
        start w0 = (Ok tt, w).

Definition reachable (st : world * nat) : Prop :=
  ∃ w, started w ∧ rtc worker_step (w, 0%nat) st.

(** The invariant of the worker: the bound holds, it holds strictly while
    a poller is suspended at its [yield], and there is one poller at
    most. *)
Definition worker_invariant (st : world * nat) : Prop :=
  concurrent_requests st.1 ≤ backlog st.1 ∧
  (st.2 ≠ 0%nat → concurrent_requests st.1 < backlog st.1) ∧
  (st.2 + pollers (event_loop st.1) ≤ 1)%nat.
(** *** The dates that exist

    A [datetime] lies between [datetime.min], the start of year 1, and
    [datetime.max], the end of year 9999: these are their seconds.  A sum
    that leaves the range is an [OverflowError], and
    [datetime.fromtimestamp] of a number of seconds outside it a
    [ValueError]. *)
Definition DATETIME_MIN : Z := -62135596800.
Definition DATETIME_MAX : Z := 253402300799.
Definition is_datetime (t : Z) : bool :=
  (DATETIME_MIN <=? t) && (t <=? DATETIME_MAX).

(** [get_datetime(expiry, start)], with the errors of its conversions. *)
Definition get_datetime_checked (expiry : expiry_arg) (start : Z)
    : py_error + Z :=
  match expiry with
  | a_datetime d => inr d
  | a_timedelta d =>
      if is_datetime (start + d) then inr (start + d) else inl OverflowError
  | a_timestamp s =>
      if is_datetime s then inr s
      else inl (ValueError "year is out of range")
  end.

(** The expiry [create_task] converts: the one of the request, else the
    job's [timeout] when it is true. *)
Definition expiry_in_effect (expiry : option expiry_arg) (job : Job.t)
    : option expiry_arg :=
  match expiry with
  | Some e => Some e
  | None => if timeout_truthy (Job.timeout job) then Job.timeout job else None
  end.


(** *** Counting for the scheduler and for the worker *)

(** [times] in [scheduled_last_run_at]: the whole cadences between the
    anchor and the last run. *)
Definition times_of (self : SchedulerEntry.t) (anchor : Z) : Z :=
  Z.quot (timedelta_seconds (SchedulerEntry.last_run_at self - anchor))
         (timedelta_seconds (SchedulerEntry.run_every self)).

(** What [tick] appends to [remaining_times]: a number of seconds that is
    not zero. *)
Definition waiting_time (x : Z) : Prop :=
  x ≠ 0 ∧ ∃ d, x = timedelta_seconds d.

Definition is_get_task (c : call) : bool :=
  match c with c_get_task _ => true | _ => false end.

(** The [_done_task] callbacks waiting in a queue of the event loop. *)
Definition done_tasks (l : list callback) : list string :=
  omap (λ cb, match cb with
              | cb_done_task task_id => Some task_id
              | cb_may_pool_task => None
              end) l.

(** *** TaskBackend._maybe_schedule

    What it is given as [s]: an [int] of seconds, a [timedelta], or
    something else. *)
Inductive schedule_arg :=
| s_int (seconds : Z)
| s_timedelta (d : Z)
| s_other.

Definition _maybe_schedule (s : schedule_arg) (anchor : option Z)
    : M (py_error + option Schedule.t) :=
  periodic ← get schedule_periodic;
  if negb periodic then mret (inr None)
  else
    match s with
    | s_int seconds =>         (* s = timedelta(seconds=s) *)
        mret (inr (Some {| Schedule.run_every := seconds;
                           Schedule.anchor := anchor |}))
    | s_timedelta d =>
        mret (inr (Some {| Schedule.run_every := d;
                           Schedule.anchor := anchor |}))
    | s_other => mret (inl (ValueError "Schedule is not a timedelta"))
    end.

(** *** SchedulerEntry.__init__, called with a name and a schedule:
    [last_run_at or datetime.now()], [total_run_count or 0]. *)
Definition SchedulerEntry___init__ (name : string) (schedule : Schedule.t)
    : M SchedulerEntry.t :=
  last_run_at ← datetime_now;
  mret {| SchedulerEntry.name := name;
          SchedulerEntry.schedule := schedule;
          SchedulerEntry.last_run_at := last_run_at;
          SchedulerEntry.total_run_count := 0 |}.

(** Modelled from the spec: [registry.filter_types(type)], of the job
    registry that the source imports, gives the [(name, job)] pairs of the
    registry whose job is of that type. *)
Definition filter_types (type : string) : list (string * Job.t) :=
  filter (λ nj, Job.type nj.2 = type) (map_to_list registry).

(** *** TaskBackend._setup_schedule

    The loop over the periodic jobs; a job's [run_every] is a duration.
    [_maybe_schedule] gives no schedule only for a backend that does not
    schedule, which [_setup_schedule] has excluded when it comes here; an
    entry without a schedule is not an entry of this model, and that turn
    adds none. *)
Fixpoint _setup_schedule_loop (jobs : list (string * Job.t))
    (entries : gmap string SchedulerEntry.t)
    : M (py_error + gmap string SchedulerEntry.t) :=
  match jobs with
  | [] => mret (inr entries)
  | (name, task) :: jobs =>
      schedule ← _maybe_schedule (s_timedelta (Job.run_every task))
                    (Job.anchor task);
      match schedule with
      | inr (Some schedule) =>
          entry ← SchedulerEntry___init__ name schedule;
          _setup_schedule_loop jobs (<[name := entry]> entries)
      | inr None => _setup_schedule_loop jobs entries
      | inl e => mret (inl e)
      end
  end.

Definition _setup_schedule
    : M (py_error + option (gmap string SchedulerEntry.t)) :=
  periodic ← get schedule_periodic;
  if negb periodic then mret (inr None)
  else
    entries ← _setup_schedule_loop (filter_types "periodic") ∅;
    match entries with
    | inr entries => mret (inr (Some entries))
    | inl e => mret (inl e)
    end.

(** *** TaskBackend.next_scheduled

    What it returns: nothing, [(next_entry.name, max(next_time, 0))], or
    [(jobnames, None)]. *)
Inductive scheduled :=
| next_at (name : string) (seconds : Z)
| none_of (jobnames : list string).

(** The [for] loop.  [next_entry] and [next_time] are assigned together:
    they are one optional pair here.  An entry is looked up when its turn
    comes, [entry.is_due()] is the entry's [is_due] with no [now]. *)
Fixpoint next_scheduled_loop (fuel : nat) (keys : list string)
    (next : option (SchedulerEntry.t * Z))
    : M (option (SchedulerEntry.t * Z)) :=
  match keys with
  | [] => mret next
  | key :: keys =>
      es ← get entries;
      match es ≫= (.!! key) with
      | None => next_scheduled_loop fuel keys next
      | Some entry =>
          '(due, next_time_to_run) ← is_due fuel key entry None;
          if due : bool then mret (Some (entry, 0))
          else
            match next with
            | Some (_, next_time) =>
                if next_time_to_run <? next_time
                then next_scheduled_loop fuel keys
                       (Some (entry, next_time_to_run))
                else next_scheduled_loop fuel keys next
            | None =>
                next_scheduled_loop fuel keys
                  (Some (entry, next_time_to_run))
            end
      end
  end.

(** [jobnames] is a sequence of names, empty when none is given.  With
    no table of entries ([self.entries] is [None]) both
    [self.entries.get] and [itervalues(self.entries)] raise an
    [AttributeError]. *)
Definition next_scheduled (fuel : nat) (jobnames : list string)
    : M (py_error + option scheduled) :=
  periodic ← get schedule_periodic;
  if negb periodic then mret (inr None)
  else
    es ← get entries;
    match es with
    | None => mret (inl AttributeError)
    | Some es =>
        let keys := match jobnames with
                    | [] => (map_to_list es).*1
                    | _ => jobnames
                    end in
        next ← next_scheduled_loop fuel keys None;
        match next with
        | Some (next_entry, next_time) =>
            mret (inr (Some (next_at (SchedulerEntry.name next_entry)
                               (Z.max next_time 0))))
        | None => mret (inr (Some (none_of jobnames)))
        end
    end.

(** What the loop of [next_scheduled] holds in [next_entry] after the
    turns of the keys [seen], told with the scheduler's table [es]: an
    entry of one of these keys, or nothing when none of them has one. *)
Definition found (es : gmap string SchedulerEntry.t) (seen : list string)
    (next : option (SchedulerEntry.t * Z)) : Prop :=
  match next with
  | Some (e, _) =>
      ∃ key e0, key ∈ seen ∧ es !! key = Some e0 ∧
                SchedulerEntry.name e0 = SchedulerEntry.name e
  | None => ∀ key, key ∈ seen → es !! key = None
  end.

(** The schedule of the entry [e] says that it is due: at [now], or at a
    reading of the clock of [w] when no [now] is given, nothing remains
    of the cadence counted from the scheduled last run. *)
Definition due_at (fuel : nat) (now : option Z) (e : SchedulerEntry.t)
    (w : world) : Prop :=
  ∃ last e' t,
    scheduled_last_run_at fuel e = Ok (last, e') ∧
    match now with
    | Some n => t = n
    | None => ∃ i, t = clock w i
    end ∧
    timedelta_seconds (remaining last (SchedulerEntry.run_every e) t) = 0.

(** *** TaskBackend.job_list

    What it reads of a job besides [type] and [run_every]: its docstring,
    its [doc_syntax], and its [can_overlap], which is a value or a
    callable. *)
Inductive overlap :=
| overlap_value (v : value)
| overlap_callable.

Variable job_doc : Job.t → value.
Variable job_doc_syntax : Job.t → value.
Variable job_can_overlap : Job.t → overlap.

(** The dictionary [d] before [d.update(...)]. *)
Definition job_info (job : Job.t) : list (string * value) :=
  [("doc", job_doc job);
   ("doc_syntax", job_doc_syntax job);
   ("type", VStr (Job.type job));
   ("can_overlap", match job_can_overlap job with
                   | overlap_callable => VStr "maybe"
                   | overlap_value v => v
                   end)]%string.

(** [if self.entries and name in self.entries] *)
Definition entry_of (es : option (gmap string SchedulerEntry.t))
    (name : string) : option SchedulerEntry.t :=
  es ≫= (.!! name).

(** The [for] loop, with the list [all] it appends to.
    [_, next_time_to_run = self.next_scheduled((name,))] takes the second
    component of the pair returned and is a [TypeError] when nothing is
    returned; [86400*job.run_every.days + job.run_every.seconds] is the
    duration's number of seconds. *)
Fixpoint job_list_loop (fuel : nat) (names : list string)
    (all : list (string * value))
    : M (py_error + list (string * value)) :=
  match names with
  | [] => mret (inr all)
  | name :: names =>
      match registry !! name with
      | None => job_list_loop fuel names all
      | Some job =>
          let d := job_info job in
          es ← get entries;
          match entry_of es name with
          | Some entry =>
              r ← next_scheduled fuel [name];
              match r with
              | inl e => mret (inl e)
              | inr None =>
                  raise (TypeError "'NoneType' object is not iterable")
              | inr (Some scheduled) =>
                  let next_time_to_run :=
                    match scheduled with
                    | next_at _ seconds => VInt seconds
                    | none_of _ => VNone
                    end in
                  let run_every := Job.run_every job in
                  let d := d ++ [("next_run", next_time_to_run);
                                 ("run_every", VInt run_every);
                                 ("runs_count",
                                  VInt (SchedulerEntry.total_run_count
                                          entry))]%string in
                  job_list_loop fuel names (all ++ [(name, VDict d)])
              end
          | None => job_list_loop fuel names (all ++ [(name, VDict d)])
          end
      end
  end.

(** [jobnames or registry]: with no names given the registry's own
    names are walked, in the order [registry_names] in which iterating
    over the registry gives them. *)
Definition job_list (fuel : nat) (registry_names : list string)
    (jobnames : list string) : M (py_error + list (string * value)) :=
  let names := match jobnames with
               | [] => registry_names
               | _ => jobnames
               end in
  job_list_loop fuel names [].

(** An item of the list [job_list] returns, told with the scheduler's
    table [es] as it is when [job_list] is called: the name of a
    registered job with the job's dictionary; for a job with an entry in
    the table, and only for such a job, the dictionary is extended with a
    number of seconds that is not negative, the job's cadence and the run
    count of the entry. *)
Definition listed (es : option (gmap string SchedulerEntry.t))
    (item : string * value) : Prop :=
  ∃ job, registry !! item.1 = Some job ∧
         match entry_of es item.1 with
         | None => item.2 = VDict (job_info job)
         | Some entry =>
             ∃ seconds,
               0 ≤ seconds ∧
               item.2 = VDict (job_info job ++
                               [("next_run", VInt seconds);
                                ("run_every", VInt (Job.run_every job));
                                ("runs_count",
                                 VInt (SchedulerEntry.total_run_count
                                         entry))]%string)
         end.
End backend.

(** ** A backend in memory

    Modelled from the spec: the source has no concrete backend.  This one
    follows the contract of the five operations: [put_task] appends the id
    to a queue, [get_task] with an id is a lookup and without one takes the
    next queued id and loads it, [save_task] creates the task or
    overwrites the fields given, [delete_tasks] removes the ids that are
    there. *)
Module local.
Record t := mk {
  tasks : gmap string Task.t;
  queue : list string
}.

Definition upd {A} (f : option value → option A) (old : option A)
    (v : option value) : option A :=
  match v with
  | Some _ => f v
  | None => old
  end.

Definition setattrs (task : Task.t) (kw : gmap string value) : Task.t :=
  {| Task.id := Task.id task;
     Task.name := upd Task.as_str (Task.name task) (kw !! "name");
     Task.time_executed :=
       upd Task.as_datetime (Task.time_executed task) (kw !! "time_executed");
     Task.from_task :=
       upd Task.as_str (Task.from_task task) (kw !! "from_task");
     Task.time_started :=
       upd Task.as_datetime (Task.time_started task) (kw !! "time_started");
     Task.time_ended :=
       upd Task.as_datetime (Task.time_ended task) (kw !! "time_ended");
     Task.expiry := upd Task.as_datetime (Task.expiry task) (kw !! "expiry");
     Task.args := default (Task.args task) (kw !! "args");
     Task.kwargs := default (Task.kwargs task) (kw !! "kwargs");
     Task.status := upd Task.as_str (Task.status task) (kw !! "status");
     Task.result := default (Task.result task) (kw !! "result");
     Task.params := Task.params task |}.

Definition get_task (task_id : option string) (s : t)
    : option Task.t * t :=
  match task_id with
  | Some i => (tasks s !! i, s)
  | None =>
      match queue s with
      | [] => (None, s)
      | i :: q => (tasks s !! i, {| tasks := tasks s; queue := q |})
      end
  end.

Definition save_task (task_id : string) (kw : gmap string value) (s : t)
    : value * t :=
  let task := match tasks s !! task_id with
              | Some task => setattrs task kw
              | None => Task.__init__ task_id kw
              end in
  (VStr task_id, {| tasks := <[task_id := task]> (tasks s); queue := queue s |}).

Definition delete_tasks (task_ids : list string) (s : t) : value * t :=
  (VInt (Z.of_nat (length (filter (λ i, is_Some (tasks s !! i)) task_ids))),
   {| tasks := foldr delete (tasks s) task_ids; queue := queue s |}).

Definition put_task (task_id : value) (s : t) : value * t :=
  match task_id with
  | VStr i => (VNone, {| tasks := tasks s; queue := queue s ++ [i] |})
  | _ => (VNone, s)
  end.

#[global] Instance impl : TaskBackendImpl t := {
  impl_get_task := get_task;
  impl_save_task := save_task;
  impl_delete_tasks := delete_tasks;
  impl_put_task := put_task
}.
End local.

(** ** A concrete instance, for the examples

    One precedence table (lower number, higher precedence), a registry with
    a regular job [x] and a periodic job [beat], the plain reading of
    [remaining] and [timedelta_seconds], and a clock that advances by one
    second at every reading. *)
Module sample.
Definition PRECEDENCE_MAPPING : gmap string Z :=
  list_to_map (zip
    [states.SUCCESS; states.FAILURE; states.REVOKED; states.STARTED;
     states.QUEUED; states.RETRY; states.PENDING; states.UNKNOWN]
    [0; 1; 2; 3; 4; 5; 6; 7]).
Definition UNKNOWN_STATE : Z := 7.

Definition remaining (start ends_in now : Z) : Z := start + ends_in - now.
Definition timedelta_seconds (d : Z) : Z := Z.max d 0.
Definition failure_str (v : value) : string :=
  match v with
  | VFailure (JobError msg) => msg
  | VFailure (RuntimeError msg) => msg
  | _ => "failure"
  end.

Definition x : Job.t :=
  {| Job.name := "x";
     Job.type := "regular";
     Job.timeout := None;
     Job.run_every := 0;
     Job.anchor := None;
     Job.make_task_id := λ _ _, "H(x,1,2)"%string;
     Job.call := λ _ _, Job.Returns (VInt 42) |}.

Definition beat : Job.t :=
  {| Job.name := "beat";
     Job.type := "periodic";
     Job.timeout := None;
     Job.run_every := 60;
     Job.anchor := None;
     Job.make_task_id := λ _ _, "H(beat)"%string;
     Job.call := λ _ _, Job.Returns VNone |}.

(** A job whose body times out, and one whose body fails. *)
Definition slow : Job.t :=
  {| Job.name := "slow";
     Job.type := "regular";
     Job.timeout := None;
     Job.run_every := 0;
     Job.anchor := None;
     Job.make_task_id := λ _ _, "H(slow)"%string;
     Job.call := λ _ _, Job.Raises TaskTimeout |}.

Definition broken : Job.t :=
  {| Job.name := "broken";
     Job.type := "regular";
     Job.timeout := None;
     Job.run_every := 0;
     Job.anchor := None;
     Job.make_task_id := λ _ _, "H(broken)"%string;
     Job.call := λ _ _, Job.Raises (JobError "boom") |}.

Definition registry : gmap string Job.t :=
  <["x" := x]> (<["beat" := beat]>
    (<["slow" := slow]> (<["broken" := broken]> ∅))).

Definition wall_clock (n : nat) : Z := 1000 + Z.of_nat n.
Definition fresh_ids (n : nat) : string :=
  match n with
  | O => "fresh-0"
  | Datatypes.S O => "fresh-1"
  | _ => "fresh-n"
  end.

Definition world0 : world (S := local.t) :=
  {| store := local.mk ∅ [];
     calls := [];
     clock := wall_clock;
     ids := fresh_ids;
     entries := None;
     schedule_periodic := false;
     next_run := 0;
     backlog := 2;
     concurrent_requests := 0;
     running := true;
     thread_pool := None;
     event_loop := [] |}.

Definition task_of (job_name task_id : string) (status : option string)
    (expiry : option Z) : Task.t :=
  {| Task.id := task_id;
     Task.name := Some job_name;
     Task.time_executed := Some 990;
     Task.from_task := None;
     Task.time_started := None;
     Task.time_ended := None;
     Task.expiry := expiry;
     Task.args := VTuple [VInt 1; VInt 2];
     Task.kwargs := VDict [];
     Task.status := status;
     Task.result := VNone;
     Task.params := ∅ |}.

Definition task : string → option string → option Z → Task.t :=
  task_of "x".

(** A world whose store holds one task. *)
Definition world_with (t : Task.t) : world (S := local.t) :=
  with_store (local.mk {[ Task.id t := t ]} []) world0.

(** The scheduler's table with the entry of [beat]: every 60 seconds from
    940 on, last run at 995; and a world that schedules, whose clock reads
    1003 first. *)
Definition beat_entry : SchedulerEntry.t :=
  {| SchedulerEntry.name := "beat";
     SchedulerEntry.schedule :=
       {| Schedule.run_every := 60; Schedule.anchor := Some 940 |};
     SchedulerEntry.last_run_at := 995;
     SchedulerEntry.total_run_count := 0 |}.

Definition world_periodic : world (S := local.t) :=
  {| store := local.mk ∅ [];
     calls := [];
     clock := λ n, 1003 + Z.of_nat n;
     ids := fresh_ids;
     entries := Some {[ "beat"%string := beat_entry ]};
     schedule_periodic := true;
     next_run := 0;
     backlog := 2;
     concurrent_requests := 0;
     running := true;
     thread_pool := None;
     event_loop := [] |}.

(** The same, with a task of [beat] still pending in the store. *)
Definition world_periodic_busy : world (S := local.t) :=
  with_store
    (local.mk {[ "H(beat)"%string :=
                 task_of "beat" "H(beat)" (Some states.PENDING) None ]} [])
    world_periodic.

(** A world whose store holds one task, queued for the workers. *)
Definition world_queued (t : Task.t) : world (S := local.t) :=
  with_store (local.mk {[ Task.id t := t ]} [Task.id t]) world0.
End sample.

(** ** TaskCallbacks

    Modelled from the spec: [pulsar.Deferred], which the source imports, is
    a one-shot waiter.  [Deferred()] makes a new one, told from the others
    by its number; [callback(task)] fires it with the task, and what that
    call gives back stands as [called_back]. *)
Module TaskCallbacks.
Definition Deferred := nat.

(** The [callbacks] dictionary of the instance, the number of waiters made
    so far and the log of the waiters fired. *)
Record t := mk {
  callbacks : gmap string Deferred;
  made : nat;
  fired : list (Deferred * Task.t)
}.

(** What the methods give back: the task, a waiter, or the result of
    firing a waiter with the task. *)
Inductive answer :=
| the_task (task : Task.t)
| waiter (d : Deferred)
| called_back (d : Deferred) (task : Task.t).

Section methods.
(** The truth value of a waiter, as [if when_done:] takes it. *)
Variable deferred_truthy : Deferred → bool.

Definition _pop (task : Task.t) (self : t) : answer * t :=
  let when_done := callbacks self !! Task.id task in
  let self := {| callbacks := delete (Task.id task) (callbacks self);
                 made := made self;
                 fired := fired self |} in
  match when_done with
  | Some d =>
      if deferred_truthy d
      then (called_back d task,
            {| callbacks := callbacks self;
               made := made self;
               fired := fired self ++ [(d, task)] |})
      else (the_task task, self)
  | None => (the_task task, self)
  end.

(** [task.status = states.REVOKED] *)
Definition revoke (task : Task.t) : Task.t :=
  {| Task.id := Task.id task;
     Task.name := Task.name task;
     Task.time_executed := Task.time_executed task;
     Task.from_task := Task.from_task task;
     Task.time_started := Task.time_started task;
     Task.time_ended := Task.time_ended task;
     Task.expiry := Task.expiry task;
     Task.args := Task.args task;
     Task.kwargs := Task.kwargs task;
     Task.status := Some states.REVOKED;
     Task.result := Task.result task;
     Task.params := Task.params task |}.

(** [finish] changes the task it is given: the task comes back with the
    answer. *)
Definition finish (task : Task.t) (self : t) : answer * Task.t * t :=
  let task := if Task.done task then task else revoke task in
  let r := _pop task self in
  (r.1, task, r.2).

Definition when_done (task : Task.t) (self : t) : answer * t :=
  if Task.done task then _pop task self
  else
    match callbacks self !! Task.id task with
    | Some d =>
        if deferred_truthy d then (waiter d, self)
        else (waiter (made self),
              {| callbacks := <[Task.id task := made self]> (callbacks self);
                 made := Datatypes.S (made self);
                 fired := fired self |})
    | None =>
        (waiter (made self),
         {| callbacks := <[Task.id task := made self]> (callbacks self);
            made := Datatypes.S (made self);
            fired := fired self |})
    end.
End methods.
End TaskCallbacks.


(** ** A backend whose operations can fail

    The operations of a concrete backend, and the hooks [on_start_task]
    and [on_finish_task] that a subclass may override, can raise: here
    they answer or raise.  The executor, the poller and the worker are as
    above, over these operations; and the worker can be closed. *)
Class TaskBackendRaising (S : Type) := {
  raising_get_task : option string → S → (exn + option Task.t) * S;
  raising_save_task : string → gmap string value → S → (exn + value) * S;
  raising_on_start_task : TaskConsumer → S → (exn + unit) * S;
  raising_on_finish_task : TaskConsumer → S → (exn + unit) * S
}.

(** A backend whose operations never raise is one of them. *)
Definition never_raising {S : Type} `{!TaskBackendImpl S}
    : TaskBackendRaising S :=
  {| raising_get_task task_id s :=
       let r := impl_get_task task_id s in (inr r.1, r.2);
     raising_save_task task_id params s :=
       let r := impl_save_task task_id params s in (inr r.1, r.2);
     raising_on_start_task _ s := (inr tt, s);
     raising_on_finish_task _ s := (inr tt, s) |}.

Module raising.
Section operations.
Context {S : Type} `{!TaskBackendRaising S}.
Variable PRECEDENCE_MAPPING : gmap string Z.
Variable UNKNOWN_STATE : Z.
Variable registry : gmap string Job.t.
Variable failure_str : value → string.

(** A call of an operation: it is logged, the backend is left as the
    operation leaves it, and the answer is returned or the exception
    raised. *)
Definition called {A} (c : call) (operation : S → (exn + A) * S)
    : M (S := S) A :=
  λ w, let r := operation (store w) in
       let w' := with_store r.2 (with_calls (calls w ++ [c]) w) in
       match r.1 with
       | inr a => (Ok a, w')
       | inl e => (Exc e, w')
       end.

Definition get_task (task_id : option string) : M (option Task.t) :=
  called (c_get_task task_id) (raising_get_task task_id).
Definition save_task (task_id : string) (params : gmap string value)
    : M value :=
  called (c_save_task task_id params) (raising_save_task task_id params).
Definition on_start_task (consumer : TaskConsumer) : M unit :=
  called (c_on_start_task (consumer_task_id consumer))
    (raising_on_start_task consumer).
Definition on_finish_task (consumer : TaskConsumer) : M unit :=
  called (c_on_finish_task (consumer_task_id consumer))
    (raising_on_finish_task consumer).

(** *** TaskBackend._execute_task: the body of the [try] statement *)
Definition _execute_task_try (task : Task.t) (consumer : TaskConsumer)
    (time_ended : Z) : M (value * Z * option TaskConsumer) :=
  let task_id := Task.id task in
  match consumer_job consumer with
  | None => raise (RuntimeError "Task not in registry")
  | Some job =>
      started ← precedence PRECEDENCE_MAPPING states.STARTED;
      if Task.status_code PRECEDENCE_MAPPING UNKNOWN_STATE task >? started
      then
        if expired task time_ended then raise TaskTimeout
        else
          log (c_logger "debug");;
          save_task task_id (started_fields time_ended);;
          on_start_task consumer;;
          result ← call_job job task;
          time_ended ← datetime_now;
          mret (result, time_ended, Some consumer)
      else mret (VNone, time_ended, None)
  end.

(** The [except] clauses, given how the body ended: with [result],
    [time_ended] and [consumer] as it left them, or with an exception,
    when they are as they were on entry.  They give [result], [status],
    [time_ended] and [consumer]. *)
Definition _execute_task_except (r : value * Z * option TaskConsumer + exn)
    (time_ended : Z) (consumer : TaskConsumer)
    : M (S := S) (value * option string * Z * option TaskConsumer) :=
  match r with
  | inl (result, time_ended, consumer) =>
      mret (result, None, time_ended, consumer)
  | inr TaskTimeout =>
      log (c_logger "debug");;
      mret (VNone, Some states.REVOKED, time_ended, Some consumer)
  | inr e =>
      mret (maybe_failure e, None, time_ended, Some consumer)
  end.

(** The statements after the [try] statement.  The final [save_task] and
    [on_finish_task] come before [call_soon_threadsafe]: what they raise
    leaves the method. *)
Definition _execute_task_end (task_id : string) (result : value)
    (status : option string) (time_ended : Z)
    (consumer : option TaskConsumer) : M value :=
  '(result, status) ←
    (if is_failure result
     then log (c_failure_log result);;
          mret (VStr (failure_str result), states.FAILURE)
     else match status with
          | Some status => mret (result, status)
          | None => mret (result, states.SUCCESS)
          end);
  match consumer with
  | Some consumer =>
      save_task task_id (finished_fields time_ended status result);;
      log (c_logger "debug");;
      on_finish_task consumer
  | None => mret tt
  end;;
  call_soon_threadsafe (cb_done_task task_id);;
  mret (VStr task_id).

Definition _execute_task (task : Task.t) : M value :=
  let task_id := Task.id task in
  time_ended ← datetime_now;
  let job := Task.name task ≫= (registry !!.) in
  let consumer := mkTaskConsumer task_id job in
  r ← try (_execute_task_try task consumer time_ended);
  '(result, status, time_ended, consumer) ←
    _execute_task_except r time_ended consumer;
  _execute_task_end task_id result status time_ended consumer.

(** The calls of a run of [_execute_task] that an exception ended: the
    last one is the final [save_task], with a status of READY_STATES, or
    [on_finish_task]. *)
Definition ended_at_final_call (task : Task.t) (l : list call) : Prop :=
  (∃ time_ended status result,
     status ∈ states.READY_STATES ∧
     list.last l = Some (c_save_task (Task.id task)
                           (finished_fields time_ended status result))) ∨
  list.last l = Some (c_on_finish_task (Task.id task)).

(** *** TaskBackend.may_pool_task: the generator resumed with the answer
    of [self.get_task()], or with its exception, which no [try] of the
    generator catches. *)
Definition may_pool_task_resume (fuel : nat) : M poll :=
  task ← get_task None;
  match task with
  | Some task =>
      modify (λ w, with_concurrent_requests (concurrent_requests w + 1) w);;
      apply_async task
  | None => mret tt
  end;;
  may_pool_task_loop fuel.

(** *** TaskBackend.close, once the poller's handle is cancelled *)
Definition close : M (S := S) unit := log (c_logger "debug").

(** *** The worker

    As [worker_step] above, and: a generator resumed with an exception
    ends, and with it the poller; a run of the executor may raise;
    [close] cancels the handle that [start] kept, which takes the
    poller's call off the queue of the event loop when it is still there
    (any waiting call of the poller may be the one) and does nothing to
    the queue otherwise. *)
Inductive worker_step
  : world (S := S) * nat → world (S := S) * nat → Prop :=
| step_done_task w n task_id rest w' :
    event_loop w = cb_done_task task_id :: rest →
    _done_task task_id (with_event_loop rest w) = (Ok tt, w') →
    worker_step (w, n) (w', n)
| step_may_pool_task w n rest fuel p w' :
    event_loop w = cb_may_pool_task :: rest →
    may_pool_task fuel (with_event_loop rest w) = (Ok p, w') →
    worker_step (w, n) (w', (n + suspensions p)%nat)
| step_resume w n fuel p w' :
    may_pool_task_resume fuel w = (Ok p, w') →
    worker_step (w, Datatypes.S n) (w', (n + suspensions p)%nat)
| step_resume_raises w n fuel e w' :
    may_pool_task_resume fuel w = (Exc e, w') →
    worker_step (w, Datatypes.S n) (w', n)
| step_execute w n before task after r w' :
    thread_pool w = Some (before ++ task :: after) →
    _execute_task task (with_thread_pool (Some (before ++ after)) w)
      = (r, w') →
    worker_step (w, n) (w', n)
| step_stop w n :
    worker_step (w, n) (with_running false w, n)
| step_close_cancels w n before after w' :
    event_loop w = before ++ cb_may_pool_task :: after →
    close (with_event_loop (before ++ after) w) = (Ok tt, w') →
    worker_step (w, n) (w', n)
| step_close w n w' :
    close w = (Ok tt, w') →
    worker_step (w, n) (w', n).

Definition reachable (st : world (S := S) * nat) : Prop :=
  ∃ w, started w ∧ rtc worker_step (w, 0%nat) st.

(** What the counter of the worker covers: the tasks submitted to the
    thread pool and not yet run and the [_done_task] callbacks not yet
    run; and there is one poller at most, suspended or queued. *)
Definition worker_accounts (st : world (S := S) * nat) : Prop :=
  (∃ q, thread_pool st.1 = Some q ∧
        Z.of_nat (length q + length (done_tasks (event_loop st.1)))
          ≤ concurrent_requests st.1) ∧
  (st.2 + pollers (event_loop st.1) ≤ 1)%nat.
End operations.
End raising.

(** A backend in memory that cannot store a result: its [save_task] raises
    when it is given one.  For the examples. *)
Definition no_results : TaskBackendRaising local.t :=
  {| raising_get_task task_id s :=
       let r := local.get_task task_id s in (inr r.1, r.2);
     raising_save_task task_id params s :=
       if bool_decide (is_Some (params !! "result"))
       then (inl (JobError "the store is out of reach"), s)
       else let r := local.save_task task_id params s in (inr r.1, r.2);
     raising_on_start_task _ s := (inr tt, s);
     raising_on_finish_task _ s := (inr tt, s) |}.
(** * Properties *)

(** ** Task *)

Lemma tojson_lookup (t : Task.t) (k : string) :
  Task.tojson t !! k =
    if decide (k = "id") then Some (VStr (Task.id t))
    else if decide (k = "name") then Some (of_opt VStr (Task.name t))
    else if decide (k = "time_executed")
      then Some (of_opt VDatetime (Task.time_executed t))
    else if decide (k = "from_task") then Some (of_opt VStr (Task.from_task t))
    else if decide (k = "time_started")
      then Some (of_opt VDatetime (Task.time_started t))
    else if decide (k = "time_ended")
      then Some (of_opt VDatetime (Task.time_ended t))
    else if decide (k = "expiry") then Some (of_opt VDatetime (Task.expiry t))
    else if decide (k = "args") then Some (Task.args t)
    else if decide (k = "kwargs") then Some (Task.kwargs t)
    else if decide (k = "status") then Some (of_opt VStr (Task.status t))
    else if decide (k = "result") then Some (Task.result t)
    else if decide (k = "params")
      then Some (VDict (map_to_list (Task.params t)))
    else None.
Proof.
  unfold Task.tojson, Task.__dict__.
  repeat (rewrite lookup_insert; case_decide;
          [subst k; reflexivity |
           destruct (decide (k = _)) as [?|_]; [congruence|]]).
  apply lookup_empty.
Qed.

(** [Task.status_code] on the tasks of the record, whose status is a
    string or [None].  With the eight statuses as the keys of the
    precedence table: for a status among them it is the precedence the
    table gives; for any other string, and for no status at all, it is the
    precedence of UNKNOWN. *)
Lemma status_code_total (PRECEDENCE_MAPPING : gmap string Z)
    (UNKNOWN_STATE : Z) (t : Task.t) :
  dom PRECEDENCE_MAPPING = list_to_set states.ALL_STATES →
  (∀ s, Task.status t = Some s → s ∈ states.ALL_STATES →
        PRECEDENCE_MAPPING !! s
          = Some (Task.status_code PRECEDENCE_MAPPING UNKNOWN_STATE t)) ∧
  (∀ s, Task.status t = Some s → s ∉ states.ALL_STATES →
        Task.status_code PRECEDENCE_MAPPING UNKNOWN_STATE t = UNKNOWN_STATE) ∧
  (Task.status t = None →
        Task.status_code PRECEDENCE_MAPPING UNKNOWN_STATE t = UNKNOWN_STATE) ∧
  (∀ i kw, kw !! "status" = None →
        Task.status_code PRECEDENCE_MAPPING UNKNOWN_STATE (Task.__init__ i kw)
          = UNKNOWN_STATE).
Proof.
  intros Hdom. unfold Task.status_code, Task.dict_get.
  split; [|split; [|split]].
  - intros s -> Hs.
    assert (is_Some (PRECEDENCE_MAPPING !! s)) as [p Hp].
    { apply elem_of_dom. rewrite Hdom. by apply elem_of_list_to_set. }
    by rewrite Hp.
  - intros s -> Hs.
    assert (PRECEDENCE_MAPPING !! s = None) as ->; [|done].
    apply not_elem_of_dom. rewrite Hdom. by rewrite elem_of_list_to_set.
  - by intros ->.
  - intros i kw Hkw. simpl. by rewrite Hkw.
Qed.

Lemma sample_precedence_dom :
  dom sample.PRECEDENCE_MAPPING = list_to_set (C := gset string) states.ALL_STATES.
Proof. unfold sample.PRECEDENCE_MAPPING. by rewrite dom_list_to_map_L. Qed.

Lemma init_status (id : value) (kw : gmap string value) :
  TaskObject.__init__ id kw !! "status"
    = Some (default VNone (kw !! "status")).
Proof.
  unfold TaskObject.__init__.
  by rewrite !lookup_insert_ne, lookup_insert_eq by done.
Qed.

(** On a task of the record the property of the object gives what
    [Task.status_code] gives. *)
Lemma status_code_typed (PRECEDENCE_MAPPING : gmap string Z)
    (UNKNOWN_STATE : Z) (t : Task.t) :
  TaskObject.status_code PRECEDENCE_MAPPING UNKNOWN_STATE (Task.__dict__ t)
    = inr (Task.status_code PRECEDENCE_MAPPING UNKNOWN_STATE t).
Proof.
  unfold TaskObject.status_code, TaskObject.getattr.
  change (Task.__dict__ t) with (Task.tojson t).
  rewrite tojson_lookup. simpl. unfold Task.status_code.
  by destruct (Task.status t).
Qed.

(** C10, as stated, fails: [status_code] is not total on every Task
    object.  [__init__] stores the status it is given, whatever it is; for
    a task built with a dictionary as its status, [PRECEDENCE_MAPPING.get]
    has to hash the dictionary and raises a [TypeError]. *)
Lemma status_code_unhashable_status :
  let self := TaskObject.__init__ (VStr "t")
                {[ "status"%string := VDict [] ]} in
  self !! "status" = Some (VDict []) ∧
  TaskObject.status_code sample.PRECEDENCE_MAPPING sample.UNKNOWN_STATE self
    = inl (Raised (TypeError "unhashable type")).
Proof. split; vm_compute; reflexivity. Qed.

(** C10, amended.  With the eight statuses as the keys of the precedence
    table, for a Task object whose [status] attribute holds [status]:
    when [status] is one of the eight strings, [status_code] is the
    precedence the table gives it; when [status] has a hash and is none of
    them (another string, [None], a number, a date, ...), it is the
    precedence of UNKNOWN; when [status] has no hash (a dictionary, a
    tuple that holds one), it raises a [TypeError].  A task built without
    a status has the precedence of UNKNOWN. *)
Theorem status_code_of_status (PRECEDENCE_MAPPING : gmap string Z)
    (UNKNOWN_STATE : Z) (self : TaskObject.t) (status : value) :
  dom PRECEDENCE_MAPPING = list_to_set states.ALL_STATES →
  self !! "status" = Some status →
  (∀ s, status = VStr s → s ∈ states.ALL_STATES →
        ∃ p, PRECEDENCE_MAPPING !! s = Some p ∧
             TaskObject.status_code PRECEDENCE_MAPPING UNKNOWN_STATE self
               = inr p) ∧
  (TaskObject.hashable status = true →
   (∀ s, status = VStr s → s ∉ states.ALL_STATES) →
        TaskObject.status_code PRECEDENCE_MAPPING UNKNOWN_STATE self
          = inr UNKNOWN_STATE) ∧
  (TaskObject.hashable status = false →
        TaskObject.status_code PRECEDENCE_MAPPING UNKNOWN_STATE self
          = inl (Raised (TypeError "unhashable type"))) ∧
  (∀ id kw, kw !! "status" = None →
        TaskObject.status_code PRECEDENCE_MAPPING UNKNOWN_STATE
          (TaskObject.__init__ id kw) = inr UNKNOWN_STATE).
Proof.
  intros Hdom Hself. unfold TaskObject.status_code, TaskObject.getattr.
  rewrite Hself. simpl. unfold TaskObject.dict_get.
  split; [|split; [|split]].
  - intros s -> Hs. simpl.
    assert (is_Some (PRECEDENCE_MAPPING !! s)) as [p Hp].
    { apply elem_of_dom. rewrite Hdom. by apply elem_of_list_to_set. }
    exists p. by rewrite Hp.
  - intros -> Hs. f_equal. destruct status; try reflexivity.
    assert (PRECEDENCE_MAPPING !! s = None) as ->; [|done].
    apply not_elem_of_dom. rewrite Hdom, elem_of_list_to_set. by apply Hs.
  - by intros ->.
  - intros id kw Hkw. rewrite init_status, Hkw. reflexivity.
Qed.

Lemma status_code_of_status_witness :
  let self := TaskObject.__init__ (VStr "t")
                {[ "status"%string := VStr states.SUCCESS ]} in
  dom sample.PRECEDENCE_MAPPING
    = list_to_set (C := gset string) states.ALL_STATES ∧
  self !! "status" = Some (VStr states.SUCCESS) ∧
  (∃ p, sample.PRECEDENCE_MAPPING !! states.SUCCESS = Some p ∧
        TaskObject.status_code sample.PRECEDENCE_MAPPING
          sample.UNKNOWN_STATE self = inr p) ∧
  TaskObject.status_code sample.PRECEDENCE_MAPPING sample.UNKNOWN_STATE
    (TaskObject.__init__ (VStr "t") ∅) = inr sample.UNKNOWN_STATE.
Proof.
  intros self.
  assert (self !! "status" = Some (VStr states.SUCCESS)) as Hself
    by (vm_compute; reflexivity).
  split; [exact sample_precedence_dom|]. split; [exact Hself|].
  destruct (status_code_of_status sample.PRECEDENCE_MAPPING
              sample.UNKNOWN_STATE self (VStr states.SUCCESS)
              sample_precedence_dom Hself) as (Hin & _ & _ & Hinit).
  split.
  - apply (Hin states.SUCCESS); [reflexivity|].
    unfold states.ALL_STATES. apply list_elem_of_In. simpl. tauto.
  - apply Hinit. reflexivity.
Defined.

(** C9, as stated, fails: [tojson] hands out the attribute values as they
    are.  A task materialised at time 990 has the date itself under
    [time_executed], not a string, so not every timestamp of the dictionary
    is a string; and a task without a status has [None] under [status]. *)
Lemma tojson_timestamps_not_strings :
  Task.tojson (sample.task "t" None None) !! "time_executed"
    = Some (VDatetime 990) ∧
  Task.tojson (sample.task "t" None None) !! "status" = Some VNone ∧
  ¬ Forall (λ k, ∃ s, Task.tojson (sample.task "t" None None) !! k
                        = Some (VStr s)) TIMESTAMP_ATTRIBUTES.
Proof.
  split; [reflexivity|]. split; [reflexivity|].
  unfold TIMESTAMP_ATTRIBUTES. intros H.
  apply Forall_cons_1 in H as [[s Hs] _].
  rewrite tojson_lookup in Hs. simpl in Hs. discriminate Hs.
Qed.

(** C9, amended.  [tojson] returns a copy of the instance dictionary: every
    attribute of the data model is a key of it (the only other key is
    [params]), and each key holds the attribute's value unchanged: a
    timestamp is the date itself, or [None] when unset; [status] and
    [result] are as stored. *)
Theorem tojson_attributes (t : Task.t) :
  Forall (λ k, is_Some (Task.tojson t !! k)) DATA_MODEL_ATTRIBUTES ∧
  dom (Task.tojson t) = list_to_set ("params"%string :: DATA_MODEL_ATTRIBUTES) ∧
  Task.tojson t !! "time_executed"
    = Some (of_opt VDatetime (Task.time_executed t)) ∧
  Task.tojson t !! "time_started"
    = Some (of_opt VDatetime (Task.time_started t)) ∧
  Task.tojson t !! "time_ended"
    = Some (of_opt VDatetime (Task.time_ended t)) ∧
  Task.tojson t !! "expiry" = Some (of_opt VDatetime (Task.expiry t)) ∧
  Task.tojson t !! "status" = Some (of_opt VStr (Task.status t)) ∧
  Task.tojson t !! "result" = Some (Task.result t).
Proof.
  split.
  { unfold DATA_MODEL_ATTRIBUTES.
    repeat (constructor; [rewrite tojson_lookup; by eexists|]).
    constructor. }
  split.
  { unfold Task.tojson, Task.__dict__. rewrite !dom_insert_L, dom_empty_L.
    unfold DATA_MODEL_ATTRIBUTES. set_solver. }
  repeat split; by rewrite tojson_lookup.
Qed.

(** ** Creating tasks *)

Ltac run_M :=
  unfold mbind, M_bind, mret, M_ret, bind, ret, raise, try, get, modify,
    log; simpl.

Section create_task_proofs.
Context {S : Type} `{!TaskBackendImpl S}.
Variable registry : gmap string Job.t.
Implicit Types (w : world (S := S)) (job : Job.t) (task : Task.t).

Lemma new_calls_app w w' l : calls w' = calls w ++ l → new_calls w w' = l.
Proof. unfold new_calls. intros ->. by rewrite drop_app_length. Qed.

(** C1. For a registered job, when the lookup under the computed id
    finds a task that is not done, [create_task] results in [None] after
    that one lookup: it calls no [save_task], [_run_job] in turn calls no
    [put_task], and the backend's store is as the lookup left it, with
    the task found still under its id. *)
Theorem create_task_live_duplicate jobname job targs tkwargs expiry params
    w task s' :
  registry !! jobname = Some job →
  let task_id := create_task_id job (py_or targs EMPTY_TUPLE)
                   (py_or tkwargs EMPTY_DICT) in
  impl_get_task (Some task_id) (store w) = (Some task, s') →
  Task.done task = false →
  let w' := with_store s'
              (with_calls (calls w ++ [c_get_task (Some task_id);
                                       c_logger "debug"]) w) in
  create_task registry jobname targs tkwargs expiry params w
    = (Ok VNone, w') ∧
  _run_job registry jobname targs tkwargs expiry params w
    = (Ok VNone, w') ∧
  existsb is_save_task (new_calls w w') = false ∧
  existsb is_put_task (new_calls w w') = false ∧
  store w' = s'.
Proof.
  intros Hreg task_id Hget Hdone w'.
  assert (create_task registry jobname targs tkwargs expiry params w
            = (Ok VNone, w')) as Hcreate.
  { unfold create_task. rewrite Hreg. fold task_id.
    run_M. unfold get_task. rewrite Hget. simpl. rewrite Hdone. simpl.
    unfold w', with_store, with_calls. simpl.
    by rewrite <- app_assoc. }
  split; [exact Hcreate|].
  split; [unfold _run_job; run_M; by rewrite Hcreate|].
  rewrite (new_calls_app w w' [c_get_task (Some task_id); c_logger "debug"])
    by reflexivity.
  repeat split; reflexivity.
Qed.

Lemma keywords_distinct job time_executed expiry targs tkwargs params w :
  Forall (λ k, params !! k = None) CREATE_KEYWORDS →
  keywords (pending_fields job time_executed expiry targs tkwargs) params w
    = (Ok (list_to_map
             (pending_fields job time_executed expiry targs tkwargs)
           ∪ params), w).
Proof.
  unfold CREATE_KEYWORDS. intros H.
  repeat (apply Forall_cons_1 in H as [? H]).
  unfold keywords, pending_fields. simpl.
  rewrite !bool_decide_eq_true_2 by assumption. reflexivity.
Qed.

Lemma keywords_repeated job time_executed expiry targs tkwargs params k w :
  k ∈ CREATE_KEYWORDS →
  is_Some (params !! k) →
  keywords (pending_fields job time_executed expiry targs tkwargs) params w
    = (Exc (TypeError "got multiple values for keyword argument"), w).
Proof.
  intros Hk [v Hv]. unfold keywords, pending_fields. simpl.
  unfold CREATE_KEYWORDS in Hk.
  repeat (apply elem_of_cons in Hk as [->|Hk];
          [match type of Hv with
           | params !! ?key = _ =>
               rewrite (bool_decide_eq_false_2 (params !! key = None))
                 by congruence
           end;
           by rewrite ?andb_false_r|]).
  by apply elem_of_nil in Hk.
Qed.


End create_task_proofs.

Lemma create_task_live_duplicate_witness :
  let t := sample.task "H(x,1,2)" (Some states.PENDING) None in
  let w := sample.world_with t in
  let w' := with_calls [c_get_task (Some "H(x,1,2)"%string); c_logger "debug"]
              w in
  sample.registry !! "x" = Some sample.x ∧
  Task.done t = false ∧
  create_task sample.registry "x" (VTuple [VInt 1; VInt 2]) VNone None ∅ w
    = (Ok VNone, w') ∧
  _run_job sample.registry "x" (VTuple [VInt 1; VInt 2]) VNone None ∅ w
    = (Ok VNone, w') ∧
  store w' = store w.
Proof.
  intros t w w'.
  split; [reflexivity|]. split; [reflexivity|].
  destruct (create_task_live_duplicate sample.registry "x" sample.x
              (VTuple [VInt 1; VInt 2]) VNone None ∅ w t (store w))
    as (Hcreate & Hrun & _ & _ & Hstore); [reflexivity..|].
  split; [exact Hcreate|]. split; [exact Hrun|exact Hstore].
Defined.

(** Scenario S1 on the backend in memory: the second request results in
    [None] and the store still holds the one task, PENDING, under its id. *)
Example dedup_live_scenario :
  let request := _run_job sample.registry "x" (VTuple [VInt 1; VInt 2])
                   VNone None ∅ in
  let first := request sample.world0 in
  let second := request first.2 in
  first.1 = Ok (VStr "H(x,1,2)") ∧
  second.1 = Ok VNone ∧
  store second.2 = store first.2 ∧
  dom (local.tasks (store second.2)) = {[ "H(x,1,2)"%string ]} ∧
  Task.status <$> local.tasks (store second.2) !! "H(x,1,2)"
    = Some (Some states.PENDING).
Proof. repeat split; vm_compute; reflexivity. Qed.



(** Scenario S2 on the backend in memory: the finished record is kept
    under the new id with its result and status, and a PENDING task under
    the original id is queued. *)
Example dedup_done_scenario :
  let done := with_store
                (local.mk {[ "H(x,1,2)"%string :=
                             local.setattrs
                               (sample.task "H(x,1,2)" (Some states.SUCCESS) None)
                               {[ "result"%string := VInt 42 ]} ]} [])
                sample.world0 in
  let third := _run_job sample.registry "x" (VTuple [VInt 1; VInt 2])
                 VNone None ∅ done in
  let tasks := local.tasks (store third.2) in
  third.1 = Ok (VStr "H(x,1,2)") ∧
  dom tasks = {[ "H(x,1,2)"%string; "fresh-0"%string ]} ∧
  (λ t, (Task.status t, Task.result t)) <$> tasks !! "fresh-0"
    = Some (Some states.SUCCESS, VInt 42) ∧
  Task.status <$> tasks !! "H(x,1,2)" = Some (Some states.PENDING) ∧
  local.queue (store third.2) = ["H(x,1,2)"%string].
Proof. repeat split; vm_compute; reflexivity. Qed.

(** ** The executor *)

Ltac unfold_M :=
  unfold mbind, M_bind, mret, M_ret, bind, ret, raise, try, get, modify, log.

Ltac unfold_execute :=
  unfold _execute_task, _execute_task_try, precedence, call_job, save_task,
    on_start_task, on_finish_task, call_soon_threadsafe, datetime_now;
  unfold_M.

Section executor_proofs.
Context {S : Type} `{!TaskBackendImpl S}.
Variable PRECEDENCE_MAPPING : gmap string Z.
Variable UNKNOWN_STATE : Z.
Variable registry : gmap string Job.t.
Variable failure_str : value → string.
Implicit Types (w : world (S := S)) (job : Job.t) (task : Task.t).

Local Abbreviation status_code :=
  (Task.status_code PRECEDENCE_MAPPING UNKNOWN_STATE).
Local Abbreviation execute :=
  (_execute_task PRECEDENCE_MAPPING UNKNOWN_STATE registry failure_str).

(** A task whose job is not in the registry: the [RuntimeError] is
    caught, logged as a failure and saved as FAILURE. *)
Lemma _execute_task_unregistered task w :
  Task.name task ≫= (registry !!.) = None →
  let task_id := Task.id task in
  let failure := maybe_failure (RuntimeError "Task not in registry") in
  new_calls w (execute task w).2
    = [c_failure_log failure;
       c_save_task task_id
         (finished_fields (clock w 0%nat) states.FAILURE
            (VStr (failure_str failure)));
       c_logger "debug";
       c_on_finish_task task_id;
       c_call_soon_threadsafe (cb_done_task task_id)].
Proof.
  intros Hjob task_id failure. apply new_calls_app.
  unfold _execute_task. rewrite Hjob. unfold_execute. simpl.
  by rewrite <- !app_assoc.
Qed.

(** C5, amended.  A task that has not reached the precedence of STARTED
    and whose expiry lies before the executor's clock is not run: the job
    body is not called and nothing is saved with status STARTED or with
    [time_started].  When its job is registered, the one [save_task] made
    writes REVOKED with no result. *)
Theorem _execute_task_expired task started expiry w :
  PRECEDENCE_MAPPING !! states.STARTED = Some started →
  status_code task > started →
  Task.expiry task = Some expiry →
  clock w 0%nat > expiry →
  let task_id := Task.id task in
  let fields := finished_fields (clock w 0%nat) states.REVOKED VNone in
  let w' := (execute task w).2 in
  existsb is_job_call (new_calls w w') = false ∧
  existsb (is_save_with_status states.STARTED) (new_calls w w') = false ∧
  existsb (is_save_with_key "time_started") (new_calls w w') = false ∧
  (∀ job,
     Task.name task ≫= (registry !!.) = Some job →
     execute task w = (Ok (VStr task_id), w') ∧
     new_calls w w' = [c_logger "debug";
                       c_save_task task_id fields;
                       c_logger "debug";
                       c_on_finish_task task_id;
                       c_call_soon_threadsafe (cb_done_task task_id)] ∧
     fields !! "status" = Some (VStr states.REVOKED) ∧
     fields !! "result" = Some VNone ∧
     store w' = (impl_save_task task_id fields (store w)).2).
Proof.
  intros Hstarted Hcode Hexpiry Hlate task_id fields w'.
  assert ((status_code task >? started) = true) as Hgt by lia.
  assert (expired task (clock w 0%nat) = true) as Hexpired.
  { unfold expired. rewrite Hexpiry. lia. }
  assert (∀ job, Task.name task ≫= (registry !!.) = Some job →
            execute task w
              = (Ok (VStr task_id),
                 with_event_loop (event_loop w ++ [cb_done_task task_id])
                   (with_calls
                      (((((calls w ++ [c_logger "debug"]) ++
                          [c_save_task task_id fields]) ++
                         [c_logger "debug"]) ++
                        [c_on_finish_task task_id]) ++
                       [c_call_soon_threadsafe (cb_done_task task_id)])
                      (with_store
                         (impl_save_task task_id fields (store w)).2
                         (with_clock (λ n, clock w (Datatypes.S n)) w)))))
    as Hrun.
  { intros job Hjob. unfold _execute_task. rewrite Hjob.
    unfold_execute. cbn [consumer_job].
    rewrite Hstarted, Hgt, Hexpired. reflexivity. }
  assert (∀ job, Task.name task ≫= (registry !!.) = Some job →
            new_calls w w' = [c_logger "debug";
                              c_save_task task_id fields;
                              c_logger "debug";
                              c_on_finish_task task_id;
                              c_call_soon_threadsafe
                                (cb_done_task task_id)]) as Hnew.
  { intros job Hjob. apply new_calls_app. unfold w'.
    rewrite (Hrun job Hjob). simpl. by rewrite <- !app_assoc. }
  destruct (Task.name task ≫= (registry !!.)) as [job|] eqn:Hjob.
  - rewrite (Hnew job eq_refl).
    do 3 (split; [reflexivity|]).
    intros job' [= <-]. unfold w'. rewrite (Hrun job eq_refl).
    repeat split; reflexivity.
  - unfold w'. rewrite (_execute_task_unregistered task w Hjob).
    do 3 (split; [reflexivity|]). intros job' [=].
Qed.


(** C3, amended.  The executor calls the job body, and saves STARTED, only
    for a task whose [status_code] is strictly greater than the precedence
    of STARTED.  For a task of a registered job that fails this check it
    makes no [save_task] at all and still posts [_done_task] to the event
    loop. *)
Theorem _execute_task_guard task w :
  let task_id := Task.id task in
  let w' := (execute task w).2 in
  (existsb is_job_call (new_calls w w') = true ∨
   existsb (is_save_with_status states.STARTED) (new_calls w w') = true →
     ∃ started, PRECEDENCE_MAPPING !! states.STARTED = Some started ∧
                status_code task > started) ∧
  (∀ job started,
     Task.name task ≫= (registry !!.) = Some job →
     PRECEDENCE_MAPPING !! states.STARTED = Some started →
     status_code task ≤ started →
     execute task w = (Ok (VStr task_id), w') ∧
     new_calls w w' = [c_call_soon_threadsafe (cb_done_task task_id)] ∧
     existsb is_save_task (new_calls w w') = false ∧
     store w' = store w ∧
     event_loop w' = event_loop w ++ [cb_done_task task_id]).
Proof.
  intros task_id w'. split.
  - intros Hcalls.
    destruct (PRECEDENCE_MAPPING !! states.STARTED) as [started|] eqn:Hstarted;
      [destruct (status_code task >? started) eqn:Hgt;
         [exists started; split; [reflexivity|lia]|]|];
      exfalso;
      (destruct (Task.name task ≫= (registry !!.)) as [job|] eqn:Hjob;
       [ | ]);
      match type of Hcalls with
      | context [new_calls ?a ?b] =>
          assert (∃ l, new_calls a b = l ∧
                       existsb is_job_call l = false ∧
                       existsb (is_save_with_status states.STARTED) l = false)
            as (l & Hnew & Hno_job & Hno_started)
      end;
      try (rewrite Hnew in Hcalls; destruct Hcalls; congruence);
      eexists; (split; [apply new_calls_app; unfold w', _execute_task;
                        rewrite Hjob; unfold_execute; cbn [consumer_job];
                        rewrite ?Hstarted, ?Hgt; simpl;
                        by rewrite <- ?app_assoc|]);
      split; reflexivity.
  - intros job started Hjob Hstarted Hle.
    assert ((status_code task >? started) = false) as Hgt by lia.
    assert (execute task w
              = (Ok (VStr task_id),
                 with_event_loop (event_loop w ++ [cb_done_task task_id])
                   (with_calls
                      (calls w ++ [c_call_soon_threadsafe
                                     (cb_done_task task_id)])
                      (with_clock (λ n, clock w (Datatypes.S n)) w))))
      as Hrun.
    { unfold _execute_task. rewrite Hjob. unfold_execute.
      cbn [consumer_job]. rewrite Hstarted, Hgt. reflexivity. }
    unfold w'. rewrite Hrun. cbn [snd].
    split; [reflexivity|].
    rewrite (new_calls_app _ _ [c_call_soon_threadsafe
                                  (cb_done_task task_id)]) by reflexivity.
    repeat split; reflexivity.
Qed.
End executor_proofs.

(** C3, as stated, fails for a task whose job is not registered: already
    finished with SUCCESS, so failing the check, it is not skipped but saved
    again, as FAILURE. *)
Lemma _execute_task_guard_unregistered :
  let run := _execute_task sample.PRECEDENCE_MAPPING sample.UNKNOWN_STATE
               sample.registry sample.failure_str in
  let t := sample.task_of "ghost" "H(ghost)" (Some states.SUCCESS) None in
  let w := sample.world_with t in
  sample.registry !! "ghost" = None ∧
  sample.PRECEDENCE_MAPPING !! states.STARTED = Some 3 ∧
  Task.status_code sample.PRECEDENCE_MAPPING sample.UNKNOWN_STATE t ≤ 3 ∧
  existsb is_job_call (new_calls w (run t w).2) = false ∧
  existsb is_save_task (new_calls w (run t w).2) = true ∧
  Task.status <$> local.tasks (store w) !! "H(ghost)"
    = Some (Some states.SUCCESS) ∧
  Task.status <$> local.tasks (store (run t w).2) !! "H(ghost)"
    = Some (Some states.FAILURE).
Proof.
  repeat split; try (vm_compute; reflexivity).
  vm_compute. discriminate.
Qed.

Lemma _execute_task_guard_witness :
  let t := sample.task "H(x,1,2)" (Some states.STARTED) None in
  let pending := sample.task "H(x,1,2)" (Some states.PENDING) None in
  let run := _execute_task sample.PRECEDENCE_MAPPING sample.UNKNOWN_STATE
               sample.registry sample.failure_str in
  let w := sample.world_with t in
  (existsb is_job_call (new_calls w (run pending w).2) = true ∧
   ∃ started, sample.PRECEDENCE_MAPPING !! states.STARTED = Some started ∧
              Task.status_code sample.PRECEDENCE_MAPPING sample.UNKNOWN_STATE
                pending > started) ∧
  Task.status_code sample.PRECEDENCE_MAPPING sample.UNKNOWN_STATE t ≤ 3 ∧
  run t w = (Ok (VStr "H(x,1,2)"), (run t w).2) ∧
  new_calls w (run t w).2
    = [c_call_soon_threadsafe (cb_done_task "H(x,1,2)")] ∧
  existsb is_save_task (new_calls w (run t w).2) = false ∧
  store (run t w).2 = store w ∧
  event_loop (run t w).2 = event_loop w ++ [cb_done_task "H(x,1,2)"].
Proof.
  intros t pending run w.
  assert (existsb is_job_call (new_calls w (run pending w).2) = true) as Hjob
    by (vm_compute; reflexivity).
  split.
  { split; [exact Hjob|].
    apply (proj1 (_execute_task_guard sample.PRECEDENCE_MAPPING
                    sample.UNKNOWN_STATE sample.registry sample.failure_str
                    pending w)).
    left. exact Hjob. }
  split; [vm_compute; discriminate|].
  apply (proj2 (_execute_task_guard sample.PRECEDENCE_MAPPING
                  sample.UNKNOWN_STATE sample.registry sample.failure_str t w)
           sample.x 3);
    [reflexivity | reflexivity | vm_compute; discriminate].
Defined.


(** C5, as stated, fails for a task whose job is not registered: past its
    expiry and still PENDING, it is saved as FAILURE, not REVOKED. *)
Lemma _execute_task_expired_unregistered :
  let run := _execute_task sample.PRECEDENCE_MAPPING sample.UNKNOWN_STATE
               sample.registry sample.failure_str in
  let t := sample.task_of "ghost" "H(ghost)" (Some states.PENDING) (Some 999) in
  let w := sample.world_with t in
  sample.registry !! "ghost" = None ∧
  Task.status_code sample.PRECEDENCE_MAPPING sample.UNKNOWN_STATE t > 3 ∧
  clock w 0%nat > 999 ∧
  existsb (is_save_with_status states.REVOKED) (new_calls w (run t w).2)
    = false ∧
  existsb (is_save_with_status states.FAILURE) (new_calls w (run t w).2)
    = true ∧
  Task.status <$> local.tasks (store (run t w).2) !! "H(ghost)"
    = Some (Some states.FAILURE).
Proof. repeat split; vm_compute; reflexivity. Qed.

Lemma _execute_task_expired_witness :
  let run := _execute_task sample.PRECEDENCE_MAPPING sample.UNKNOWN_STATE
               sample.registry sample.failure_str in
  let t := sample.task "H(x,1,2)" (Some states.PENDING) (Some 999) in
  let w := sample.world_with t in
  let fields := finished_fields 1000 states.REVOKED VNone in
  clock w 0%nat > 999 ∧
  existsb is_job_call (new_calls w (run t w).2) = false ∧
  existsb (is_save_with_status states.STARTED) (new_calls w (run t w).2)
    = false ∧
  new_calls w (run t w).2 = [c_logger "debug";
                             c_save_task "H(x,1,2)" fields;
                             c_logger "debug";
                             c_on_finish_task "H(x,1,2)";
                             c_call_soon_threadsafe (cb_done_task "H(x,1,2)")] ∧
  Task.status <$> local.tasks (store (run t w).2) !! "H(x,1,2)"
    = Some (Some states.REVOKED) ∧
  Task.time_started <$> local.tasks (store (run t w).2) !! "H(x,1,2)"
    = Some None.
Proof.
  intros run t w fields. split; [vm_compute; reflexivity|].
  destruct (_execute_task_expired sample.PRECEDENCE_MAPPING
              sample.UNKNOWN_STATE sample.registry sample.failure_str
              t 3 999 w)
    as (Hjob & Hstarted & _ & Hreg);
    [reflexivity | vm_compute; reflexivity | reflexivity
    | vm_compute; reflexivity | ].
  destruct (Hreg sample.x eq_refl) as (_ & Hcalls & _ & _ & Hstore).
  split; [exact Hjob|]. split; [exact Hstarted|]. split; [exact Hcalls|].
  fold run in Hstore. rewrite Hstore. split; vm_compute; reflexivity.
Defined.

(** ** The pull loop *)

Section worker_proofs.
Context {S : Type} `{!TaskBackendImpl S}.
Variable PRECEDENCE_MAPPING : gmap string Z.
Variable UNKNOWN_STATE : Z.
Variable registry : gmap string Job.t.
Variable failure_str : value → string.
Implicit Types (w : world (S := S)) (task : Task.t).

Lemma with_calls_id w : with_calls (calls w ++ []) w = w.
Proof. destruct w. unfold with_calls. simpl. by rewrite app_nil_r. Qed.

(** C8 fails on the code.  With the worker running and no thread pool,
    the [while] loop of [may_pool_task] logs its warning and comes
    straight back to its head: whatever fuel it is given is spent on
    warnings, and the call neither returns, nor suspends, nor reaches
    [call_soon]. *)
Theorem may_pool_task_without_pool_spins (fuel : nat) w :
  running w = true →
  thread_pool w = None →
  may_pool_task fuel w
    = (Diverges,
       with_calls (calls w ++ replicate fuel (c_logger "warning")) w).
Proof.
  unfold may_pool_task. revert w.
  induction fuel as [|fuel IH]; intros w Hrun Hpool.
  - simpl. unfold diverge. by rewrite with_calls_id.
  - simpl. unfold_M. rewrite Hrun, Hpool.
    rewrite IH by assumption. f_equal.
    destruct w. unfold with_calls. simpl. by rewrite <- app_assoc.
Qed.

Local Abbreviation execute :=
  (_execute_task PRECEDENCE_MAPPING UNKNOWN_STATE registry failure_str).
Local Abbreviation step :=
  (worker_step PRECEDENCE_MAPPING UNKNOWN_STATE registry failure_str).

Lemma pollers_app l1 l2 : pollers (l1 ++ l2) = (pollers l1 + pollers l2)%nat.
Proof. induction l1 as [|cb l1 IH]; simpl; [done|]. rewrite IH. lia. Qed.

(** What a run of the executor leaves alone. *)
Lemma _execute_task_frame task w :
  let w' := (execute task w).2 in
  backlog w' = backlog w ∧
  concurrent_requests w' = concurrent_requests w ∧
  pollers (event_loop w') = pollers (event_loop w).
Proof.
  unfold _execute_task.
  destruct (Task.name task ≫= (registry !!.)) as [job|];
    unfold_execute; cbn [consumer_job];
    [destruct (PRECEDENCE_MAPPING !! states.STARTED) as [started|];
     [destruct (Task.status_code PRECEDENCE_MAPPING UNKNOWN_STATE task
                  >? started);
      [destruct (expired task (clock w 0%nat));
       [|destruct (Job.call job (Task.args task) (Task.kwargs task))
           as [[]|[]]]|]|]|];
    simpl; rewrite ?pollers_app; simpl; repeat split; lia.
Qed.

(** What a run of the poller's loop does. *)
Lemma may_pool_task_loop_run fuel w p w' :
  may_pool_task_loop fuel w = (Ok p, w') →
  backlog w' = backlog w ∧
  concurrent_requests w' = concurrent_requests w ∧
  match p with
  | poll_suspended =>
      concurrent_requests w < backlog w ∧ event_loop w' = event_loop w
  | poll_returned =>
      event_loop w' = event_loop w ++ [cb_may_pool_task]
  end.
Proof.
  revert w. induction fuel as [|fuel IH]; intros w; simpl.
  { unfold diverge. discriminate. }
  unfold call_soon. unfold_M.
  destruct (running w); [destruct (thread_pool w)|].
  - destruct (concurrent_requests w <? backlog w) eqn:Hlt;
      intros [= <- <-]; simpl; repeat split; lia.
  - intros Hrun. apply IH in Hrun. exact Hrun.
  - intros [= <- <-]. simpl. repeat split.
Qed.

Lemma worker_step_invariant st st' :
  step st st' → worker_invariant st → worker_invariant st'.
Proof.
  unfold worker_invariant.
  destruct 1 as [w n task_id rest w' Hloop Hrun
                |w n rest fuel p w' Hloop Hrun
                |w n fuel p w' Hrun
                |w n before task after r w' Hpool Hrun
                |w n]; simpl; intros (Hle & Hlt & Hone).
  - unfold _done_task in Hrun. unfold_M. injection Hrun as <-.
    rewrite Hloop in Hone. simpl in *. repeat split; lia.
  - rewrite Hloop in Hone. simpl in Hone.
    apply may_pool_task_loop_run in Hrun as (Hb & Hc & Hp). simpl in *.
    rewrite Hb, Hc. destruct p; simpl.
    + destruct Hp as [Hp ->]. simpl. repeat split; lia.
    + rewrite Hp, pollers_app. simpl. repeat split; lia.
  - unfold may_pool_task_resume, get_task, apply_async in Hrun.
    revert Hrun. unfold_M.
    destruct (impl_get_task None (store w)) as [[task|] s]; simpl;
      intros Hrun;
      apply may_pool_task_loop_run in Hrun as (Hb & Hc & Hp);
      simpl in *; rewrite Hb, Hc;
      (destruct p; simpl;
       [destruct Hp as [Hp ->]; simpl
       |rewrite Hp, pollers_app; simpl]);
      repeat split; lia.
  - pose proof (_execute_task_frame task
                  (with_thread_pool (Some (before ++ after)) w))
      as (Hb & Hc & Hp).
    rewrite Hrun in Hb, Hc, Hp. simpl in *. rewrite Hb, Hc, Hp.
    repeat split; assumption.
  - repeat split; assumption.
Qed.

Lemma worker_step_backlog st st' :
  step st st' → backlog st'.1 = backlog st.1.
Proof.
  destruct 1 as [w n task_id rest w' Hloop Hrun
                |w n rest fuel p w' Hloop Hrun
                |w n fuel p w' Hrun
                |w n before task after r w' Hpool Hrun
                |w n]; simpl.
  - unfold _done_task in Hrun. unfold_M. by injection Hrun as <-.
  - by apply may_pool_task_loop_run in Hrun as (Hb & _).
  - unfold may_pool_task_resume, get_task, apply_async in Hrun.
    revert Hrun. unfold_M.
    destruct (impl_get_task None (store w)) as [[task|] s]; simpl;
      intros Hrun; by apply may_pool_task_loop_run in Hrun as (Hb & _).
  - pose proof (_execute_task_frame task
                  (with_thread_pool (Some (before ++ after)) w))
      as (Hb & _).
    by rewrite Hrun in Hb.
  - reflexivity.
Qed.

(** C6. In every state the worker can reach after [start] (with a
    backlog that is not negative), [concurrent_requests] is at most
    [backlog]: the poller adds one only after it has seen the counter
    below the backlog, [_done_task] is what takes one off, and nothing
    else changes it. *)
Theorem concurrent_requests_le_backlog w n :
  reachable PRECEDENCE_MAPPING UNKNOWN_STATE registry failure_str (w, n) →
  0 ≤ backlog w →
  concurrent_requests w ≤ backlog w.
Proof.
  intros (w1 & (w0 & Hzero & Hempty & Hstart) & Hsteps) Hbacklog.
  assert (backlog w = backlog w1 ∧ worker_invariant (w, n)) as [_ Hinv];
    [|apply Hinv].
  assert (worker_invariant (w1, 0%nat) ∨ backlog w1 < 0) as Hinit.
  { unfold start, call_soon in Hstart. revert Hstart. unfold_M.
    intros [= <-]. unfold worker_invariant. simpl.
    rewrite Hzero, Hempty. simpl.
    destruct (decide (0 ≤ backlog w0)); [left|right]; [|lia].
    repeat split; [assumption|done|lia]. }
  clear Hzero Hempty Hstart.
  remember (w1, 0%nat) as st1 eqn:Hst1.
  remember (w, n) as st eqn:Hst.
  assert (backlog st.1 = backlog st1.1 ∧
          (worker_invariant st1 → worker_invariant st)) as [Hb Hi].
  { clear Hst1 Hst Hinit Hbacklog.
    induction Hsteps as [st|st st' st'' Hstep _ [IHb IHi]]; [done|].
    split.
    - rewrite IHb. by apply worker_step_backlog.
    - intros Hinv. apply IHi. by eapply worker_step_invariant. }
  subst st st1. simpl in *. split; [exact Hb|].
  apply Hi. destruct Hinit as [Hinit|Hneg]; [exact Hinit|lia].
Qed.
End worker_proofs.

Lemma may_pool_task_without_pool_spins_witness :
  running sample.world0 = true ∧
  thread_pool sample.world0 = None ∧
  may_pool_task 3 sample.world0
    = (Diverges,
       with_calls [c_logger "warning"; c_logger "warning"; c_logger "warning"]
         sample.world0).
Proof.
  split; [reflexivity|]. split; [reflexivity|].
  apply (may_pool_task_without_pool_spins 3 sample.world0); reflexivity.
Defined.

Lemma concurrent_requests_le_backlog_witness :
  let step_of := worker_step sample.PRECEDENCE_MAPPING sample.UNKNOWN_STATE
                   sample.registry sample.failure_str in
  let t := sample.task "H(x,1,2)" (Some states.PENDING) None in
  let w1 := (start (sample.world_queued t)).2 in
  let w2 := (may_pool_task 1 (with_event_loop [] w1)).2 in
  let w3 := (may_pool_task_resume 1 w2).2 in
  step_of (w1, 0%nat) (w2, 1%nat) ∧
  step_of (w2, 1%nat) (w3, 1%nat) ∧
  concurrent_requests w3 = 1 ∧
  backlog w3 = 2 ∧
  concurrent_requests w3 ≤ backlog w3.
Proof.
  intros step_of t w1 w2 w3.
  assert (step_of (w1, 0%nat) (w2, 1%nat)) as H12.
  { apply (step_may_pool_task _ _ _ _ w1 0%nat [] 1%nat poll_suspended w2);
      reflexivity. }
  assert (step_of (w2, 1%nat) (w3, 1%nat)) as H23.
  { apply (step_resume _ _ _ _ w2 0%nat 1%nat poll_suspended w3).
    reflexivity. }
  split; [exact H12|]. split; [exact H23|].
  split; [reflexivity|]. split; [reflexivity|].
  apply (concurrent_requests_le_backlog sample.PRECEDENCE_MAPPING
           sample.UNKNOWN_STATE sample.registry sample.failure_str w3 1%nat).
  - exists w1. split.
    + exists (sample.world_queued t). repeat split; reflexivity.
    + eapply rtc_l; [exact H12|]. eapply rtc_l; [exact H23|]. apply rtc_refl.
  - vm_compute. discriminate.
Defined.

(** ** The scheduler *)

Section tick_proofs.
Context {S : Type} `{!TaskBackendImpl S}.
Variable registry : gmap string Job.t.
Variable remaining : Z → Z → Z → Z.
Variable timedelta_seconds : Z → Z.
Implicit Types (w : world (S := S)) (key : string).

Lemma fired_app key l1 l2 :
  fired key (l1 ++ l2) = fired key l1 || fired key l2.
Proof. apply existsb_app. Qed.

Lemma created_app key l1 l2 :
  created key (l1 ++ l2) = created key l1 || created key l2.
Proof. apply existsb_app. Qed.

Lemma stretch_refl key w : stretch key false false false w w.
Proof.
  split; [done|]. exists [], 0%nat.
  split; [by rewrite app_nil_r|]. split; [|done].
  intros n. by rewrite Nat.add_0_r.
Qed.

Lemma stretch_trans key f1 a1 c1 f2 a2 c2 w1 w2 w3 :
  stretch key f1 a1 c1 w1 w2 →
  stretch key f2 a2 c2 w2 w3 →
  a1 && a2 = false →
  stretch key (f1 || f2) (a1 || a2) (c1 || c2) w1 w3.
Proof.
  intros (Hwf1 & l1 & j1 & Hc1 & Hk1 & Hf1 & Hn1 & Ha1)
         (Hwf2 & l2 & j2 & Hc2 & Hk2 & Hf2 & Hn2 & Ha2) Hone.
  split; [auto|]. exists (l1 ++ l2), (j2 + j1)%nat.
  split; [by rewrite Hc2, Hc1, app_assoc|].
  split; [intros n; by rewrite Hk2, Hk1, Nat.add_assoc|].
  split; [by rewrite fired_app, Hf1, Hf2|].
  split; [by rewrite created_app, Hn1, Hn2|].
  destruct a1, a2; try discriminate Hone; simpl.
  - destruct Ha1 as [Hsome Hnone]. split.
    + intros c t Hw1. destruct (Hsome c t Hw1) as [i Hi].
      exists i. congruence.
    + intros Hw1. rewrite Ha2. auto.
  - destruct Ha2 as [Hsome Hnone]. split.
    + intros c t Hw1. rewrite <- Ha1 in Hw1.
      destruct (Hsome c t Hw1) as [i Hi].
      exists (i + j1)%nat. by rewrite Hi, Hk1.
    + intros Hw1. apply Hnone. congruence.
  - congruence.
Qed.

Lemma quiet_trans key w1 w2 w3 :
  stretch key false false false w1 w2 →
  stretch key false false false w2 w3 →
  stretch key false false false w1 w3.
Proof. intros H1 H2. by apply (stretch_trans _ _ _ _ _ _ _ _ _ _ H1 H2). Qed.

Lemma quiet_intro key w w' l j :
  entries w' = entries w →
  calls w' = calls w ++ l →
  (∀ n, clock w' n = clock w (n + j)%nat) →
  stretch key (fired key l) false (created key l) w w'.
Proof.
  intros He Hc Hk. split.
  - unfold entries_wf. by rewrite He.
  - exists l, j. repeat split; try done. unfold entry_track. by rewrite He.
Qed.

Lemma quiet_intro_none key w w' l j :
  entries w' = entries w →
  calls w' = calls w ++ l →
  (∀ n, clock w' n = clock w (n + j)%nat) →
  fired key l = false →
  created key l = false →
  stretch key false false false w w'.
Proof.
  intros He Hc Hk Hf Hn.
  pose proof (quiet_intro key w w' l j He Hc Hk) as H.
  by rewrite Hf, Hn in H.
Qed.

Lemma quiet_intro_calls key w w' l :
  entries w' = entries w →
  clock w' = clock w →
  calls w' = calls w ++ l →
  fired key l = false →
  created key l = false →
  stretch key false false false w w'.
Proof.
  intros He Hk Hc Hf Hn.
  apply (quiet_intro_none key w w' l 0%nat); try done.
  intros n. by rewrite Hk, Nat.add_0_r.
Qed.

Lemma stretch_intro key f c w w' l :
  entries w' = entries w →
  clock w' = clock w →
  calls w' = calls w ++ l →
  fired key l = f →
  created key l = c →
  stretch key f false c w w'.
Proof.
  intros He Hk Hc <- <-.
  apply (quiet_intro key w w' l 0%nat); try done.
  intros n. by rewrite Hk, Nat.add_0_r.
Qed.

Lemma one_turn_quiet key w w' :
  stretch key false false false w w' → one_turn key w w'.
Proof. intros H. exists false, false. split; [exact H|done]. Qed.

Lemma one_turn_then_quiet key w1 w2 w3 :
  one_turn key w1 w2 → stretch key false false false w2 w3 →
  one_turn key w1 w3.
Proof.
  intros (f & c & H1 & Hcf) H2. exists f, c.
  pose proof (stretch_trans _ _ _ _ _ _ _ _ _ _ H1 H2) as H.
  rewrite !orb_false_r, andb_false_r in H. auto.
Qed.

Lemma quiet_then_one_turn key w1 w2 w3 :
  stretch key false false false w1 w2 → one_turn key w2 w3 →
  one_turn key w1 w3.
Proof.
  intros H1 (f & c & H2 & Hcf). exists f, c.
  pose proof (stretch_trans _ _ _ _ _ _ _ _ _ _ H1 H2) as H. auto.
Qed.

Local Abbreviation quiet key := (stretch key false false false).

(** What each step of [create_task] does, seen from the entry [key]. *)
Lemma get_task_run key i w :
  ∃ w', get_task i w = (Ok (impl_get_task i (store w)).1, w') ∧
        quiet key w w'.
Proof.
  eexists. split; [reflexivity|].
  by apply (quiet_intro_calls key _ _ [c_get_task i]).
Qed.

Lemma delete_tasks_run key l w :
  ∃ r w', delete_tasks l w = (Ok r, w') ∧ quiet key w w'.
Proof.
  eexists _, _. split; [reflexivity|].
  by apply (quiet_intro_calls key _ _ [c_delete_tasks l]).
Qed.

Lemma put_task_run key v w :
  ∃ r w', put_task v w = (Ok r, w') ∧ quiet key w w'.
Proof.
  eexists _, _. split; [reflexivity|].
  by apply (quiet_intro_calls key _ _ [c_put_task v]).
Qed.

Lemma save_task_run key i kw w :
  ∃ r w', save_task i kw w = (Ok r, w') ∧
          stretch key false false
            (is_pending_save_of key (c_save_task i kw)) w w'.
Proof.
  eexists _, _. split; [reflexivity|].
  apply (stretch_intro key _ _ _ _ [c_save_task i kw]); try done.
  unfold created. cbn [existsb]. apply orb_false_r.
Qed.

Lemma fresh_task_id_run key w :
  ∃ r w', fresh_task_id w = (Ok r, w') ∧ quiet key w w'.
Proof.
  eexists _, _. split; [reflexivity|].
  by apply (quiet_intro_calls key _ _ [c_create_task_id (ids w 0%nat)]).
Qed.

Lemma datetime_now_run key w :
  ∃ w', datetime_now w = (Ok (clock w 0%nat), w') ∧ quiet key w w'.
Proof.
  eexists. split; [reflexivity|].
  apply (quiet_intro_none key _ _ [] 1%nat); simpl; try done.
  - by rewrite app_nil_r.
  - intros n. f_equal. lia.
Qed.

Lemma log_run key c w :
  ∃ w', log c w = (Ok tt, w') ∧
        stretch key (is_run_job_of key c) false (is_pending_save_of key c)
          w w'.
Proof.
  eexists. split; [reflexivity|].
  apply (stretch_intro key _ _ _ _ [c]); try done.
  - unfold fired. cbn [existsb]. apply orb_false_r.
  - unfold created. cbn [existsb]. apply orb_false_r.
Qed.

Lemma pending_save_done key i task :
  Task.done task = true →
  is_pending_save_of key (c_save_task i (delete "id" (Task.tojson task)))
    = false.
Proof.
  unfold Task.done, is_pending_save_of. intros Hdone.
  rewrite !lookup_delete_ne by done. rewrite !tojson_lookup. simpl.
  destruct (Task.name task) as [nm|]; simpl; [|done].
  destruct (Task.status task) as [st|]; simpl; [|done].
  apply bool_decide_eq_true_1 in Hdone.
  unfold states.READY_STATES in Hdone.
  repeat (apply elem_of_cons in Hdone as [->|Hdone];
          [by rewrite andb_false_r|]).
  by apply elem_of_nil in Hdone.
Qed.

Lemma pending_save_job key i job time_executed expiry targs tkwargs :
  is_pending_save_of key
    (c_save_task i
       (list_to_map (pending_fields job time_executed expiry targs tkwargs)
        ∪ ∅))
    = String.eqb (Job.name job) key.
Proof.
  unfold is_pending_save_of, pending_fields.
  rewrite (right_id_L ∅ (∪)). simpl.
  rewrite lookup_insert_eq.
  rewrite !lookup_insert_ne by done. rewrite lookup_insert_eq.
  by rewrite andb_true_r.
Qed.

Lemma keywords_none job time_executed expiry targs tkwargs w :
  keywords (pending_fields job time_executed expiry targs tkwargs) ∅ w
    = (Ok (list_to_map
             (pending_fields job time_executed expiry targs tkwargs) ∪ ∅),
       w).
Proof.
  apply keywords_distinct. unfold CREATE_KEYWORDS.
  repeat constructor.
Qed.

Ltac unfold_bind :=
  unfold mbind, M_bind, mret, M_ret, bind, ret, raise, try.

Ltac run_step lem :=
  let w' := fresh "w" in
  let Hrun := fresh "Hrun" in
  let Hq := fresh "Hq" in
  destruct lem as (w' & Hrun & Hq);
  rewrite Hrun; clear Hrun; cbv beta iota.

Ltac run_step_r lem :=
  let w' := fresh "w" in
  let Hrun := fresh "Hrun" in
  let Hq := fresh "Hq" in
  destruct lem as (? & w' & Hrun & Hq);
  rewrite Hrun; clear Hrun; cbv beta iota.

Lemma handle_task_done_run key task w :
  Task.done task = true →
  ∃ w', handle_task_done task w = (Ok None, w') ∧ quiet key w w'.
Proof.
  intros Hdone. unfold handle_task_done. unfold_bind.
  run_step_r (fresh_task_id_run key w).
  run_step_r (delete_tasks_run key [Task.id task] w0).
  match goal with |- context [save_task ?i ?kw ?w] =>
    run_step_r (save_task_run key i kw w) end.
  rewrite pending_save_done in Hq1 by assumption.
  eexists. split; [reflexivity|].
  eauto using quiet_trans.
Qed.

(** [advance_entry] on another entry, and on the entry itself. *)
Lemma advance_entry_other name key w :
  name ≠ key →
  ∃ w', advance_entry name w = (Ok tt, w') ∧ quiet key w w'.
Proof.
  intros Hne. unfold advance_entry.
  unfold mbind at 1, M_bind at 1, bind, get.
  destruct (entries w) as [es|] eqn:Hes; simpl;
    [destruct (es !! name) as [e|] eqn:He|]; simpl.
  - eexists. split; [reflexivity|].
    split.
    + unfold entries_wf. simpl. rewrite Hes. simpl.
      intros Hwf es' k e' [= <-] Hk.
      destruct (decide (k = name)) as [->|Hk'].
      * rewrite lookup_insert_eq in Hk. injection Hk as <-. simpl.
        by eapply Hwf.
      * rewrite lookup_insert_ne in Hk by done. by eapply Hwf.
    + exists [], 1%nat. simpl. rewrite app_nil_r.
      repeat split; try done.
      * intros n. f_equal. lia.
      * unfold entry_track. simpl. rewrite Hes. simpl.
        by rewrite lookup_insert_ne.
  - eexists. split; [reflexivity|]. apply stretch_refl.
  - eexists. split; [reflexivity|]. apply stretch_refl.
Qed.

Lemma advance_entry_same key w :
  ∃ w', advance_entry key w = (Ok tt, w') ∧
        stretch key false true false w w'.
Proof.
  unfold advance_entry.
  unfold mbind at 1, M_bind at 1, bind, get.
  unfold stretch, advanced, entry_track.
  destruct (entries w) as [es|] eqn:Hes; simpl;
    [destruct (es !! key) as [e|] eqn:He|]; simpl.
  - eexists. split; [reflexivity|].
    split.
    + unfold entries_wf. simpl. rewrite Hes. simpl.
      intros Hwf es' k e' [= <-] Hk.
      destruct (decide (k = key)) as [->|Hk'].
      * rewrite lookup_insert_eq in Hk. injection Hk as <-. simpl.
        by eapply Hwf.
      * rewrite lookup_insert_ne in Hk by done. by eapply Hwf.
    + exists [], 1%nat. simpl. rewrite app_nil_r, Hes. simpl.
      rewrite lookup_insert_eq. simpl.
      repeat split; try done.
      * intros n. f_equal. lia.
      * intros c t [= <- <-]. by exists 0%nat.
  - eexists. split; [reflexivity|]. split; [done|].
    exists [], 0%nat. rewrite app_nil_r, Hes. simpl. rewrite He. simpl.
    repeat split; try done. intros n. by rewrite Nat.add_0_r.
  - eexists. split; [reflexivity|]. split; [done|].
    exists [], 0%nat. rewrite app_nil_r, Hes. simpl.
    repeat split; try done. intros n. by rewrite Nat.add_0_r.
Qed.

Lemma request_effect_quiet name key w w' :
  quiet key w w' → request_effect name key w w'.
Proof. unfold request_effect. case_decide; auto. Qed.

Lemma request_effect_then_quiet name key w1 w2 w3 :
  request_effect name key w1 w2 → quiet key w2 w3 →
  request_effect name key w1 w3.
Proof.
  unfold request_effect. intros H1 H2. case_decide.
  - destruct H1 as [H1|H1]; [left|right].
    + eauto using quiet_trans.
    + apply (stretch_trans _ _ _ _ _ _ _ _ _ _ H1 H2). done.
  - eauto using quiet_trans.
Qed.

Ltac compose :=
  repeat match goal with
  | H1 : stretch ?k _ _ _ ?w1 ?w2, H2 : stretch ?k _ _ _ ?w2 ?w3 |- _ =>
      let H := fresh "Hq" in
      pose proof (stretch_trans _ _ _ _ _ _ _ _ _ _ H1 H2 eq_refl) as H;
      simpl in H; clear H1 H2
  end.

Ltac finish :=
  eexists _, _; split; [reflexivity|]; split; [done|]; compose.

Lemma create_task_run name key w :
  registry_wf registry →
  ∃ r w', create_task registry name VNone VNone None ∅ w = (r, w') ∧
          r ≠ Diverges ∧ request_effect name key w w'.
Proof.
  intros Hreg. unfold create_task, request_effect.
  destruct (registry !! name) as [job|] eqn:Hjob.
  2: { finish. case_decide; [left|]; apply stretch_refl. }
  apply Hreg in Hjob as Hname. rewrite Hname.
  cbn [py_or truthy EMPTY_TUPLE]. unfold_bind.
  match goal with |- context [get_task ?i w] =>
    run_step (get_task_run key i w) end.
  destruct ((impl_get_task _ (store w)).1) as [t|];
    [destruct (Task.done t) eqn:Hdone;
     [run_step (handle_task_done_run key t w0 Hdone)
     |run_step (log_run key (c_logger "debug") w0); finish;
      case_decide; [left|]; assumption]|];
    (destruct (decide (name = key)) as [->|Hne];
     [match goal with |- context [advance_entry _ ?w] =>
        run_step (advance_entry_same key w) end
     |match goal with |- context [advance_entry _ ?w] =>
        run_step (advance_entry_other name key w Hne) end;
      apply String.eqb_neq in Hne];
     match goal with |- context [datetime_now ?w] =>
       run_step (datetime_now_run key w) end;
     match goal with |- context [log ?c ?w] =>
       run_step (log_run key c w) end;
     rewrite keywords_none;
     match goal with |- context [save_task ?i ?kw ?w] =>
       run_step_r (save_task_run key i kw w) end;
     match goal with H : context [is_pending_save_of] |- _ =>
       rewrite pending_save_job, Hname, ?String.eqb_refl, ?Hne in H end;
     finish; auto).
Qed.

Lemma run_job_run name key w :
  registry_wf registry →
  ∃ r w', run_job registry name VNone VNone None ∅ w = (Ok r, w') ∧
          request_effect name key w w'.
Proof.
  intros Hreg. unfold run_job, _run_job. unfold_bind.
  destruct (create_task_run name key w Hreg) as (r & w1 & -> & Hr & He).
  destruct r as [v|e|]; [|clear Hr|done].
  - destruct (truthy v).
    + run_step_r (put_task_run key v w1).
      eexists _, _. split; [reflexivity|].
      by eapply request_effect_then_quiet.
    + by eexists _, _.
  - run_step (log_run key (c_failure_log (maybe_failure e)) w1).
    eexists _, _. split; [reflexivity|].
    by eapply request_effect_then_quiet.
Qed.

(** [scheduled_last_run_at] changes nothing of an entry but the anchor of
    its schedule. *)
Lemma scheduled_last_run_at_entry fuel e last e' :
  scheduled_last_run_at timedelta_seconds fuel e = Ok (last, e') →
  SchedulerEntry.name e' = SchedulerEntry.name e ∧
  SchedulerEntry.total_run_count e' = SchedulerEntry.total_run_count e ∧
  SchedulerEntry.last_run_at e' = SchedulerEntry.last_run_at e.
Proof.
  unfold scheduled_last_run_at.
  repeat case_match; intros [= <- <-]; done.
Qed.

Lemma is_due_run fuel k entry now w key :
  entries w ≫= (.!! k) = Some entry →
  ∃ r w', is_due remaining timedelta_seconds fuel k entry now w = (r, w') ∧
          quiet key w w'.
Proof.
  intros Hentry. unfold is_due.
  destruct (scheduled_last_run_at timedelta_seconds fuel entry)
    as [[last entry']| |] eqn:Hlast.
  2,3: eexists _, _; split; [reflexivity|apply stretch_refl].
  apply scheduled_last_run_at_entry in Hlast as (Hname & Hcount & Hlast).
  destruct (entries w) as [es|] eqn:Hes; [simpl in Hentry|done].
  assert (quiet key w (set_entry k entry' w).2) as Hset.
  { split.
    - unfold entries_wf. simpl. rewrite Hes. simpl.
      intros Hwf es' k' e' [= <-] Hk'.
      destruct (decide (k' = k)) as [->|Hne].
      + rewrite lookup_insert_eq in Hk'. injection Hk' as <-.
        rewrite Hname. by eapply Hwf.
      + rewrite lookup_insert_ne in Hk' by done. by eapply Hwf.
    - exists [], 0%nat. simpl. rewrite app_nil_r.
      repeat split; try done.
      + intros n. by rewrite Nat.add_0_r.
      + unfold entry_track. simpl. rewrite Hes. simpl.
        destruct (decide (key = k)) as [->|Hne].
        * rewrite lookup_insert_eq, Hentry. simpl. congruence.
        * by rewrite lookup_insert_ne. }
  unfold Schedule_is_due, remaining_estimate, now_or_datetime_now.
  unfold_bind. unfold set_entry at 1, modify.
  destruct now as [n|].
  - destruct (timedelta_seconds _ =? 0);
      (eexists _, _; split; [reflexivity|exact Hset]).
  - match goal with |- context [datetime_now ?w] =>
      run_step (datetime_now_run key w) end.
    destruct (timedelta_seconds _ =? 0);
      (eexists _, _; split; [reflexivity|eauto using quiet_trans]).
Qed.

Lemma tick_entry_run fuel now k remaining_times w key :
  registry_wf registry →
  entries_wf w →
  ∃ r w', tick_entry registry remaining timedelta_seconds fuel now k
            remaining_times w = (r, w') ∧
          if decide (k = key) then one_turn key w w' else quiet key w w'.
Proof.
  intros Hreg Hwf. unfold tick_entry.
  unfold mbind at 1, M_bind at 1, bind at 1, get.
  destruct (entries w ≫= (.!! k)) as [entry|] eqn:Hentry.
  2: { eexists _, _. split; [reflexivity|].
       case_decide; [apply one_turn_quiet|]; apply stretch_refl. }
  assert (SchedulerEntry.name entry = k) as ->.
  { destruct (entries w) as [es|] eqn:Hes; [|done]. by eapply Hwf. }
  unfold_bind.
  destruct (is_due_run fuel k entry now w key Hentry)
    as (r & w1 & -> & Hq1).
  destruct r as [[due next]| |].
  2,3: eexists _, _; split; [reflexivity|];
       case_decide; [apply one_turn_quiet|]; assumption.
  destruct due.
  - run_step (log_run key (c_run_job k) w1).
    destruct (run_job_run k key w0 Hreg) as (v & w2 & -> & Hrun).
    unfold request_effect in Hrun.
    cbn [is_run_job_of is_pending_save_of] in Hq.
    assert (if decide (k = key) then one_turn key w w2
            else quiet key w w2) as Hturn.
    { destruct (decide (k = key)) as [->|Hne].
      - rewrite String.eqb_refl in Hq.
        destruct Hrun as [Hrun|Hrun]; compose.
        + exists true, false. split; [assumption|done].
        + exists true, true. split; [assumption|done].
      - apply String.eqb_neq in Hne. rewrite Hne in Hq.
        compose. assumption. }
    destruct (next =? 0);
      (eexists _, _; split; [reflexivity|exact Hturn]).
  - destruct (next =? 0);
      (eexists _, _; split; [reflexivity|];
       case_decide; [apply one_turn_quiet|]; assumption).
Qed.

Lemma stretch_wf key f a c w w' :
  stretch key f a c w w' → entries_wf w → entries_wf w'.
Proof. by intros [Hwf _]. Qed.

Lemma one_turn_wf key w w' :
  one_turn key w w' → entries_wf w → entries_wf w'.
Proof. intros (f & c & H & _). by eapply stretch_wf. Qed.

Lemma tick_loop_run fuel now keys remaining_times w key :
  registry_wf registry →
  entries_wf w →
  NoDup keys →
  ∃ r w', tick_loop registry remaining timedelta_seconds fuel now keys
            remaining_times w = (r, w') ∧
          if decide (key ∈ keys) then one_turn key w w'
          else quiet key w w'.
Proof.
  intros Hreg. revert remaining_times w.
  induction keys as [|k keys IH]; intros remaining_times w Hwf Hnodup.
  { eexists _, _. split; [reflexivity|].
    case_decide as Hin; [by apply elem_of_nil in Hin|apply stretch_refl]. }
  inversion_clear Hnodup as [|? ? Hk Hnodup'].
  rename Hnodup' into Hnodup.
  cbn [tick_loop]. unfold_bind.
  destruct (tick_entry_run fuel now k remaining_times w key Hreg Hwf)
    as (r & w1 & -> & Hturn).
  assert (entries_wf w1) as Hwf1.
  { destruct (decide (k = key));
      eauto using one_turn_wf, stretch_wf. }
  assert (∀ w2, quiet key w1 w2 →
                if decide (key ∈ k :: keys) then one_turn key w w2
                else quiet key w w2) as Hrest.
  { intros w2 Hq. destruct (decide (k = key)) as [->|Hne].
    - rewrite decide_True by apply list_elem_of_here.
      by eapply one_turn_then_quiet.
    - destruct (decide (key ∈ k :: keys)); [apply one_turn_quiet|];
        eauto using quiet_trans. }
  destruct r as [remaining_times'|e|].
  - destruct (IH remaining_times' w1 Hwf1 Hnodup) as (r & w2 & -> & Hloop).
    eexists _, _. split; [reflexivity|].
    destruct (decide (key ∈ keys)) as [Hin|Hnotin].
    + assert (k ≠ key) as Hne by (intros ->; done).
      rewrite decide_False in Hturn by done.
      rewrite decide_True by (by apply list_elem_of_further).
      by eapply quiet_then_one_turn.
    + by apply Hrest.
  - run_step (log_run key (c_logger "exception") w1).
    eexists _, _. split; [reflexivity|]. by apply Hrest.
  - eexists _, _. split; [reflexivity|]. apply Hrest, stretch_refl.
Qed.

Lemma tick_run fuel now w key :
  registry_wf registry →
  entries_wf w →
  ∃ r w', tick registry remaining timedelta_seconds fuel now w = (r, w') ∧
          one_turn key w w'.
Proof.
  intros Hreg Hwf. unfold tick.
  unfold mbind at 1, M_bind at 1, bind at 1, get.
  destruct (negb (schedule_periodic w)).
  { eexists _, _. split; [reflexivity|]. apply one_turn_quiet, stretch_refl. }
  unfold mbind at 1, M_bind at 1, bind at 1, get.
  assert (∃ r w1,
            match entries w with
            | Some es =>
                tick_loop registry remaining timedelta_seconds fuel now
                  (map_to_list es).*1 []
            | None => log (c_logger "exception");; mret []
            end w = (r, w1) ∧ one_turn key w w1)
    as (r & w1 & Hloop & Hturn).
  { destruct (entries w) as [es|] eqn:Hes.
    - destruct (tick_loop_run fuel now (map_to_list es).*1 [] w key Hreg Hwf
                  (NoDup_fst_map_to_list es)) as (r & w1 & Hrun & Hloop).
      exists r, w1. split; [exact Hrun|].
      case_decide; [|apply one_turn_quiet]; assumption.
    - unfold_bind.
      run_step (log_run key (c_logger "exception") w).
      eexists _, _. split; [reflexivity|]. by apply one_turn_quiet. }
  unfold_bind.
  unfold mbind, M_bind, mret, M_ret, bind, ret in Hloop. rewrite Hloop.
  destruct r as [remaining_times|e|].
  2,3: by eexists _, _.
  unfold now_or_datetime_now, modify.
  assert (∀ n w2, quiet key w2 (with_next_run n w2)) as Hnext.
  { intros n w2. apply (quiet_intro_calls key _ _ []); try done.
    simpl. by rewrite app_nil_r. }
  destruct now as [n|].
  - eexists _, _. split; [reflexivity|].
    eapply one_turn_then_quiet; [exact Hturn|apply Hnext].
  - run_step (datetime_now_run key w1).
    eexists _, _. split; [reflexivity|].
    eapply one_turn_then_quiet; [exact Hturn|].
    eapply quiet_trans; [exact Hq|apply Hnext].
Qed.

(** C7, amended.  For an entry that [tick] fires: when the request it
    makes creates the task (a PENDING task of the job is saved), the
    entry's run count goes up by exactly one and its last run becomes a
    reading of the wall clock, the one [SchedulerEntry.next] takes; when
    the request creates no task (a duplicate still live absorbs it), the
    entry keeps its run count and its last run. *)
Theorem tick_advances_fired_entry fuel now w key c t :
  registry_wf registry →
  entries_wf w →
  entry_track key w = Some (c, t) →
  let w' := (tick registry remaining timedelta_seconds fuel now w).2 in
  fired key (new_calls w w') = true →
  (created key (new_calls w w') = true →
     ∃ i, entry_track key w' = Some (c + 1, clock w i)) ∧
  (created key (new_calls w w') = false →
     entry_track key w' = Some (c, t)).
Proof.
  intros Hreg Hwf Htrack w' _.
  destruct (tick_run fuel now w key Hreg Hwf)
    as (r & w1 & Hrun & f & cr & (_ & l & j & Hcalls & _ & _ & Hcr & Hadv)
          & _).
  unfold w'. rewrite Hrun. cbn [snd].
  rewrite (new_calls_app _ _ _ Hcalls), Hcr.
  split; intros ->.
  - destruct Hadv as [Hadv _]. exact (Hadv c t Htrack).
  - congruence.
Qed.

(** A task is created for an entry only in a tick that fired it. *)
Lemma tick_creates_for_fired_only fuel now w key :
  registry_wf registry →
  entries_wf w →
  let w' := (tick registry remaining timedelta_seconds fuel now w).2 in
  created key (new_calls w w') = true →
  fired key (new_calls w w') = true.
Proof.
  intros Hreg Hwf w'.
  destruct (tick_run fuel now w key Hreg Hwf)
    as (r & w1 & Hrun & f & cr & (_ & l & j & Hcalls & _ & Hf & Hcr & _)
          & Hcf).
  unfold w'. rewrite Hrun. cbn [snd].
  rewrite (new_calls_app _ _ _ Hcalls), Hcr, Hf. exact Hcf.
Qed.
End tick_proofs.

Lemma sample_registry_wf : registry_wf sample.registry.
Proof.
  intros n j. unfold sample.registry.
  repeat (rewrite lookup_insert; case_decide;
          [intros [= <-]; subst n; reflexivity|]).
  by rewrite lookup_empty.
Qed.

Lemma sample_entries_wf : entries_wf sample.world_periodic.
Proof.
  intros es k e [= <-] Hk.
  apply lookup_singleton_Some in Hk as [<- <-]. reflexivity.
Qed.

(** C7, as stated, fails.  A tick at [now = 1000] fires the entry of [beat]
    (due since 1000, last run at 995, never counted): the entry's last run
    becomes 1003, the reading of the wall clock, and not 1000.  And with a
    task of [beat] still pending, the same tick fires the entry and leaves
    its run count at 0. *)
Lemma tick_last_run_at_is_not_now :
  let tick_at_1000 := tick sample.registry sample.remaining
                        sample.timedelta_seconds 10 (Some 1000) in
  let w := sample.world_periodic in
  let busy := sample.world_periodic_busy in
  entry_track "beat" w = Some (0, 995) ∧
  fired "beat" (new_calls w (tick_at_1000 w).2) = true ∧
  entry_track "beat" (tick_at_1000 w).2 = Some (1, 1003) ∧
  entry_track "beat" (tick_at_1000 w).2 ≠ Some (0 + 1, 1000) ∧
  entry_track "beat" busy = Some (0, 995) ∧
  fired "beat" (new_calls busy (tick_at_1000 busy).2) = true ∧
  entry_track "beat" (tick_at_1000 busy).2 = Some (0, 995) ∧
  entry_track "beat" (tick_at_1000 busy).2 ≠ Some (0 + 1, 1000).
Proof.
  intros tick_at_1000 w busy.
  assert (entry_track "beat" (tick_at_1000 w).2 = Some (1, 1003)) as H1
    by (vm_compute; reflexivity).
  assert (entry_track "beat" (tick_at_1000 busy).2 = Some (0, 995)) as H2
    by (vm_compute; reflexivity).
  rewrite H1, H2.
  repeat split; try (vm_compute; reflexivity); discriminate.
Qed.

Lemma tick_advances_fired_entry_witness :
  let tick_at_1000 := tick sample.registry sample.remaining
                        sample.timedelta_seconds 10 (Some 1000) in
  let w := sample.world_periodic in
  let busy := sample.world_periodic_busy in
  (fired "beat" (new_calls w (tick_at_1000 w).2) = true ∧
   created "beat" (new_calls w (tick_at_1000 w).2) = true ∧
   ∃ i, entry_track "beat" (tick_at_1000 w).2 = Some (0 + 1, clock w i)) ∧
  (fired "beat" (new_calls busy (tick_at_1000 busy).2) = true ∧
   created "beat" (new_calls busy (tick_at_1000 busy).2) = false ∧
   entry_track "beat" (tick_at_1000 busy).2 = Some (0, 995)).
Proof.
  intros tick_at_1000 w busy.
  assert (fired "beat" (new_calls w (tick_at_1000 w).2) = true) as Hf
    by (vm_compute; reflexivity).
  assert (created "beat" (new_calls w (tick_at_1000 w).2) = true) as Hc
    by (vm_compute; reflexivity).
  assert (fired "beat" (new_calls busy (tick_at_1000 busy).2) = true) as Hf'
    by (vm_compute; reflexivity).
  assert (created "beat" (new_calls busy (tick_at_1000 busy).2) = false)
    as Hc' by (vm_compute; reflexivity).
  split; (split; [assumption|]; split; [assumption|]).
  - apply (tick_advances_fired_entry sample.registry sample.remaining
             sample.timedelta_seconds 10 (Some 1000) w "beat" 0 995
             sample_registry_wf sample_entries_wf eq_refl Hf).
    exact Hc.
  - apply (tick_advances_fired_entry sample.registry sample.remaining
             sample.timedelta_seconds 10 (Some 1000) busy "beat" 0 995
             sample_registry_wf sample_entries_wf eq_refl Hf').
    exact Hc'.
Defined.

(** * Further properties *)

(** ** A task and its dictionary *)

(** X1. Building a task again from its own dictionary, as
    [Task(id, **data)] does with the [data] that [handle_task_done] passes
    on ([tojson()] less its [id]), gives back the id, name, execution
    time, expiry, arguments, status, origin and result; but
    [time_started] and [time_ended] come back unset: their old values,
    and the old [params] as one nested dictionary, end up as entries of
    the new [params]. *)
Theorem tojson_init_round_trip (t : Task.t) :
  let data := delete "id" (Task.tojson t) in
  let t' := Task.__init__ (Task.id t) data in
  Task.id t' = Task.id t ∧
  Task.name t' = Task.name t ∧
  Task.time_executed t' = Task.time_executed t ∧
  Task.expiry t' = Task.expiry t ∧
  Task.args t' = Task.args t ∧
  Task.kwargs t' = Task.kwargs t ∧
  Task.status t' = Task.status t ∧
  Task.from_task t' = Task.from_task t ∧
  Task.result t' = Task.result t ∧
  Task.time_started t' = None ∧
  Task.time_ended t' = None ∧
  Task.params t'
    = {[ "time_started" := of_opt VDatetime (Task.time_started t);
         "time_ended" := of_opt VDatetime (Task.time_ended t);
         "params" := VDict (map_to_list (Task.params t)) ]}.
Proof.
  intros data t'. unfold t', Task.__init__, data.
  cbn [Task.id Task.name Task.time_executed Task.expiry Task.args
       Task.kwargs Task.status Task.from_task Task.result Task.time_started
       Task.time_ended Task.params].
  rewrite !lookup_delete_ne by done. rewrite !tojson_lookup. simpl.
  split; [reflexivity|].
  split; [by destruct (Task.name t)|].
  split; [by destruct (Task.time_executed t)|].
  split; [by destruct (Task.expiry t)|].
  do 2 (split; [reflexivity|]).
  split; [by destruct (Task.status t)|].
  split; [by destruct (Task.from_task t)|].
  do 3 (split; [reflexivity|]).
  apply map_eq. intros k.
  rewrite map_lookup_filter, lookup_delete.
  destruct (decide ("id" = k)) as [<-|Hid]; [done|].
  rewrite tojson_lookup.
  unfold Task.INIT_KEYWORDS.
  rewrite (decide_False (P := k = "id"%string)) by done.
  repeat (case_decide; [subst k; reflexivity|]).
  simpl. symmetry.
  rewrite !lookup_insert_ne by congruence.
  apply lookup_singleton_ne. congruence.
Qed.

(** ** Requests *)

Section request_proofs.
Context {S : Type} `{!TaskBackendImpl S}.
Variable registry : gmap string Job.t.
Implicit Types (w : world (S := S)) (job : Job.t) (task : Task.t).

(** X2. A request for a job that is not in the registry reaches no
    backend operation: [create_task] and [_run_job] raise
    [TaskNotAvailable] with the state as it was, and [run_job], whose
    errback logs the failure, does not raise: it results in the failure
    object and the one thing it does is log it. *)
Theorem run_job_unknown_job jobname targs tkwargs expiry meta_params w :
  registry !! jobname = None →
  let failure := maybe_failure (TaskNotAvailable jobname) in
  create_task registry jobname targs tkwargs expiry meta_params w
    = (Exc (TaskNotAvailable jobname), w) ∧
  _run_job registry jobname targs tkwargs expiry meta_params w
    = (Exc (TaskNotAvailable jobname), w) ∧
  run_job registry jobname targs tkwargs expiry meta_params w
    = (Ok failure, with_calls (calls w ++ [c_failure_log failure]) w).
Proof.
  intros Hreg failure.
  assert (create_task registry jobname targs tkwargs expiry meta_params w
            = (Exc (TaskNotAvailable jobname), w)) as Hcreate
    by (unfold create_task; by rewrite Hreg).
  assert (_run_job registry jobname targs tkwargs expiry meta_params w
            = (Exc (TaskNotAvailable jobname), w)) as Hrun
    by (unfold _run_job; run_M; by rewrite Hcreate).
  repeat split; [exact Hcreate|exact Hrun|].
  unfold run_job. run_M. by rewrite Hrun.
Qed.

(** [create_task] when the lookup under the computed id finds nothing:
    the time of execution it takes, the expiry it works out and the one
    [save_task] it makes. *)
Lemma create_task_fresh jobname job targs tkwargs expiry params w s1 :
  registry !! jobname = Some job →
  let targs' := py_or targs EMPTY_TUPLE in
  let tkwargs' := py_or tkwargs EMPTY_DICT in
  let task_id := create_task_id job targs' tkwargs' in
  impl_get_task (Some task_id) (store w) = (None, s1) →
  Forall (λ k, params !! k = None) CREATE_KEYWORDS →
  let time_executed :=
    match entries w ≫= (.!! Job.name job) with
    | Some _ => clock w 1%nat
    | None => clock w 0%nat
    end in
  let expiry' :=
    match expiry with
    | Some e => Some (get_datetime e time_executed)
    | None =>
        if timeout_truthy (Job.timeout job)
        then (λ e, get_datetime e time_executed) <$> Job.timeout job
        else None
    end in
  let kw := list_to_map
              (pending_fields job time_executed expiry' targs' tkwargs')
            ∪ params in
  ∃ w', create_task registry jobname targs tkwargs expiry params w
          = (Ok (impl_save_task task_id kw s1).1, w') ∧
        calls w' = calls w ++ [c_get_task (Some task_id); c_logger "debug";
                               c_save_task task_id kw] ∧
        store w' = (impl_save_task task_id kw s1).2.
Proof.
  intros Hreg targs' tkwargs' task_id Hget Hparams time_executed expiry' kw.
  unfold create_task. rewrite Hreg. fold targs' tkwargs' task_id.
  unfold mbind at 1, M_bind at 1, bind at 1.
  unfold get_task at 1. rewrite Hget. cbn [fst snd].
  unfold save_task, advance_entry, SchedulerEntry_next, now_or_datetime_now,
    set_entry, datetime_now.
  unfold kw, expiry', time_executed.
  destruct (entries w) as [es|] eqn:Hes;
    [destruct (es !! Job.name job) as [e|] eqn:He|];
    run_M; rewrite Hes; simpl; rewrite ?He; simpl;
    rewrite keywords_distinct by assumption; simpl;
    (eexists; split; [reflexivity|]; split;
     [by rewrite <- !app_assoc|reflexivity]).
Qed.


Lemma get_datetime_checked_inr e start d :
  get_datetime_checked e start = inr d → get_datetime e start = d.
Proof.
  destruct e; simpl; [by intros [= <-]|..];
    destruct (is_datetime _); by intros [= <-].
Qed.

(** X4. The task that [create_task] saves for such a request is stamped
    with a reading of the clock, the first one, or the second when the job
    has an entry in the scheduler's table (the entry's [next()] takes the
    first).  Provided the conversion of the expiry in effect from that
    time raises nothing (the date it gives exists): an [expiry] given
    with the request is turned into a date from that time and wins over
    the job's [timeout]; without one, the job's [timeout] is used when it
    is true; and a job whose [timeout] is unset, a zero [timedelta] or the
    number 0 gives a task with no expiry. *)
Theorem create_task_expiry jobname job targs tkwargs expiry params w s1 :
  registry !! jobname = Some job →
  let task_id := create_task_id job (py_or targs EMPTY_TUPLE)
                   (py_or tkwargs EMPTY_DICT) in
  impl_get_task (Some task_id) (store w) = (None, s1) →
  Forall (λ k, params !! k = None) CREATE_KEYWORDS →
  let time_executed :=
    if decide (is_Some (entries w ≫= (.!! Job.name job)))
    then clock w 1%nat else clock w 0%nat in
  (∀ e, expiry_in_effect expiry job = Some e →
        ∃ d, get_datetime_checked e time_executed = inr d) →
  let w' := (create_task registry jobname targs tkwargs expiry params w).2 in
  ∃ kw,
    new_calls w w' = [c_get_task (Some task_id); c_logger "debug";
                      c_save_task task_id kw] ∧
    kw !! "time_executed" = Some (VDatetime time_executed) ∧
    (∀ e, expiry = Some e →
       ∃ d, get_datetime_checked e time_executed = inr d ∧
            kw !! "expiry" = Some (VDatetime d)) ∧
    (∀ e, expiry = None → Job.timeout job = Some e →
       timeout_truthy (Some e) = true →
       ∃ d, get_datetime_checked e time_executed = inr d ∧
            kw !! "expiry" = Some (VDatetime d)) ∧
    (expiry = None → timeout_truthy (Job.timeout job) = false →
       kw !! "expiry" = Some VNone).
Proof.
  intros Hreg task_id Hget Hparams time_executed Hrange w'.
  destruct (create_task_fresh jobname job targs tkwargs expiry params w s1
              Hreg Hget Hparams) as (w1 & Hcreate & Hcalls & Hstore).
  unfold w'. rewrite Hcreate. cbn [snd].
  assert (time_executed = match entries w ≫= (.!! Job.name job) with
                          | Some _ => clock w 1%nat
                          | None => clock w 0%nat
                          end) as Htime.
  { unfold time_executed.
    destruct (entries w ≫= (.!! Job.name job)) eqn:He.
    - rewrite decide_True by eauto. reflexivity.
    - rewrite decide_False by (by intros [? ?]). reflexivity. }
  rewrite <- Htime in Hcalls.
  eexists. split; [apply new_calls_app; exact Hcalls|].
  split; [apply lookup_union_Some_l; reflexivity|].
  split; [|split].
  - intros e ->. destruct (Hrange e eq_refl) as [d Hd]. exists d.
    split; [exact Hd|]. apply get_datetime_checked_inr in Hd as <-.
    apply lookup_union_Some_l. reflexivity.
  - intros e -> He Ht.
    destruct (Hrange e) as [d Hd].
    { unfold expiry_in_effect. by rewrite He, Ht. }
    exists d. split; [exact Hd|]. apply get_datetime_checked_inr in Hd as <-.
    rewrite He, Ht. apply lookup_union_Some_l. reflexivity.
  - intros -> Ht. rewrite Ht. apply lookup_union_Some_l. reflexivity.
Qed.
End request_proofs.

Lemma run_job_unknown_job_witness :
  let failure := VFailure (TaskNotAvailable "nope") in
  sample.registry !! "nope" = None ∧
  run_job sample.registry "nope" VNone VNone None ∅ sample.world0
    = (Ok failure, with_calls [c_failure_log failure] sample.world0).
Proof.
  intros failure.
  assert (sample.registry !! "nope" = None) as Hreg
    by (vm_compute; reflexivity).
  split; [exact Hreg|].
  exact (proj2 (proj2 (run_job_unknown_job sample.registry "nope" VNone
                         VNone None ∅ sample.world0 Hreg))).
Defined.


Lemma create_task_expiry_witness :
  let w := sample.world0 in
  let w' := (create_task sample.registry "x" VNone VNone
               (Some (a_timedelta 30)) ∅ w).2 in
  sample.registry !! "x" = Some sample.x ∧
  get_datetime_checked (a_timedelta 30) 1000 = inr 1030 ∧
  ∃ kw,
    new_calls w w' = [c_get_task (Some "H(x,1,2)"%string); c_logger "debug";
                      c_save_task "H(x,1,2)" kw] ∧
    kw !! "time_executed" = Some (VDatetime 1000) ∧
    kw !! "expiry" = Some (VDatetime 1030).
Proof.
  intros w w'.
  assert (sample.registry !! "x" = Some sample.x) as Hreg
    by (vm_compute; reflexivity).
  split; [exact Hreg|]. split; [reflexivity|].
  assert (impl_get_task (Some "H(x,1,2)"%string) (store w)
            = (None, store w)) as Hget by reflexivity.
  destruct (create_task_expiry sample.registry "x" sample.x VNone VNone
              (Some (a_timedelta 30)) ∅ w (store w) Hreg Hget)
    as (kw & Hcalls & Htime & Hexpiry & _).
  { repeat constructor. }
  { intros e [= <-]. exists 1030. reflexivity. }
  exists kw. split; [exact Hcalls|]. split; [exact Htime|].
  destruct (Hexpiry _ eq_refl) as (d & Hd & Hkw).
  injection Hd as <-. exact Hkw.
Defined.

(** ** The executor and the worker's counter *)

Section accounting_proofs.
Context {S : Type} `{!TaskBackendImpl S}.
Variable PRECEDENCE_MAPPING : gmap string Z.
Variable UNKNOWN_STATE : Z.
Variable registry : gmap string Job.t.
Variable failure_str : value → string.
Implicit Types (w : world (S := S)) (task : Task.t).

Local Abbreviation execute :=
  (_execute_task PRECEDENCE_MAPPING UNKNOWN_STATE registry failure_str).
Local Abbreviation step :=
  (worker_step PRECEDENCE_MAPPING UNKNOWN_STATE registry failure_str).
Local Abbreviation reach :=
  (reachable PRECEDENCE_MAPPING UNKNOWN_STATE registry failure_str).

Lemma done_tasks_app l1 l2 :
  done_tasks (l1 ++ l2) = done_tasks l1 ++ done_tasks l2.
Proof. apply omap_app. Qed.

(** A run of the executor, whatever the task: what it gives and what it
    leaves alone. *)
Lemma _execute_task_run task w :
  ∃ l w',
    execute task w = (Ok (VStr (Task.id task)), w') ∧
    calls w' = calls w ++ l ∧
    list.last l
      = Some (c_call_soon_threadsafe (cb_done_task (Task.id task))) ∧
    existsb is_get_task l = false ∧
    event_loop w' = event_loop w ++ [cb_done_task (Task.id task)] ∧
    thread_pool w' = thread_pool w ∧
    concurrent_requests w' = concurrent_requests w ∧
    backlog w' = backlog w ∧
    running w' = running w.
Proof.
  unfold _execute_task.
  destruct (Task.name task ≫= (registry !!.)) as [job|];
    unfold_execute; cbn [consumer_job];
    [destruct (PRECEDENCE_MAPPING !! states.STARTED) as [started|];
     [destruct (Task.status_code PRECEDENCE_MAPPING UNKNOWN_STATE task
                  >? started);
      [destruct (expired task (clock w 0%nat));
       [|destruct (Job.call job (Task.args task) (Task.kwargs task))
           as [[]|[]]]|]|]|];
    simpl; rewrite <- ?app_assoc; simpl;
    (eexists _, _; split; [reflexivity|]; simpl;
     split; [reflexivity|]; repeat split; reflexivity).
Qed.

(** What a run of the poller's loop does and leaves alone. *)
Lemma may_pool_task_loop_frame fuel w p w' :
  may_pool_task_loop fuel w = (Ok p, w') →
  thread_pool w' = thread_pool w ∧
  concurrent_requests w' = concurrent_requests w ∧
  store w' = store w ∧
  (∃ l, calls w' = calls w ++ l ∧ existsb is_get_task l = false) ∧
  match p with
  | poll_suspended =>
      concurrent_requests w < backlog w ∧ event_loop w' = event_loop w
  | poll_returned =>
      event_loop w' = event_loop w ++ [cb_may_pool_task]
  end.
Proof.
  revert w. induction fuel as [|fuel IH]; intros w; simpl.
  { unfold diverge. discriminate. }
  unfold call_soon. unfold_M.
  destruct (running w); [destruct (thread_pool w) eqn:Hpool|].
  - destruct (concurrent_requests w <? backlog w) eqn:Hlt;
      intros [= <- <-]; simpl.
    + repeat split; try done; [|lia].
      exists []. by rewrite app_nil_r.
    + repeat split; try done.
      eexists. rewrite <- app_assoc. split; reflexivity.
  - intros Hrun. apply IH in Hrun as (Hp & Hc & Hs & (l & Hl & Hg) & Hrest).
    simpl in *. repeat split; try done; try congruence.
    eexists. rewrite Hl, <- app_assoc. split; [reflexivity|]. exact Hg.
  - intros [= <- <-]. simpl. repeat split.
    eexists. split; reflexivity.
Qed.

Lemma reachable_invariant st :
  reach st → 0 ≤ backlog st.1 → worker_invariant st.
Proof.
  intros (w1 & (w0 & Hzero & Hempty & Hstart) & Hsteps) Hbacklog.
  assert (backlog w1 = backlog w0 ∧
          (0 ≤ backlog w0 → worker_invariant (w1, 0%nat))) as [Hb Hinit].
  { unfold start, call_soon in Hstart. revert Hstart. unfold_M.
    intros [= <-]. unfold worker_invariant. simpl.
    rewrite Hzero, Hempty. simpl. split; [done|]. intros Hle.
    repeat split; [assumption|done|lia]. }
  clear Hzero Hempty Hstart.
  remember (w1, 0%nat) as st1 eqn:Hst1.
  assert (backlog st.1 = backlog st1.1 ∧
          (worker_invariant st1 → worker_invariant st)) as [Hb' Hi].
  { clear Hst1 Hinit Hbacklog Hb.
    induction Hsteps as [st|st st' st'' Hstep _ [IHb IHi]]; [done|].
    split.
    - rewrite IHb. by eapply worker_step_backlog.
    - intros Hinv. apply IHi. by eapply worker_step_invariant. }
  subst st1. simpl in *. apply Hi, Hinit. lia.
Qed.

(** X8. The worker asks the backend for a task only when it has room:
    from a state reached after [start] (the backlog not negative), a step
    that calls [get_task] starts with [concurrent_requests] strictly
    below [backlog]. *)
Theorem get_task_only_below_backlog w n w' n' :
  reach (w, n) →
  0 ≤ backlog w →
  step (w, n) (w', n') →
  existsb is_get_task (new_calls w w') = true →
  concurrent_requests w < backlog w.
Proof.
  intros Hreach Hbacklog Hstep.
  apply reachable_invariant in Hreach as (_ & Hlt & _); [|exact Hbacklog].
  simpl in Hlt.
  inversion Hstep as [w0 n0 task_id rest w1 Hloop Hrun
                     |w0 n0 rest fuel p w1 Hloop Hrun
                     |w0 n0 fuel p w1 Hrun
                     |w0 n0 before task after r w1 Hpool Hrun
                     |w0 n0]; subst.
  - unfold _done_task in Hrun. unfold_M. injection Hrun as <-.
    rewrite (new_calls_app _ _ []) by (simpl; by rewrite app_nil_r).
    discriminate.
  - apply may_pool_task_loop_frame in Hrun as (_ & _ & _ & (l & Hl & Hg) & _).
    simpl in Hl. rewrite (new_calls_app _ _ _ Hl), Hg. discriminate.
  - intros _. apply Hlt. discriminate.
  - destruct (_execute_task_run task
                (with_thread_pool (Some (before ++ after)) w))
      as (l & w1 & Hrun1 & Hl & _ & Hg & _).
    rewrite Hrun in Hrun1. injection Hrun1 as -> ->.
    simpl in Hl. rewrite (new_calls_app _ _ _ Hl), Hg. discriminate.
  - rewrite (new_calls_app _ _ []) by (simpl; by rewrite app_nil_r).
    discriminate.
Qed.

End accounting_proofs.

Lemma get_task_only_below_backlog_witness :
  let step_of := worker_step sample.PRECEDENCE_MAPPING sample.UNKNOWN_STATE
                   sample.registry sample.failure_str in
  let t := sample.task "H(x,1,2)" (Some states.PENDING) None in
  let w1 := (start (sample.world_queued t)).2 in
  let w2 := (may_pool_task 1 (with_event_loop [] w1)).2 in
  let w3 := (may_pool_task_resume 1 w2).2 in
  step_of (w2, 1%nat) (w3, 1%nat) ∧
  new_calls w2 w3 = [c_get_task None; c_apply_async "H(x,1,2)"] ∧
  backlog w2 = 2 ∧
  concurrent_requests w2 < backlog w2.
Proof.
  intros step_of t w1 w2 w3.
  assert (step_of (w1, 0%nat) (w2, 1%nat)) as H12.
  { apply (step_may_pool_task _ _ _ _ w1 0%nat [] 1%nat poll_suspended w2);
      reflexivity. }
  assert (step_of (w2, 1%nat) (w3, 1%nat)) as H23.
  { apply (step_resume _ _ _ _ w2 0%nat 1%nat poll_suspended w3).
    reflexivity. }
  split; [exact H23|]. split; [reflexivity|]. split; [reflexivity|].
  apply (get_task_only_below_backlog sample.PRECEDENCE_MAPPING
           sample.UNKNOWN_STATE sample.registry sample.failure_str
           w2 1%nat w3 1%nat).
  - exists w1. split.
    + exists (sample.world_queued t). repeat split; reflexivity.
    + eapply rtc_l; [exact H12|apply rtc_refl].
  - vm_compute. discriminate.
  - exact H23.
  - reflexivity.
Defined.

(** ** The executor and the worker over operations that can fail *)

(** With operations that never raise, the executor and the resumed
    generator are the ones above. *)
Lemma _execute_task_never_raising {S : Type} `{!TaskBackendImpl S}
    (PRECEDENCE_MAPPING : gmap string Z) (UNKNOWN_STATE : Z)
    (registry : gmap string Job.t) (failure_str : value → string)
    (task : Task.t) (w : world (S := S)) :
  raising._execute_task (TaskBackendRaising0 := never_raising)
      PRECEDENCE_MAPPING UNKNOWN_STATE registry failure_str task w
    = _execute_task PRECEDENCE_MAPPING UNKNOWN_STATE registry failure_str
        task w.
Proof. reflexivity. Qed.

Lemma may_pool_task_resume_never_raising {S : Type} `{!TaskBackendImpl S}
    (fuel : nat) (w : world (S := S)) :
  raising.may_pool_task_resume (TaskBackendRaising0 := never_raising) fuel w
    = may_pool_task_resume fuel w.
Proof. reflexivity. Qed.

Section raising_proofs.
Context {S : Type} `{!TaskBackendRaising S}.
Variable PRECEDENCE_MAPPING : gmap string Z.
Variable UNKNOWN_STATE : Z.
Variable registry : gmap string Job.t.
Variable failure_str : value → string.
Implicit Types (w : world (S := S)) (task : Task.t).

Local Abbreviation execute :=
  (raising._execute_task PRECEDENCE_MAPPING UNKNOWN_STATE registry
     failure_str).
Local Abbreviation step :=
  (raising.worker_step PRECEDENCE_MAPPING UNKNOWN_STATE registry
     failure_str).
Local Abbreviation reach :=
  (raising.reachable PRECEDENCE_MAPPING UNKNOWN_STATE registry failure_str).

(** What the executor leaves alone between two states, with the calls
    made in between. *)
Local Abbreviation frame w w' l :=
  (calls w' = calls w ++ l ∧
   event_loop w' = event_loop w ∧
   thread_pool w' = thread_pool w ∧
   concurrent_requests w' = concurrent_requests w ∧
   backlog w' = backlog w ∧
   running w' = running w).

Lemma raising_called_frame {A} c (operation : S → (exn + A) * S) w :
  ∃ r w', raising.called c operation w = (r, w') ∧ frame w w' [c].
Proof.
  unfold raising.called. destruct (operation (store w)) as [[e|a] s];
    simpl; eexists _, _; (split; [reflexivity|]); done.
Qed.

Lemma raising_try_frame task consumer time_ended w :
  ∃ r l w',
    raising._execute_task_try PRECEDENCE_MAPPING UNKNOWN_STATE task consumer
      time_ended w = (r, w') ∧ frame w w' l.
Proof.
  unfold raising._execute_task_try, precedence, call_job, raising.save_task,
    raising.on_start_task, raising.called, datetime_now.
  unfold_M.
  destruct (consumer_job consumer) as [job|];
    [destruct (PRECEDENCE_MAPPING !! states.STARTED) as [started|];
     [destruct (Task.status_code PRECEDENCE_MAPPING UNKNOWN_STATE task
                  >? started);
      [destruct (expired task time_ended);
       [|cbn [fst snd];
         destruct (raising_save_task _ _ _) as [[?|?] ?]; cbn [fst snd];
         [|destruct (raising_on_start_task _ _) as [[?|?] ?]; cbn [fst snd];
           [|destruct (Job.call job (Task.args task) (Task.kwargs task))]]]
      |]|]|];
    simpl; rewrite <- ?app_assoc; simpl;
    (eexists _, _, _; split; [reflexivity|]; simpl;
     split; [first [reflexivity | symmetry; apply app_nil_r]|];
     repeat split; reflexivity).
Qed.

Lemma raising_except_run r time_ended consumer w :
  ∃ result status time_ended' consumer' l w',
    raising._execute_task_except r time_ended consumer w
      = (Ok (result, status, time_ended', consumer'), w') ∧
    (status = None ∨ status = Some states.REVOKED) ∧
    frame w w' l.
Proof.
  unfold raising._execute_task_except. unfold_M.
  destruct r as [[[result time_ended'] consumer']|[]]; simpl;
    (eexists _, _, _, _, _, _; split; [reflexivity|]; simpl;
     split; [auto|];
     split; [first [reflexivity | symmetry; apply app_nil_r]|];
     repeat split; reflexivity).
Qed.

Lemma raising_end_run task_id result status time_ended consumer w :
  status = None ∨ status = Some states.REVOKED →
  (∀ c, consumer = Some c → consumer_task_id c = task_id) →
  ∃ r l w',
    raising._execute_task_end failure_str task_id result status time_ended
      consumer w = (r, w') ∧
    calls w' = calls w ++ l ∧
    thread_pool w' = thread_pool w ∧
    concurrent_requests w' = concurrent_requests w ∧
    backlog w' = backlog w ∧
    running w' = running w ∧
    ((r = Ok (VStr task_id) ∧
      list.last l = Some (c_call_soon_threadsafe (cb_done_task task_id)) ∧
      event_loop w' = event_loop w ++ [cb_done_task task_id]) ∨
     (∃ e, r = Exc e ∧ event_loop w' = event_loop w ∧
           ((∃ time_ended status result,
               status ∈ states.READY_STATES ∧
               list.last l
                 = Some (c_save_task task_id
                           (finished_fields time_ended status result))) ∨
            list.last l = Some (c_on_finish_task task_id)))).
Proof.
  assert (states.REVOKED ∈ states.READY_STATES) as Hrev
    by apply list_elem_of_here.
  assert (states.FAILURE ∈ states.READY_STATES) as Hfail
    by apply list_elem_of_further, list_elem_of_here.
  assert (states.SUCCESS ∈ states.READY_STATES) as Hsucc
    by (do 2 apply list_elem_of_further; apply list_elem_of_here).
  intros Hstatus Hid.
  unfold raising._execute_task_end, raising.save_task,
    raising.on_finish_task, raising.called, call_soon_threadsafe.
  unfold_M.
  destruct consumer as [c|]; [rewrite (Hid c eq_refl)|]; clear Hid;
    destruct (is_failure result);
    destruct Hstatus as [-> | ->]; cbn [fst snd];
    try (destruct (raising_save_task _ _ _) as [[?|?] ?]; cbn [fst snd];
         [|destruct (raising_on_finish_task _ _) as [[?|?] ?];
           cbn [fst snd]]);
    cbn -[finished_fields]; rewrite <- ?app_assoc; cbn -[finished_fields];
    (eexists _, _, _; split; [reflexivity|]; cbn -[finished_fields];
     split; [reflexivity|]; do 4 (split; [reflexivity|]);
     first [ left; repeat split; reflexivity
           | right; eexists; split; [reflexivity|]; split; [reflexivity|];
             first [ right; reflexivity
                   | left; eexists _, _, _; split; [|reflexivity];
                     assumption ] ]).
Qed.

(** A run of the executor, whatever the task: how it ends and what it
    leaves alone. *)
Lemma raising_execute_task_run task w :
  ∃ r l w',
    execute task w = (r, w') ∧
    calls w' = calls w ++ l ∧
    thread_pool w' = thread_pool w ∧
    concurrent_requests w' = concurrent_requests w ∧
    backlog w' = backlog w ∧
    running w' = running w ∧
    ((r = Ok (VStr (Task.id task)) ∧
      list.last l
        = Some (c_call_soon_threadsafe (cb_done_task (Task.id task))) ∧
      event_loop w' = event_loop w ++ [cb_done_task (Task.id task)]) ∨
     (∃ e, r = Exc e ∧ event_loop w' = event_loop w ∧
           raising.ended_at_final_call task l)).
Proof.
  unfold raising.ended_at_final_call, raising._execute_task.
  set (consumer := {| consumer_task_id := Task.id task;
                      consumer_job := Task.name task ≫= (registry !!.) |}).
  unfold mbind at 1, M_bind at 1, bind at 1, datetime_now at 1.
  set (w0 := with_clock _ w).
  unfold mbind at 1, M_bind at 1, bind at 1, try.
  destruct (raising_try_frame task consumer (clock w 0%nat) w0)
    as (r1 & l1 & w1 & Htry & Hl1 & He1 & Hp1 & Hc1 & Hb1 & Hr1).
  rewrite Htry.
  set (r1' := match r1 with
              | Ok a => inl a
              | Exc e => inr e
              | Diverges => inr TaskTimeout
              end).
  assert (r1 ≠ Diverges) as Hnd.
  { intros ->. revert Htry. clear.
    unfold raising._execute_task_try, precedence, call_job,
      raising.save_task, raising.on_start_task, raising.called,
      datetime_now.
    unfold_M.
    repeat (case_match; simpl; try discriminate). }
  destruct (raising_except_run r1' (clock w 0%nat) consumer w1)
    as (result & status & te & c' & l2 & w2 & Hexc & Hstatus
        & Hl2 & He2 & Hp2 & Hc2 & Hb2 & Hr2).
  assert (∀ c, c' = Some c → consumer_task_id c = Task.id task) as Hid.
  { revert Hexc Htry. unfold r1'. clear -Hnd.
    unfold raising._execute_task_except, raising._execute_task_try,
      precedence, call_job, raising.save_task, raising.on_start_task,
      raising.called, datetime_now.
    unfold_M.
    destruct r1 as [[[? ?] ?]|[]|]; try done; simpl;
      try (intros [= _ _ _ <- _] _ c [= <-]; reflexivity).
    intros [= _ _ _ <- _].
    repeat (case_match; simpl; try discriminate);
      intros [= _ _ <- _] c [= <-]; reflexivity. }
  destruct (raising_end_run (Task.id task) result status te c' w2
              Hstatus Hid)
    as (r3 & l3 & w3 & Hend & Hl3 & Hp3 & Hc3 & Hb3 & Hr3 & Hfinal).
  exists r3, (l1 ++ l2 ++ l3), w3.
  assert (calls w0 = calls w) as Hw0 by reflexivity.
  assert (event_loop w0 = event_loop w ∧ thread_pool w0 = thread_pool w ∧
          concurrent_requests w0 = concurrent_requests w ∧
          backlog w0 = backlog w ∧ running w0 = running w)
    as (He0 & Hp0 & Hc0 & Hb0 & Hr0) by done.
  split.
  { destruct r1 as [a|e|]; [| |done]; unfold r1' in Hexc;
      unfold mbind at 1, M_bind at 1, bind at 1;
      rewrite Hexc; exact Hend. }
  split; [by rewrite Hl3, Hl2, Hl1, Hw0, <- !app_assoc|].
  do 4 (split; [congruence|]).
  assert (l3 ≠ [] → list.last (l1 ++ l2 ++ l3) = list.last l3) as Hlast.
  { intros Hne. rewrite !last_app.
    destruct (list.last l3) eqn:E; [done|].
    by apply last_None in E. }
  destruct Hfinal as [(-> & Hlast3 & Hel)|(e & -> & Hel & Hlast3)].
  - left. split; [done|]. split.
    + rewrite Hlast; [done|]. by intros ->.
    + rewrite Hel. congruence.
  - right. exists e. split; [done|]. split; [congruence|].
    destruct Hlast3 as [(t1 & s1 & v1 & Hin & Hlast3)|Hlast3].
    + left. exists t1, s1, v1. split; [done|].
      rewrite Hlast; [done|]. by intros ->.
    + right. rewrite Hlast; [done|]. by intros ->.
Qed.

Lemma may_pool_task_loop_no_exc fuel w e w' :
  may_pool_task_loop fuel w ≠ (Exc e, w').
Proof.
  revert w. induction fuel as [|fuel IH]; intros w; simpl.
  { unfold diverge. discriminate. }
  unfold call_soon. unfold_M.
  destruct (running w); [destruct (thread_pool w)|]; try discriminate.
  - destruct (concurrent_requests w <? backlog w); discriminate.
  - apply IH.
Qed.

Lemma pollers_cancel before after :
  (pollers (before ++ after)
     ≤ pollers (before ++ cb_may_pool_task :: after))%nat.
Proof. rewrite !pollers_app. simpl. lia. Qed.

Lemma done_tasks_cancel before after :
  done_tasks (before ++ cb_may_pool_task :: after)
    = done_tasks (before ++ after).
Proof. by rewrite !done_tasks_app. Qed.

Lemma raising_worker_step_accounts st st' :
  step st st' → raising.worker_accounts st → raising.worker_accounts st'.
Proof.
  unfold raising.worker_accounts.
  destruct 1 as [w n task_id rest w' Hloop Hrun
                |w n rest fuel p w' Hloop Hrun
                |w n fuel p w' Hrun
                |w n fuel e w' Hrun
                |w n before task after r w' Hpool Hrun
                |w n
                |w n before after w' Hloop Hrun
                |w n w' Hrun]; simpl; intros [(q & Hq & Hc) Hone].
  - unfold _done_task in Hrun. unfold_M. injection Hrun as <-.
    rewrite Hloop in Hone, Hc. simpl in *.
    split; [|exact Hone]. exists q. split; [exact Hq|].
    unfold done_tasks in *. simpl in *. lia.
  - rewrite Hloop in Hone, Hc. simpl in Hone.
    apply may_pool_task_loop_frame in Hrun as (Hp & Hcr & _ & _ & Hel).
    simpl in *. rewrite Hp, Hcr. split.
    + exists q. split; [exact Hq|].
      destruct p; [destruct Hel as [_ ->]|rewrite Hel, done_tasks_app];
        unfold done_tasks in *; simpl in *; rewrite ?length_app; simpl; lia.
    + destruct p; [destruct Hel as [_ ->]|rewrite Hel, pollers_app];
        simpl; lia.
  - unfold raising.may_pool_task_resume, raising.get_task, raising.called,
      apply_async in Hrun.
    revert Hrun. unfold_M.
    destruct (raising_get_task None (store w)) as [[e|[task|]] s]; simpl;
      [discriminate|..]; intros Hrun;
      apply may_pool_task_loop_frame in Hrun as (Hp & Hcr & _ & _ & Hel);
      simpl in *; rewrite Hp, Hcr, ?Hq; simpl.
    + split.
      * exists (q ++ [task]). split; [reflexivity|].
        destruct p; [destruct Hel as [_ ->]|rewrite Hel, done_tasks_app];
          rewrite ?length_app; simpl; lia.
      * destruct p; [destruct Hel as [_ ->]|rewrite Hel, pollers_app];
          simpl; lia.
    + split.
      * exists q. split; [reflexivity|].
        destruct p; [destruct Hel as [_ ->]|rewrite Hel, done_tasks_app];
          rewrite ?length_app; simpl; lia.
      * destruct p; [destruct Hel as [_ ->]|rewrite Hel, pollers_app];
          simpl; lia.
  - unfold raising.may_pool_task_resume, raising.get_task, raising.called,
      apply_async in Hrun.
    revert Hrun. unfold_M.
    destruct (raising_get_task None (store w)) as [[e0|[task|]] s]; simpl.
    + intros [= _ <-]. simpl. split; [|lia]. by exists q.
    + intros Hrun. by apply may_pool_task_loop_no_exc in Hrun.
    + intros Hrun. by apply may_pool_task_loop_no_exc in Hrun.
  - destruct (raising_execute_task_run task
                (with_thread_pool (Some (before ++ after)) w))
      as (r1 & l & w1 & Hrun1 & _ & Hp & Hcr & _ & _ & Hend).
    rewrite Hrun in Hrun1. injection Hrun1 as -> ->.
    simpl in *. rewrite Hp, Hcr.
    rewrite Hpool in Hq. injection Hq as <-.
    rewrite length_app in Hc. simpl in Hc.
    destruct Hend as [(_ & _ & Hel)|(e & _ & Hel & _)]; rewrite Hel.
    + rewrite done_tasks_app, pollers_app. simpl.
      split; [|lia]. exists (before ++ after). split; [reflexivity|].
      rewrite !length_app. simpl. lia.
    + split; [|lia]. exists (before ++ after). split; [reflexivity|].
      rewrite !length_app. lia.
  - split; [|exact Hone]. by exists q.
  - unfold raising.close in Hrun. unfold_M. injection Hrun as <-. simpl.
    rewrite Hloop in Hone, Hc. rewrite done_tasks_cancel in Hc.
    pose proof (pollers_cancel before after).
    split; [|lia]. by exists q.
  - unfold raising.close in Hrun. unfold_M. injection Hrun as <-. simpl.
    split; [|exact Hone]. by exists q.
Qed.

Lemma raising_reachable_accounts st : reach st → raising.worker_accounts st.
Proof.
  intros (w1 & (w0 & Hzero & Hempty & Hstart) & Hsteps).
  assert (raising.worker_accounts (w1, 0%nat)) as Hinit.
  { unfold start, call_soon in Hstart. revert Hstart. unfold_M.
    intros [= <-]. unfold raising.worker_accounts. simpl.
    rewrite Hzero, Hempty. simpl. split; [|done].
    exists []. split; reflexivity. }
  clear Hzero Hempty Hstart.
  remember (w1, 0%nat) as st1 eqn:Hst1. clear Hst1.
  induction Hsteps as [st|st st' st'' Hstep _ IH]; [done|].
  apply IH. by eapply raising_worker_step_accounts.
Qed.

(** X6. In every state the worker can reach after [start], also when
    operations of the backend raise and when the worker is closed, the
    counter of concurrent requests is at least the number of tasks
    submitted to the thread pool and not yet run plus the number of
    [_done_task] callbacks waiting in the event loop: the poller adds one
    for each task it hands to the pool, and only a [_done_task] callback
    takes one off.  (It is more when a run of the executor ended with an
    exception: that run posted no callback.)  So the counter never goes
    below zero, and the thread pool is there. *)
Theorem concurrent_requests_accounts w n :
  raising.reachable PRECEDENCE_MAPPING UNKNOWN_STATE registry failure_str
    (w, n) →
  ∃ q, thread_pool w = Some q ∧
       Z.of_nat (length q) + Z.of_nat (length (done_tasks (event_loop w)))
         ≤ concurrent_requests w ∧
       0 ≤ concurrent_requests w.
Proof.
  intros Hreach.
  apply raising_reachable_accounts in Hreach as [(q & Hq & Hc) _].
  simpl in *. exists q. split; [exact Hq|]. lia.
Qed.

(** X7. In every state the worker can reach after [start], also when
    operations of the backend raise and when the worker is closed, there
    is at most one poller: the number of [may_pool_task] generators
    suspended at their [yield] plus the number of [may_pool_task] calls
    queued on the event loop is at most one.  The poller is never
    doubled.  (It can be lost: when [get_task] raises into the generator,
    or when [close] cancels the queued call.) *)
Theorem at_most_one_poller w n :
  raising.reachable PRECEDENCE_MAPPING UNKNOWN_STATE registry failure_str
    (w, n) →
  (n + pollers (event_loop w) ≤ 1)%nat.
Proof.
  intros Hreach. by apply raising_reachable_accounts in Hreach as [_ Hone].
Qed.
End raising_proofs.

Lemma concurrent_requests_accounts_witness :
  let step_of := raising.worker_step (TaskBackendRaising0 := no_results)
                   sample.PRECEDENCE_MAPPING sample.UNKNOWN_STATE
                   sample.registry sample.failure_str in
  let t := sample.task "H(x,1,2)" (Some states.PENDING) None in
  let w1 := (start (sample.world_queued t)).2 in
  let w2 := (may_pool_task 1 (with_event_loop [] w1)).2 in
  let w3 := (raising.may_pool_task_resume (TaskBackendRaising0 := no_results)
               1 w2).2 in
  let run := raising._execute_task (TaskBackendRaising0 := no_results)
               sample.PRECEDENCE_MAPPING sample.UNKNOWN_STATE
               sample.registry sample.failure_str t
               (with_thread_pool (Some []) w3) in
  step_of (w1, 0%nat) (w2, 1%nat) ∧
  step_of (w2, 1%nat) (w3, 1%nat) ∧
  step_of (w3, 1%nat) (run.2, 1%nat) ∧
  run.1 = Exc (JobError "the store is out of reach") ∧
  thread_pool run.2 = Some [] ∧
  event_loop run.2 = [] ∧
  concurrent_requests run.2 = 1 ∧
  ∃ q, thread_pool run.2 = Some q ∧
       Z.of_nat (length q)
         + Z.of_nat (length (done_tasks (event_loop run.2)))
         ≤ concurrent_requests run.2 ∧
       0 ≤ concurrent_requests run.2.
Proof.
  intros step_of t w1 w2 w3 run.
  assert (step_of (w1, 0%nat) (w2, 1%nat)) as H12.
  { apply (raising.step_may_pool_task _ _ _ _ w1 0%nat [] 1%nat
             poll_suspended w2); reflexivity. }
  assert (step_of (w2, 1%nat) (w3, 1%nat)) as H23.
  { apply (raising.step_resume _ _ _ _ w2 0%nat 1%nat poll_suspended w3).
    reflexivity. }
  assert (step_of (w3, 1%nat) (run.2, 1%nat)) as H34.
  { apply (raising.step_execute _ _ _ _ w3 1%nat [] t [] run.1 run.2);
      [reflexivity|]. apply surjective_pairing. }
  split; [exact H12|]. split; [exact H23|]. split; [exact H34|].
  split; [vm_compute; reflexivity|]. split; [vm_compute; reflexivity|].
  split; [vm_compute; reflexivity|]. split; [vm_compute; reflexivity|].
  apply (concurrent_requests_accounts (TaskBackendRaising0 := no_results)
           sample.PRECEDENCE_MAPPING sample.UNKNOWN_STATE sample.registry
           sample.failure_str run.2 1%nat).
  exists w1. split.
  - exists (sample.world_queued t). repeat split; reflexivity.
  - eapply rtc_l; [exact H12|]. eapply rtc_l; [exact H23|].
    eapply rtc_l; [exact H34|]. apply rtc_refl.
Defined.

Lemma at_most_one_poller_witness :
  let step_of := raising.worker_step (TaskBackendRaising0 := no_results)
                   sample.PRECEDENCE_MAPPING sample.UNKNOWN_STATE
                   sample.registry sample.failure_str in
  let t := sample.task "H(x,1,2)" (Some states.PENDING) None in
  let w1 := (start (sample.world_queued t)).2 in
  let w2 := (raising.close (with_event_loop [] w1)).2 in
  event_loop w1 = [cb_may_pool_task] ∧
  step_of (w1, 0%nat) (w2, 0%nat) ∧
  (0 + pollers (event_loop w1) ≤ 1)%nat ∧
  pollers (event_loop w2) = 0%nat ∧
  (0 + pollers (event_loop w2) ≤ 1)%nat.
Proof.
  intros step_of t w1 w2.
  assert (step_of (w1, 0%nat) (w2, 0%nat)) as H12.
  { apply (raising.step_close_cancels _ _ _ _ w1 0%nat [] [] w2);
      reflexivity. }
  assert (started w1) as Hstarted.
  { exists (sample.world_queued t). repeat split; reflexivity. }
  split; [reflexivity|]. split; [exact H12|]. split; [|split].
  - apply (at_most_one_poller (TaskBackendRaising0 := no_results)
             sample.PRECEDENCE_MAPPING sample.UNKNOWN_STATE sample.registry
             sample.failure_str w1 0%nat).
    exists w1. split; [exact Hstarted|apply rtc_refl].
  - reflexivity.
  - apply (at_most_one_poller (TaskBackendRaising0 := no_results)
             sample.PRECEDENCE_MAPPING sample.UNKNOWN_STATE sample.registry
             sample.failure_str w2 0%nat).
    exists w1. split; [exact Hstarted|].
    eapply rtc_l; [exact H12|apply rtc_refl].
Defined.

(** ** The scheduler, further *)

Section tick_more_proofs.
Context {S : Type} `{!TaskBackendImpl S}.
Variable registry : gmap string Job.t.
Variable remaining : Z → Z → Z → Z.
Variable timedelta_seconds : Z → Z.
Implicit Types (w : world (S := S)) (key : string).

Local Abbreviation tick' := (tick registry remaining timedelta_seconds).
Local Abbreviation tick_loop' :=
  (tick_loop registry remaining timedelta_seconds).
Local Abbreviation tick_entry' :=
  (tick_entry registry remaining timedelta_seconds).
Local Abbreviation waiting := (waiting_time timedelta_seconds).

Ltac unfold_bind :=
  unfold mbind, M_bind, mret, M_ret, bind, ret, raise, try.

Lemma is_due_seconds fuel k entry now w due next w' :
  is_due remaining timedelta_seconds fuel k entry now w
    = (Ok (due, next), w') →
  ∃ d, next = timedelta_seconds d.
Proof.
  unfold is_due.
  destruct (scheduled_last_run_at timedelta_seconds fuel entry)
    as [[last entry']| |]; [|by unfold raise|by unfold diverge].
  unfold Schedule_is_due, remaining_estimate, now_or_datetime_now,
    set_entry, modify, datetime_now.
  unfold_bind.
  destruct now as [n|]; simpl;
    destruct (timedelta_seconds _ =? 0); intros [= _ <- _]; eauto.
Qed.

Lemma tick_entry_times fuel now k remaining_times w l w' :
  tick_entry' fuel now k remaining_times w = (Ok l, w') →
  Forall waiting remaining_times → Forall waiting l.
Proof.
  unfold tick_entry.
  unfold mbind at 1, M_bind at 1, bind at 1, get.
  destruct (entries w ≫= (.!! k)) as [entry|]; [|by intros [= <- _]].
  unfold mbind at 1, M_bind at 1, bind at 1.
  destruct (is_due remaining timedelta_seconds fuel k entry now w)
    as [[[due next]|e|] w1] eqn:Hdue; [|done|done].
  apply is_due_seconds in Hdue as [d ->].
  unfold mbind at 1, M_bind at 1, bind at 1.
  match goal with |- context [let '(_, _) := ?m w1 in _] =>
    destruct (m w1) as [[[]|e|] w2] end; [|done|done].
  destruct (timedelta_seconds d =? 0) eqn:Hzero; intros [= <- _] Hall;
    [exact Hall|].
  apply Forall_app. split; [exact Hall|].
  repeat constructor; [lia|by exists d].
Qed.

Lemma tick_loop_times fuel now keys remaining_times w l w' :
  tick_loop' fuel now keys remaining_times w = (Ok l, w') →
  Forall waiting remaining_times → Forall waiting l.
Proof.
  revert remaining_times w.
  induction keys as [|k keys IH]; intros remaining_times w.
  { by intros [= <- _]. }
  cbn [tick_loop]. unfold_bind.
  destruct (tick_entry' fuel now k remaining_times w)
    as [[l1|e|] w1] eqn:Hentry; [| |done].
  - intros Hloop Hall. eapply IH; [exact Hloop|].
    by eapply tick_entry_times.
  - unfold log. by intros [= <- _].
Qed.

Lemma list_min_nonneg l :
  (∀ d, 0 ≤ timedelta_seconds d) → Forall waiting l → 0 ≤ list_min l.
Proof.
  intros Hts Hall. destruct Hall as [|x l [_ [d ->]] Hall]; [done|].
  simpl. induction Hall as [|y l [_ [d' ->]] Hall IH]; simpl; [apply Hts|].
  specialize (Hts d'). lia.
Qed.

(** X11. A tick of a backend that schedules never moves [next_run] into
    the past: with [timedelta_seconds] giving no negative number of
    seconds, [next_run] after the tick is at or after the time the tick
    ran at, the [now] it was given or else a reading of the clock. *)
Theorem tick_next_run fuel now w w' :
  registry_wf registry →
  entries_wf w →
  (∀ d, 0 ≤ timedelta_seconds d) →
  schedule_periodic w = true →
  tick' fuel now w = (Ok tt, w') →
  ∃ t, match now with
       | Some n => t = n
       | None => ∃ i, t = clock w i
       end ∧
       t ≤ next_run w'.
Proof.
  intros Hreg Hwf Hts Hperiodic. unfold tick.
  unfold mbind at 1, M_bind at 1, bind at 1, get.
  rewrite Hperiodic. cbn [negb].
  unfold mbind at 1, M_bind at 1, bind at 1, get.
  assert (∀ r w1,
            match entries w with
            | Some es => tick_loop' fuel now (map_to_list es).*1 []
            | None => log (c_logger "exception");; mret []
            end w = (Ok r, w1) →
            Forall waiting r ∧
            ∃ j, ∀ n, clock w1 n = clock w (n + j)%nat) as Hloop.
  { intros r w1. destruct (entries w) as [es|] eqn:Hes.
    - intros Hrun. split; [by eapply tick_loop_times|].
      destruct (tick_loop_run registry remaining timedelta_seconds fuel now
                  (map_to_list es).*1 [] w "" Hreg Hwf
                  (NoDup_fst_map_to_list es)) as (r' & w1' & Hrun' & Hturn).
      rewrite Hrun in Hrun'. injection Hrun' as <- <-.
      assert (∃ f a c, stretch "" f a c w w1)
        as (f & a & c & _ & l & j & _ & Hclock & _).
      { case_decide; [destruct Hturn as (f & c & Hs & _)|]; eauto. }
      eauto.
    - unfold_bind. unfold log. intros [= <- <-]. split; [constructor|].
      exists 0%nat. intros n. simpl. f_equal. lia. }
  unfold mbind at 1, M_bind at 1, bind at 1.
  match goal with |- context [let '(_, _) := ?m w in _] =>
    destruct (m w) as [[r|e|] w1] eqn:Hrun end; [|done|done].
  destruct (Hloop r w1 eq_refl) as (Hall & j & Hclock).
  pose proof (list_min_nonneg r Hts Hall) as Hmin.
  unfold_bind. unfold now_or_datetime_now, modify, datetime_now.
  destruct now as [n|]; intros [= <-]; simpl.
  - exists n. split; [done|]. destruct r; lia.
  - exists (clock w1 0%nat). split; [rewrite Hclock; eauto|].
    destruct r; lia.
Qed.

(** X12. An entry that a tick does not fire is left as it was: no task is
    created for its job in that tick, and its run count and last run are
    the ones it had. *)
Theorem tick_leaves_unfired_entry fuel now w key :
  registry_wf registry →
  entries_wf w →
  let w' := (tick' fuel now w).2 in
  fired key (new_calls w w') = false →
  created key (new_calls w w') = false ∧
  entry_track key w' = entry_track key w.
Proof.
  intros Hreg Hwf w'.
  destruct (tick_run registry remaining timedelta_seconds fuel now w key
              Hreg Hwf)
    as (r & w1 & Hrun & f & cr & (_ & l & j & Hcalls & _ & Hf & Hcr & Hadv)
          & Hcf).
  unfold w'. rewrite Hrun. cbn [snd].
  rewrite (new_calls_app _ _ _ Hcalls), Hcr, Hf. intros ->.
  destruct cr; [by specialize (Hcf eq_refl)|]. by split.
Qed.
End tick_more_proofs.

Lemma tick_next_run_witness :
  let w := sample.world_periodic in
  let w' := (tick sample.registry sample.remaining sample.timedelta_seconds
               10 (Some 1000) w).2 in
  schedule_periodic w = true ∧
  next_run w' = 1060 ∧
  ∃ t, t = 1000 ∧ t ≤ next_run w'.
Proof.
  intros w w'.
  split; [reflexivity|]. split; [vm_compute; reflexivity|].
  apply (tick_next_run sample.registry sample.remaining
           sample.timedelta_seconds 10 (Some 1000) w w'
           sample_registry_wf sample_entries_wf).
  - intros d. unfold sample.timedelta_seconds. lia.
  - reflexivity.
  - vm_compute. reflexivity.
Defined.

Lemma tick_leaves_unfired_entry_witness :
  let w := sample.world_periodic in
  let w' := (tick sample.registry sample.remaining sample.timedelta_seconds
               10 (Some 996) w).2 in
  fired "beat" (new_calls w w') = false ∧
  created "beat" (new_calls w w') = false ∧
  entry_track "beat" w' = Some (0, 995).
Proof.
  intros w w'.
  assert (fired "beat" (new_calls w w') = false) as Hf
    by (vm_compute; reflexivity).
  split; [exact Hf|].
  exact (tick_leaves_unfired_entry sample.registry sample.remaining
           sample.timedelta_seconds 10 (Some 996) w "beat"
           sample_registry_wf sample_entries_wf Hf).
Defined.

(** ** The anchor of a schedule *)

Section anchor_proofs.
Variable timedelta_seconds : Z → Z.

Local Abbreviation times_of' := (times_of timedelta_seconds).

(** The first loop stops above [last_run_at], a whole number of cadences
    further on, and no more than one cadence above it unless it started
    there. *)
Lemma anchor_up_result fuel anchor last_run_at run_every a :
  anchor_up fuel anchor last_run_at run_every = Some a →
  last_run_at < a ∧ (a = anchor ∨ a - run_every ≤ last_run_at) ∧
  ∃ k, 0 ≤ k ∧ a = anchor + k * run_every.
Proof.
  revert anchor. induction fuel as [|fuel IH]; intros anchor; simpl; [done|].
  destruct (anchor <=? last_run_at) eqn:Hle.
  - intros Hup. apply IH in Hup as (Hlt & Hnear & k & Hk & ->).
    split; [done|]. split; [right; lia|]. exists (k + 1). split; lia.
  - intros [= <-]. split; [lia|]. split; [by left|]. exists 0. lia.
Qed.

(** The second loop stops at or below [last_run_at]; entered above it, it
    stops less than one cadence below. *)
Lemma anchor_down_result fuel anchor last_run_at run_every a :
  0 < run_every →
  last_run_at < anchor →
  anchor_down fuel anchor last_run_at run_every = Some a →
  a ≤ last_run_at < a + run_every ∧ ∃ k, 0 ≤ k ∧ a = anchor - k * run_every.
Proof.
  intros Hr. revert anchor.
  induction fuel as [|fuel IH]; intros anchor Hgt; simpl; [done|].
  assert ((anchor >? last_run_at) = true) as -> by lia.
  destruct (decide (last_run_at < anchor - run_every)) as [Hstill|Hstop].
  - intros Hdown. apply IH in Hdown as (Hin & k & Hk & ->); [|done].
    split; [done|]. exists (k + 1). split; lia.
  - destruct fuel as [|fuel]; simpl; [done|].
    assert ((anchor - run_every >? last_run_at) = false) as -> by lia.
    intros [= <-]. split; [lia|]. exists 1. lia.
Qed.

Lemma anchor_up_fuel fuel anchor last_run_at run_every :
  0 < run_every →
  (Z.to_nat (last_run_at - anchor + 1) < fuel)%nat →
  is_Some (anchor_up fuel anchor last_run_at run_every).
Proof.
  intros Hr. revert anchor.
  induction fuel as [|fuel IH]; intros anchor Hfuel; simpl; [lia|].
  destruct (anchor <=? last_run_at) eqn:Hle; [|by eexists].
  apply IH. lia.
Qed.

Lemma anchor_down_fuel fuel anchor last_run_at run_every :
  0 < run_every →
  (Z.to_nat (anchor - last_run_at) < fuel)%nat →
  is_Some (anchor_down fuel anchor last_run_at run_every).
Proof.
  intros Hr. revert anchor.
  induction fuel as [|fuel IH]; intros anchor Hfuel; simpl; [lia|].
  destruct (anchor >? last_run_at) eqn:Hgt; [|by eexists].
  apply IH. lia.
Qed.

(** The two ways [scheduled_last_run_at] ends for an entry with an
    anchor and a positive cadence. *)
Lemma scheduled_last_run_at_cases fuel self anchor a self' :
  SchedulerEntry.anchor self = Some anchor →
  0 < SchedulerEntry.run_every self →
  scheduled_last_run_at timedelta_seconds fuel self = Ok (a, self') →
  (times_of' self anchor = 0 ∧ a = anchor ∧ self' = self) ∨
  (times_of' self anchor ≠ 0 ∧
   a ≤ SchedulerEntry.last_run_at self < a + SchedulerEntry.run_every self ∧
   (a - anchor) mod SchedulerEntry.run_every self = 0 ∧
   self' = SchedulerEntry.set_anchor self a).
Proof.
  intros Hanchor Hr. unfold scheduled_last_run_at. rewrite Hanchor.
  destruct (timedelta_seconds (SchedulerEntry.run_every self) =? 0); [done|].
  fold (times_of' self anchor).
  destruct (times_of' self anchor =? 0) eqn:Htimes.
  { intros [= <- <-]. left. repeat split. lia. }
  destruct (anchor_up _ _ _ _) as [up|] eqn:Hup; [|done].
  destruct (anchor_down _ _ _ _) as [down|] eqn:Hdown; [|done].
  intros [= <- <-]. right.
  apply anchor_up_result in Hup as (Hlt & _ & k1 & Hk1 & ->).
  apply anchor_down_result in Hdown as (Hin & k2 & Hk2 & ->); [|done..].
  split; [lia|]. split; [done|]. split; [|done].
  replace (anchor + times_of' self anchor * SchedulerEntry.run_every self
           + k1 * SchedulerEntry.run_every self
           - k2 * SchedulerEntry.run_every self - anchor)
    with ((times_of' self anchor + k1 - k2) * SchedulerEntry.run_every self)
    by lia.
  apply Z_mod_mult.
Qed.

(** X13. For an entry with an anchor and a positive cadence,
    [scheduled_last_run_at] results in the anchor itself, nothing changed,
    when no whole cadence lies between the anchor and the last run; and
    otherwise in the one point of the anchor's grid (the anchor plus or
    minus whole cadences) that lies at or before the last run and less
    than one cadence before it, which it also stores as the schedule's new
    anchor. *)
Theorem scheduled_last_run_at_aligned fuel self anchor a self' :
  SchedulerEntry.anchor self = Some anchor →
  0 < SchedulerEntry.run_every self →
  scheduled_last_run_at timedelta_seconds fuel self = Ok (a, self') →
  (times_of' self anchor = 0 ∧ a = anchor ∧ self' = self) ∨
  (times_of' self anchor ≠ 0 ∧
   a ≤ SchedulerEntry.last_run_at self < a + SchedulerEntry.run_every self ∧
   (a - anchor) mod SchedulerEntry.run_every self = 0 ∧
   SchedulerEntry.anchor self' = Some a ∧
   SchedulerEntry.run_every self' = SchedulerEntry.run_every self ∧
   SchedulerEntry.last_run_at self' = SchedulerEntry.last_run_at self ∧
   SchedulerEntry.total_run_count self'
     = SchedulerEntry.total_run_count self ∧
   SchedulerEntry.name self' = SchedulerEntry.name self).
Proof.
  intros Hanchor Hr Hrun.
  destruct (scheduled_last_run_at_cases fuel self anchor a self'
              Hanchor Hr Hrun)
    as [Hsame|(Htimes & Hin & Hgrid & ->)]; [by left|right].
  repeat split; try done; apply Hin.
Qed.

(** X14. With a positive cadence whose number of seconds is not zero,
    the two loops of [scheduled_last_run_at] end: there is a number of
    turns that is enough, and from it on the property has a result. *)
Theorem scheduled_last_run_at_terminates self :
  0 < SchedulerEntry.run_every self →
  timedelta_seconds (SchedulerEntry.run_every self) ≠ 0 →
  ∃ fuel0, ∀ fuel, (fuel0 ≤ fuel)%nat →
    ∃ a self', scheduled_last_run_at timedelta_seconds fuel self
                 = Ok (a, self').
Proof.
  intros Hr Hts. unfold scheduled_last_run_at.
  destruct (SchedulerEntry.anchor self) as [anchor|];
    [|exists 0%nat; intros; by eexists _, _].
  fold (times_of' self anchor).
  set (last := SchedulerEntry.last_run_at self).
  set (r := SchedulerEntry.run_every self) in *.
  set (first := anchor + times_of' self anchor * r).
  exists (Datatypes.S (Z.to_nat (Z.abs (last - first) + r + 1))).
  intros fuel Hfuel.
  assert ((timedelta_seconds r =? 0) = false) as -> by lia.
  destruct (times_of' self anchor =? 0); [by eexists _, _|].
  destruct (anchor_up_fuel fuel first last r Hr) as [up Hup]; [lia|].
  rewrite Hup.
  apply anchor_up_result in Hup as (Hlt & Hnear & _).
  destruct (anchor_down_fuel fuel up last r Hr) as [down Hdown]; [lia|].
  rewrite Hdown. by eexists _, _.
Qed.

(** X15. Reading [scheduled_last_run_at] settles the entry: with
    [timedelta_seconds] the number of seconds of a duration that is not
    negative, and a positive cadence, reading the property again on the
    entry as the first reading left it gives the same date and changes
    nothing more. *)
Theorem scheduled_last_run_at_settles fuel fuel' self a self' :
  (∀ d, 0 ≤ d → timedelta_seconds d = d) →
  0 < SchedulerEntry.run_every self →
  scheduled_last_run_at timedelta_seconds fuel self = Ok (a, self') →
  scheduled_last_run_at timedelta_seconds fuel' self' = Ok (a, self').
Proof.
  intros Hts Hr Hrun.
  destruct (SchedulerEntry.anchor self) as [anchor|] eqn:Hanchor.
  - destruct (scheduled_last_run_at_cases fuel self anchor a self'
                Hanchor Hr Hrun)
      as [(Htimes & -> & ->)|(Htimes & Hin & _ & ->)].
    + unfold scheduled_last_run_at. rewrite Hanchor.
      fold (times_of' self anchor). rewrite Htimes.
      by destruct (timedelta_seconds _ =? 0) eqn:Hzero;
        [rewrite Hts in Hzero by lia; lia|].
    + unfold scheduled_last_run_at. simpl.
      rewrite !Hts by (unfold SchedulerEntry.run_every; simpl; lia).
      unfold SchedulerEntry.run_every at 1 2. simpl.
      fold (SchedulerEntry.run_every self).
      assert ((SchedulerEntry.run_every self =? 0) = false) as -> by lia.
      rewrite Z.quot_small by lia. reflexivity.
  - unfold scheduled_last_run_at in *. rewrite Hanchor in Hrun.
    injection Hrun as <- <-. by rewrite Hanchor.
Qed.
End anchor_proofs.

Lemma scheduled_last_run_at_aligned_witness :
  let late := {| SchedulerEntry.name := "beat";
                 SchedulerEntry.schedule :=
                   {| Schedule.run_every := 60;
                      Schedule.anchor := Some 940 |};
                 SchedulerEntry.last_run_at := 1075;
                 SchedulerEntry.total_run_count := 2 |} in
  scheduled_last_run_at sample.timedelta_seconds 10 late
    = Ok (1060, SchedulerEntry.set_anchor late 1060) ∧
  1060 ≤ SchedulerEntry.last_run_at late < 1060 + 60 ∧
  (1060 - 940) mod 60 = 0.
Proof.
  intros late.
  assert (scheduled_last_run_at sample.timedelta_seconds 10 late
            = Ok (1060, SchedulerEntry.set_anchor late 1060)) as Hrun
    by (vm_compute; reflexivity).
  split; [exact Hrun|].
  destruct (scheduled_last_run_at_aligned sample.timedelta_seconds 10 late
              940 1060 (SchedulerEntry.set_anchor late 1060) eq_refl)
    as [(Htimes & _)|(_ & Hin & Hgrid & _)].
  - unfold SchedulerEntry.run_every. simpl. lia.
  - exact Hrun.
  - vm_compute in Htimes. discriminate.
  - split; [exact Hin|exact Hgrid].
Defined.

Lemma scheduled_last_run_at_terminates_witness :
  0 < SchedulerEntry.run_every sample.beat_entry ∧
  ∃ fuel0, ∀ fuel, (fuel0 ≤ fuel)%nat →
    ∃ a self', scheduled_last_run_at sample.timedelta_seconds fuel
                 sample.beat_entry = Ok (a, self').
Proof.
  assert (0 < SchedulerEntry.run_every sample.beat_entry) as Hr
    by (unfold SchedulerEntry.run_every; simpl; lia).
  split; [exact Hr|].
  apply (scheduled_last_run_at_terminates sample.timedelta_seconds
           sample.beat_entry Hr).
  vm_compute. discriminate.
Defined.

Lemma scheduled_last_run_at_settles_witness :
  let late := {| SchedulerEntry.name := "beat";
                 SchedulerEntry.schedule :=
                   {| Schedule.run_every := 60;
                      Schedule.anchor := Some 940 |};
                 SchedulerEntry.last_run_at := 1075;
                 SchedulerEntry.total_run_count := 2 |} in
  let settled := SchedulerEntry.set_anchor late 1060 in
  scheduled_last_run_at sample.timedelta_seconds 10 late
    = Ok (1060, settled) ∧
  scheduled_last_run_at sample.timedelta_seconds 0 settled
    = Ok (1060, settled).
Proof.
  intros late settled.
  assert (scheduled_last_run_at sample.timedelta_seconds 10 late
            = Ok (1060, settled)) as Hrun by (vm_compute; reflexivity).
  split; [exact Hrun|].
  apply (scheduled_last_run_at_settles sample.timedelta_seconds 10 0 late
           1060 settled).
  - intros d Hd. unfold sample.timedelta_seconds. lia.
  - unfold SchedulerEntry.run_every. simpl. lia.
  - exact Hrun.
Defined.

(** ** The timing methods of a task *)

(** X16. [execute2start], [execute2end] and [duration] raise
    [AttributeError] on every task: the first attribute each of them reads
    is [time_start] or [time_end], and a task has neither ([__init__] sets
    [time_started] and [time_ended]). *)
Theorem task_timings_raise (self : Task.t) :
  execute2start self = inl AttributeError ∧
  execute2end self = inl AttributeError ∧
  duration self = inl AttributeError.
Proof.
  unfold execute2start, execute2end, duration, Task_getattr.
  fold (Task.tojson self). rewrite !tojson_lookup. simpl.
  repeat split.
Qed.

(** ** Setting the schedule up *)

Section setup_proofs.
Context {S : Type} `{!TaskBackendImpl S}.
Variable registry : gmap string Job.t.
Implicit Types (w : world (S := S)).

Lemma _setup_schedule_loop_run jobs acc w :
  schedule_periodic w = true →
  ∃ es,
    _setup_schedule_loop jobs acc w
      = (Ok (inr es), with_clock (λ n, clock w (length jobs + n)%nat) w) ∧
    (∀ name, is_Some (es !! name)
             ↔ is_Some (acc !! name) ∨ name ∈ jobs.*1) ∧
    (∀ name e, es !! name = Some e →
       acc !! name = Some e ∨
       SchedulerEntry.name e = name ∧
       SchedulerEntry.total_run_count e = 0 ∧
       ∃ job i, (name, job) ∈ jobs ∧
                SchedulerEntry.run_every e = Job.run_every job ∧
                SchedulerEntry.anchor e = Job.anchor job ∧
                SchedulerEntry.last_run_at e = clock w i).
Proof.
  revert acc w. induction jobs as [|[name job] jobs IH]; intros acc w Hp.
  - exists acc. simpl. split.
    + unfold mret, M_ret, ret. f_equal. by destruct w.
    + split; [|by left]. intros name. rewrite elem_of_nil. tauto.
  - cbn [_setup_schedule_loop].
    unfold _maybe_schedule, SchedulerEntry___init__, datetime_now.
    unfold mbind, M_bind, bind, mret, M_ret, ret, get. rewrite Hp. cbn [negb].
    set (w1 := with_clock (λ n, clock w (Datatypes.S n)) w).
    set (entry := {| SchedulerEntry.name := name;
                     SchedulerEntry.schedule :=
                       {| Schedule.run_every := Job.run_every job;
                          Schedule.anchor := Job.anchor job |};
                     SchedulerEntry.last_run_at := clock w 0%nat;
                     SchedulerEntry.total_run_count := 0 |}).
    destruct (IH (<[name := entry]> acc) w1 Hp) as (es & Hrun & Hdom & Hes).
    exists es. split; [|split].
    + rewrite Hrun. reflexivity.
    + intros n. rewrite Hdom. rewrite fmap_cons, elem_of_cons. simpl.
      destruct (decide (n = name)) as [->|Hne].
      * rewrite lookup_insert_eq. split; [intros _; right; by left|eauto].
      * rewrite lookup_insert_ne by done.
        split; [intros [?|?]; auto|intros [?|[?|?]]; auto; done].
    + intros n e He.
      apply Hes in He as [He|(Hn & Hc & j & i & Hin & Hr & Ha & Hl)].
      * destruct (decide (n = name)) as [->|Hne].
        -- rewrite lookup_insert_eq in He. injection He as <-. right.
           repeat split. exists job, 0%nat.
           split; [apply list_elem_of_here|]. repeat split.
        -- rewrite lookup_insert_ne in He by done. by left.
      * right. repeat split; try done. exists j, (Datatypes.S i).
        split; [by apply list_elem_of_further|]. repeat split; done.
Qed.

(** X17. On a backend that schedules, [_setup_schedule] builds the
    table the scheduler works on: it has an entry for exactly the names
    under which the registry holds a periodic job; the entry filed under
    a name carries that name (so the table is well formed), the job's
    [run_every] and [anchor], a run count of 0 and, as its last run, a
    reading of the clock.  It reads the clock once for each periodic job
    and does nothing else. *)
Theorem _setup_schedule_entries w :
  schedule_periodic w = true →
  ∃ es w',
    _setup_schedule registry w = (Ok (inr (Some es)), w') ∧
    w' = with_clock
           (λ n, clock w (length (filter_types registry "periodic") + n)%nat)
           w ∧
    entries_wf (with_entries (Some es) w') ∧
    (∀ name, is_Some (es !! name)
             ↔ ∃ job, registry !! name = Some job ∧
                      Job.type job = "periodic"%string) ∧
    (∀ name e, es !! name = Some e →
       SchedulerEntry.total_run_count e = 0 ∧
       ∃ job i, registry !! name = Some job ∧
                SchedulerEntry.run_every e = Job.run_every job ∧
                SchedulerEntry.anchor e = Job.anchor job ∧
                SchedulerEntry.last_run_at e = clock w i).
Proof.
  unfold _setup_schedule. intros Hp.
  destruct (_setup_schedule_loop_run (filter_types registry "periodic") ∅
              w Hp) as (es & Hrun & Hdom & Hes).
  unfold mbind, M_bind, bind, mret, M_ret, ret, get. rewrite Hp. cbn [negb].
  rewrite Hrun. eexists _, _. split; [reflexivity|]. split; [reflexivity|].
  assert (∀ name job, (name, job) ∈ filter_types registry "periodic"
                      ↔ registry !! name = Some job ∧
                        Job.type job = "periodic"%string) as Hfilter.
  { intros name job. unfold filter_types.
    rewrite list_elem_of_filter, elem_of_map_to_list. simpl. tauto. }
  split; [|split].
  - intros es' name e [= <-] He.
    apply Hes in He as [He|(Hn & _)]; [|exact Hn].
    by rewrite lookup_empty in He.
  - intros name. rewrite Hdom, lookup_empty, list_elem_of_fmap.
    split.
    + intros [[? [=]]|([n job] & -> & Hin)]. apply Hfilter in Hin. eauto.
    + intros (job & Hjob). right. exists (name, job).
      split; [done|]. by apply Hfilter.
  - intros name e He. apply Hes in He as [He|(Hn & Hc & j & i & Hin & Hrest)].
    { by rewrite lookup_empty in He. }
    apply Hfilter in Hin as [Hjob _]. eauto 10.
Qed.
End setup_proofs.

Lemma _setup_schedule_entries_witness :
  let w := sample.world_periodic in
  schedule_periodic w = true ∧
  ∃ es w',
    _setup_schedule sample.registry w = (Ok (inr (Some es)), w') ∧
    entries_wf (with_entries (Some es) w') ∧
    is_Some (es !! "beat") ∧
    es !! "x" = None.
Proof.
  intros w. split; [reflexivity|].
  destruct (_setup_schedule_entries sample.registry w eq_refl)
    as (es & w' & Hrun & _ & Hwf & Hdom & _).
  exists es, w'. split; [exact Hrun|]. split; [exact Hwf|]. split.
  - apply Hdom. exists sample.beat. split; vm_compute; reflexivity.
  - destruct (es !! "x") as [e|] eqn:He; [|reflexivity].
    destruct (proj1 (Hdom "x"%string)) as (job & Hjob & Htype); [by eexists|].
    vm_compute in Hjob. injection Hjob as <-. discriminate.
Defined.

(** ** The next scheduled entry *)

Section next_scheduled_proofs.
Context {S : Type} `{!TaskBackendImpl S}.
Variable remaining : Z → Z → Z → Z.
Variable timedelta_seconds : Z → Z.
Implicit Types (w : world (S := S)) (es : gmap string SchedulerEntry.t).

Local Abbreviation loop :=
  (next_scheduled_loop remaining timedelta_seconds).

(** The table of [w] has the keys of [es], with entries of the same
    names. *)
Local Abbreviation same_names es w :=
  (∃ es', entries w = Some es' ∧
          ∀ key, SchedulerEntry.name <$> (es' !! key)
                 = SchedulerEntry.name <$> (es !! key)).

Lemma is_due_names fuel key entry now w r w' es :
  same_names es w →
  entries w ≫= (.!! key) = Some entry →
  is_due remaining timedelta_seconds fuel key entry now w = (r, w') →
  same_names es w'.
Proof.
  intros (es' & Hes' & Hnames) Hentry. unfold is_due.
  rewrite Hes' in Hentry. simpl in Hentry.
  destruct (scheduled_last_run_at timedelta_seconds fuel entry)
    as [[last entry']| |] eqn:Hlast.
  2,3: intros [= _ <-]; by exists es'.
  apply scheduled_last_run_at_entry in Hlast as (Hname & _).
  unfold Schedule_is_due, remaining_estimate, now_or_datetime_now,
    set_entry, modify, datetime_now.
  unfold mbind, M_bind, bind, mret, M_ret, ret.
  assert (∀ k, SchedulerEntry.name <$> (<[key := entry']> es' !! k)
               = SchedulerEntry.name <$> (es !! k)) as Hnames'.
  { intros k. destruct (decide (k = key)) as [->|Hne].
    - rewrite lookup_insert_eq, <- Hnames, Hentry. simpl. by rewrite Hname.
    - by rewrite lookup_insert_ne. }
  destruct now as [n|]; simpl;
    destruct (timedelta_seconds _ =? 0); intros [= _ <-]; simpl;
    rewrite Hes'; simpl; by eexists.
Qed.

Lemma found_more es seen key next :
  found es seen next → is_Some next → found es (seen ++ [key]) next.
Proof.
  destruct next as [[e t]|]; [|by intros _ [? [=]]].
  intros (k & e0 & Hin & Hrest) _. exists k, e0.
  split; [apply elem_of_app; by left|done].
Qed.

Lemma next_scheduled_loop_found fuel keys next w next' w' es seen :
  same_names es w →
  found es seen next →
  loop fuel keys next w = (Ok next', w') →
  found es (seen ++ keys) next'.
Proof.
  revert next w seen.
  induction keys as [|key keys IH]; intros next w seen Hsame Hfound.
  { intros [= <- _]. by rewrite app_nil_r. }
  cbn [next_scheduled_loop].
  unfold mbind at 1, M_bind at 1, bind at 1, get.
  replace (seen ++ key :: keys) with ((seen ++ [key]) ++ keys)
    by (by rewrite <- app_assoc).
  destruct (entries w ≫= (.!! key)) as [entry|] eqn:Hentry.
  - unfold mbind at 1, M_bind at 1, bind at 1.
    destruct (is_due remaining timedelta_seconds fuel key entry None w)
      as [[[due t]|e|] w1] eqn:Hdue; [|done|done].
    apply (is_due_names _ _ _ _ _ _ _ es Hsame Hentry) in Hdue as Hsame1.
    assert (found es (seen ++ [key]) (Some (entry, t))) as Hnew.
    { destruct Hsame as (es' & Hes' & Hnames).
      rewrite Hes' in Hentry. simpl in Hentry.
      specialize (Hnames key). rewrite Hentry in Hnames. simpl in Hnames.
      destruct (es !! key) as [e0|] eqn:He0; [|done].
      injection Hnames as Hname. exists key, e0.
      split; [apply elem_of_app; right; apply list_elem_of_here|done]. }
    destruct due.
    + intros [= <- _]. destruct Hnew as (k & e0 & Hin & Hrest).
      exists k, e0. split; [apply elem_of_app; by left|done].
    + destruct next as [[e1 t1]|].
      * destruct (t <? t1).
        -- by apply IH.
        -- apply IH; [done|]. by apply found_more.
      * by apply IH.
  - apply IH; [done|].
    destruct next as [[e t]|]; [by apply found_more|].
    intros k Hk. apply elem_of_app in Hk as [Hin|Hk]; [by apply Hfound|].
    apply list_elem_of_singleton in Hk as ->.
    destruct Hsame as (es' & Hes' & Hnames).
    rewrite Hes' in Hentry. simpl in Hentry.
    specialize (Hnames key). rewrite Hentry in Hnames. simpl in Hnames.
    by destruct (es !! key).
Qed.

(** X18. What [next_scheduled] returns on a backend that schedules.
    When it returns it gives either the name of an entry of the table,
    one filed under a name that was asked for when names were given,
    with a number of seconds that is not negative; or, and this exactly
    when none of the names asked for (none of all the keys, when no name
    was given) has an entry, the names it was given with no time. *)
Theorem next_scheduled_result fuel jobnames w es x w' :
  schedule_periodic w = true →
  entries w = Some es →
  next_scheduled remaining timedelta_seconds fuel jobnames w = (Ok x, w') →
  (∃ name seconds key e,
     x = inr (Some (next_at name seconds)) ∧
     0 ≤ seconds ∧
     es !! key = Some e ∧ SchedulerEntry.name e = name ∧
     (jobnames ≠ [] → key ∈ jobnames)) ∨
  (x = inr (Some (none_of jobnames)) ∧
   ∀ key, jobnames = [] ∨ key ∈ jobnames → es !! key = None).
Proof.
  intros Hp Hes. unfold next_scheduled.
  unfold mbind at 1, M_bind at 1, bind at 1, get. rewrite Hp. cbn [negb].
  unfold mbind at 1, M_bind at 1, bind at 1, get. rewrite Hes.
  unfold mbind at 1, M_bind at 1, bind at 1.
  set (keys := match jobnames with
               | [] => (map_to_list es).*1
               | _ => jobnames
               end).
  destruct (loop fuel keys None w) as [[next| |] w1] eqn:Hloop; [|done|done].
  apply (next_scheduled_loop_found _ _ _ _ _ _ es []) in Hloop;
    [|by exists es|by intros ? ?%elem_of_nil].
  simpl in Hloop.
  destruct next as [[e t]|]; intros [= <- _].
  - left. destruct Hloop as (key & e0 & Hin & He0 & Hname).
    exists (SchedulerEntry.name e), (Z.max t 0), key, e0.
    split; [done|]. split; [lia|]. split; [done|]. split; [done|].
    intros Hnames. unfold keys in Hin. by destruct jobnames.
  - right. split; [done|]. intros key Hkey.
    destruct (es !! key) as [e|] eqn:He; [|done].
    rewrite <- He. apply Hloop. unfold keys.
    destruct jobnames as [|j jobnames].
    + apply list_elem_of_fmap. exists (key, e).
      split; [done|]. by apply elem_of_map_to_list.
    + by destruct Hkey.
Qed.
End next_scheduled_proofs.

Lemma next_scheduled_result_witness :
  let w := sample.world_periodic in
  let run := next_scheduled sample.remaining sample.timedelta_seconds 10
               ["beat"%string; "x"%string] w in
  schedule_periodic w = true ∧
  run.1 = Ok (inr (Some (next_at "beat" 0))) ∧
  ∃ key e, entries w ≫= (.!! key) = Some e ∧
           SchedulerEntry.name e = "beat"%string ∧
           key ∈ ["beat"%string; "x"%string].
Proof.
  intros w run.
  assert (run = (Ok (inr (Some (next_at "beat" 0))), run.2)) as Hrun
    by (vm_compute; reflexivity).
  split; [reflexivity|]. split; [by rewrite Hrun|].
  destruct (next_scheduled_result sample.remaining sample.timedelta_seconds
              10 ["beat"%string; "x"%string] w _ _ run.2
              eq_refl eq_refl Hrun)
    as [(name & seconds & key & e & Hx & _ & He & Hname & Hin)|[Hx _]];
    [|discriminate].
  injection Hx as <- _. exists key, e.
  split; [exact He|]. split; [exact Hname|]. by apply Hin.
Defined.

(** ** Waiters *)

Section callbacks_proofs.
Variable deferred_truthy : TaskCallbacks.Deferred → bool.
Implicit Types (self : TaskCallbacks.t) (task : Task.t).

(** [when_done] on a task that is not done. *)
Lemma when_done_waits task self :
  (∀ d, deferred_truthy d = true) →
  Task.done task = false →
  ∃ d self1,
    TaskCallbacks.when_done deferred_truthy task self
      = (TaskCallbacks.waiter d, self1) ∧
    TaskCallbacks.callbacks self1 !! Task.id task = Some d ∧
    (∀ i, i ≠ Task.id task →
          TaskCallbacks.callbacks self1 !! i
          = TaskCallbacks.callbacks self !! i) ∧
    TaskCallbacks.fired self1 = TaskCallbacks.fired self ∧
    (TaskCallbacks.callbacks self !! Task.id task = Some d ∧ self1 = self ∨
     TaskCallbacks.callbacks self !! Task.id task = None ∧
     d = TaskCallbacks.made self).
Proof.
  intros Htruthy Hdone. unfold TaskCallbacks.when_done. rewrite Hdone.
  destruct (TaskCallbacks.callbacks self !! Task.id task) as [d|] eqn:Hd.
  - rewrite Htruthy. exists d, self. rewrite Hd. repeat split. by left.
  - eexists _, _. split; [reflexivity|]. simpl.
    rewrite lookup_insert_eq.
    repeat split; [|by right]. intros i Hi. by rewrite lookup_insert_ne.
Qed.

(** X19. One waiter per task id.  For a task that is not done (waiters
    being true objects), [when_done] gives a waiter and files it under the
    task's id, leaving the waiters of other ids alone and firing none; and
    asking again gives that same waiter and changes nothing. *)
Theorem when_done_one_waiter task self :
  (∀ d, deferred_truthy d = true) →
  Task.done task = false →
  ∃ d self1,
    TaskCallbacks.when_done deferred_truthy task self
      = (TaskCallbacks.waiter d, self1) ∧
    TaskCallbacks.callbacks self1 !! Task.id task = Some d ∧
    (∀ i, i ≠ Task.id task →
          TaskCallbacks.callbacks self1 !! i
          = TaskCallbacks.callbacks self !! i) ∧
    TaskCallbacks.fired self1 = TaskCallbacks.fired self ∧
    TaskCallbacks.when_done deferred_truthy task self1
      = (TaskCallbacks.waiter d, self1).
Proof.
  intros Htruthy Hdone.
  destruct (when_done_waits task self Htruthy Hdone)
    as (d & self1 & Hwhen & Hd & Hother & Hfired & _).
  exists d, self1. do 4 (split; [assumption|]).
  unfold TaskCallbacks.when_done. by rewrite Hdone, Hd, Htruthy.
Qed.

(** X20. [finish] fulfils the waiter, once.  After [when_done] has given
    a waiter for a task that is not done, [finish] revokes the task (its
    status becomes REVOKED, so it is done), fires that waiter with the
    revoked task and forgets it; finishing the task again, or asking
    [when_done] for it, then fires nothing and gives the task itself. *)
Theorem finish_fulfils_waiter task self d self1 :
  (∀ d, deferred_truthy d = true) →
  Task.done task = false →
  TaskCallbacks.when_done deferred_truthy task self
    = (TaskCallbacks.waiter d, self1) →
  ∃ task' self2,
    TaskCallbacks.finish deferred_truthy task self1
      = (TaskCallbacks.called_back d task', task', self2) ∧
    Task.status task' = Some states.REVOKED ∧
    Task.done task' = true ∧
    TaskCallbacks.callbacks self2 !! Task.id task = None ∧
    TaskCallbacks.fired self2 = TaskCallbacks.fired self ++ [(d, task')] ∧
    TaskCallbacks.finish deferred_truthy task' self2
      = (TaskCallbacks.the_task task', task', self2) ∧
    TaskCallbacks.when_done deferred_truthy task' self2
      = (TaskCallbacks.the_task task', self2).
Proof.
  intros Htruthy Hdone Hwhen.
  destruct (when_done_waits task self Htruthy Hdone)
    as (d' & self1' & Hwhen' & Hd & _ & Hfired & _).
  rewrite Hwhen in Hwhen'. injection Hwhen' as <- <-.
  exists (TaskCallbacks.revoke task).
  unfold TaskCallbacks.finish, TaskCallbacks.when_done, TaskCallbacks._pop.
  rewrite Hdone. cbn [Task.done TaskCallbacks.revoke Task.status Task.id].
  rewrite Hd, Htruthy. cbn [fst snd TaskCallbacks.callbacks
    TaskCallbacks.made TaskCallbacks.fired].
  eexists. split; [reflexivity|].
  cbn [TaskCallbacks.callbacks TaskCallbacks.made TaskCallbacks.fired].
  assert (bool_decide (states.REVOKED ∈ states.READY_STATES) = true)
    as Hready by (vm_compute; reflexivity).
  rewrite !Hready. cbn [Task.id TaskCallbacks.revoke].
  rewrite lookup_delete_eq, delete_delete_eq, Hfired.
  repeat split.
Qed.
End callbacks_proofs.

Lemma when_done_one_waiter_witness :
  let task := sample.task "t1" (Some states.PENDING) None in
  let self := TaskCallbacks.mk ∅ 0 [] in
  let self1 := TaskCallbacks.mk {[ "t1"%string := 0%nat ]} 1 [] in
  Task.done task = false ∧
  ∃ d self1,
    TaskCallbacks.when_done (λ _, true) task self
      = (TaskCallbacks.waiter d, self1) ∧
    TaskCallbacks.when_done (λ _, true) task self1
      = (TaskCallbacks.waiter d, self1).
Proof.
  intros task self self1. split; [reflexivity|].
  destruct (when_done_one_waiter (λ _, true) task self (λ _, eq_refl)
              eq_refl) as (d & s1 & Hfirst & _ & _ & _ & Hagain).
  by exists d, s1.
Defined.

Lemma finish_fulfils_waiter_witness :
  let task := sample.task "t1" (Some states.PENDING) None in
  let self := TaskCallbacks.mk ∅ 0 [] in
  let self1 := TaskCallbacks.mk {[ "t1"%string := 0%nat ]} 1 [] in
  Task.done task = false ∧
  TaskCallbacks.when_done (λ _, true) task self
    = (TaskCallbacks.waiter 0%nat, self1) ∧
  ∃ task' self2,
    TaskCallbacks.finish (λ _, true) task self1
      = (TaskCallbacks.called_back 0%nat task', task', self2) ∧
    Task.status task' = Some states.REVOKED ∧
    TaskCallbacks.fired self2 = [(0%nat, task')].
Proof.
  intros task self self1.
  assert (TaskCallbacks.when_done (λ _, true) task self
            = (TaskCallbacks.waiter 0%nat, self1)) as Hwhen by reflexivity.
  split; [reflexivity|]. split; [exact Hwhen|].
  destruct (finish_fulfils_waiter (λ _, true) task self 0%nat self1
              (λ _, eq_refl) eq_refl Hwhen)
    as (task' & self2 & Hfinish & Hstatus & _ & _ & Hfired & _).
  by exists task', self2.
Defined.

(** ** Which entries a tick fires *)

Section due_proofs.
Context {S : Type} `{!TaskBackendImpl S}.
Variable registry : gmap string Job.t.
Variable remaining : Z → Z → Z → Z.
Variable timedelta_seconds : Z → Z.
Implicit Types (w : world (S := S)) (key : string).

(** The entry filed under [key] is the same in both states. *)
Local Abbreviation same_entry key w w' :=
  (entries w' ≫= (.!! key) = entries w ≫= (.!! key)).
Local Abbreviation due := (due_at remaining timedelta_seconds).

Lemma create_task_same_entry name key targs tkwargs expiry params w :
  registry_wf registry →
  name ≠ key →
  same_entry key w
    (create_task registry name targs tkwargs expiry params w).2.
Proof.
  intros Hreg Hne. unfold create_task.
  destruct (registry !! name) as [job|] eqn:Hjob; [|done].
  apply Hreg in Hjob as Hname. rewrite Hname.
  unfold handle_task_done, fresh_task_id, delete_tasks, save_task,
    advance_entry, SchedulerEntry_next, now_or_datetime_now, set_entry,
    datetime_now, get_task, keywords.
  run_M.
  destruct (impl_get_task _ (store w)) as [[t|] s1]; simpl;
    [destruct (Task.done t); simpl|];
    try reflexivity;
    (destruct (entries w) as [es|] eqn:Hes; simpl;
     [destruct (es !! name) as [e|] eqn:He; simpl|];
     repeat match goal with
            | |- context [if ?b then _ else _] => destruct b; simpl
            end;
     rewrite ?Hes; simpl; rewrite ?lookup_insert_ne by done;
     reflexivity).
Qed.

Lemma run_job_same_entry name key w :
  registry_wf registry →
  name ≠ key →
  same_entry key w (run_job registry name VNone VNone None ∅ w).2.
Proof.
  intros Hreg Hne. unfold run_job, _run_job.
  pose proof (create_task_same_entry name key VNone VNone None ∅ w Hreg Hne)
    as Hcreate.
  unfold mbind, M_bind, bind, mret, M_ret, ret, try, put_task, log.
  destruct (create_task registry name VNone VNone None ∅ w)
    as [[v|e|] w1]; simpl in *; [destruct (truthy v)|..]; exact Hcreate.
Qed.

Lemma is_due_same_entry fuel k entry now key w :
  k ≠ key →
  same_entry key w
    (is_due remaining timedelta_seconds fuel k entry now w).2.
Proof.
  intros Hne. unfold is_due.
  destruct (scheduled_last_run_at timedelta_seconds fuel entry)
    as [[last entry']| |]; [|done|done].
  unfold Schedule_is_due, remaining_estimate, now_or_datetime_now,
    set_entry, modify, datetime_now.
  unfold mbind, M_bind, bind, mret, M_ret, ret.
  destruct now as [n|]; simpl;
    destruct (timedelta_seconds _ =? 0); simpl;
    (destruct (entries w) as [es|] eqn:Hes; simpl; rewrite ?Hes; simpl;
     rewrite ?lookup_insert_ne by done; reflexivity).
Qed.

Lemma tick_entry_same_entry fuel now k remaining_times key w r w' :
  registry_wf registry →
  entries_wf w →
  k ≠ key →
  tick_entry registry remaining timedelta_seconds fuel now k
    remaining_times w = (r, w') →
  same_entry key w w'.
Proof.
  intros Hreg Hwf Hne. unfold tick_entry.
  unfold mbind at 1, M_bind at 1, bind at 1, get.
  destruct (entries w ≫= (.!! k)) as [entry|] eqn:Hentry;
    [|by intros [= _ <-]].
  assert (SchedulerEntry.name entry = k) as Hname.
  { destruct (entries w) as [es|] eqn:Hes; [|done]. by eapply Hwf. }
  pose proof (is_due_same_entry fuel k entry now key w Hne) as Hdue.
  unfold mbind at 1, M_bind at 1, bind at 1.
  destruct (is_due remaining timedelta_seconds fuel k entry now w)
    as [[[fires next]|e|] w1]; [|by intros [= _ <-]..].
  simpl in Hdue. rewrite Hname.
  pose proof (run_job_same_entry k key
                (with_calls (calls w1 ++ [c_run_job k]) w1) Hreg Hne)
    as Hrun.
  unfold mbind, M_bind, bind, mret, M_ret, ret, log.
  destruct fires.
  - destruct (run_job registry k VNone VNone None ∅ _) as [[v|e|] w2];
      simpl in *; [destruct (next =? 0)|..]; intros [= _ <-];
      exact (eq_trans Hrun Hdue).
  - destruct (next =? 0); intros [= _ <-]; exact Hdue.
Qed.

(** The turn of the entry itself: if it makes the request, the entry was
    due. *)
Lemma tick_entry_fires_due fuel now key remaining_times w e l :
  entries_wf w →
  entries w ≫= (.!! key) = Some e →
  calls (tick_entry registry remaining timedelta_seconds fuel now key
           remaining_times w).2 = calls w ++ l →
  fired key l = true →
  due fuel now e w.
Proof.
  intros Hwf He. unfold tick_entry.
  unfold mbind at 1, M_bind at 1, bind at 1, get. rewrite He.
  unfold is_due, due_at.
  destruct (scheduled_last_run_at timedelta_seconds fuel e)
    as [[last e']| |] eqn:Hlast.
  2,3: simpl; intros Hl Hf;
       apply (f_equal length) in Hl; rewrite length_app in Hl;
       destruct l; [done|simpl in Hl; lia].
  apply scheduled_last_run_at_entry in Hlast as Hsame.
  unfold Schedule_is_due, remaining_estimate, now_or_datetime_now,
    set_entry, modify, datetime_now.
  unfold mbind, M_bind, bind, mret, M_ret, ret.
  assert (Schedule.run_every (SchedulerEntry.schedule e')
          = SchedulerEntry.run_every e) as Hevery.
  { revert Hlast. unfold scheduled_last_run_at.
    repeat case_match; intros [= <- <-]; reflexivity. }
  rewrite Hevery.
  destruct now as [n|]; simpl.
  - destruct (timedelta_seconds (remaining last _ n) =? 0) eqn:Hzero.
    + intros _ _. exists last, e', n. repeat split. lia.
    + destruct (timedelta_seconds (remaining last _ n) =? 0); simpl;
        intros Hl Hf; apply (f_equal length) in Hl;
        rewrite length_app in Hl;
        (destruct l; [done|simpl in Hl; lia]).
  - destruct (timedelta_seconds (remaining last _ (clock w 0%nat)) =? 0)
      eqn:Hzero.
    + intros _ _. exists last, e', (clock w 0%nat).
      split; [done|]. split; [by exists 0%nat|lia].
    + destruct (timedelta_seconds (remaining last _ _) =? 0); simpl;
        intros Hl Hf; apply (f_equal length) in Hl;
        rewrite length_app in Hl;
        (destruct l; [done|simpl in Hl; lia]).
Qed.

Lemma due_at_shift fuel now e w w1 j :
  (∀ n, clock w1 n = clock w (n + j)%nat) →
  due fuel now e w1 → due fuel now e w.
Proof.
  intros Hclock (last & e' & t & Hlast & Ht & Hzero).
  exists last, e', t. split; [done|]. split; [|done].
  destruct now as [n|]; [done|]. destruct Ht as [i ->].
  rewrite Hclock. eauto.
Qed.

Lemma new_calls_refl w : new_calls w w = [].
Proof. unfold new_calls. by rewrite drop_all. Qed.

Lemma tick_loop_fires_due fuel now keys remaining_times w key e :
  registry_wf registry →
  entries_wf w →
  NoDup keys →
  entries w ≫= (.!! key) = Some e →
  fired key (new_calls w
               (tick_loop registry remaining timedelta_seconds fuel now
                  keys remaining_times w).2) = true →
  due fuel now e w.
Proof.
  intros Hreg. revert remaining_times w.
  induction keys as [|k keys IH]; intros remaining_times w Hwf Hnodup He.
  { simpl. by rewrite new_calls_refl. }
  inversion_clear Hnodup as [|? ? Hk Hnodup'].
  cbn [tick_loop]. unfold mbind, M_bind, bind, mret, M_ret, ret, try.
  destruct (tick_entry_run registry remaining timedelta_seconds fuel now k
              remaining_times w key Hreg Hwf) as (r & w1 & Hentry & Hturn).
  rewrite Hentry.
  destruct (decide (k = key)) as [->|Hne].
  - destruct Hturn as (f & c & (Hwf1 & l1 & j & Hcalls1 & Hclock & Hf & _)
                         & _).
    assert (f = true → due fuel now e w) as Hdue.
    { intros ->.
      apply (tick_entry_fires_due fuel now key remaining_times w e l1);
        [done..| |done].
      by rewrite Hentry. }
    destruct r as [remaining_times'|e0|].
    + destruct (tick_loop_run registry remaining timedelta_seconds fuel now
                  keys remaining_times' w1 key Hreg (Hwf1 Hwf) Hnodup')
        as (r2 & w2 & Hrun2 & Hq).
      rewrite decide_False in Hq by done.
      destruct Hq as (_ & l2 & j2 & Hcalls2 & _ & Hf2 & _).
      rewrite Hrun2. cbn [snd].
      rewrite (new_calls_app w w2 (l1 ++ l2))
        by (by rewrite Hcalls2, Hcalls1, <- app_assoc).
      rewrite fired_app, Hf, Hf2, orb_false_r. exact Hdue.
    + unfold log. cbn [snd].
      rewrite (new_calls_app w _ (l1 ++ [c_logger "exception"]))
        by (simpl; by rewrite Hcalls1, <- app_assoc).
      rewrite fired_app, Hf. simpl. rewrite orb_false_r. exact Hdue.
    + cbn [snd]. rewrite (new_calls_app w w1 l1) by done.
      rewrite Hf. exact Hdue.
  - destruct Hturn as (Hwf1 & l1 & j & Hcalls1 & Hclock & Hf & _).
    pose proof (tick_entry_same_entry fuel now k remaining_times key w r w1
                  Hreg Hwf Hne Hentry) as Hsame.
    destruct r as [remaining_times'|e0|].
    + destruct (tick_loop_run registry remaining timedelta_seconds fuel now
                  keys remaining_times' w1 key Hreg (Hwf1 Hwf) Hnodup')
        as (r2 & w2 & Hrun2 & Hq).
      assert (∃ l2, calls w2 = calls w1 ++ l2) as [l2 Hcalls2].
      { case_decide; [destruct Hq as (? & ? & Hq & _)|];
          destruct Hq as (_ & l2 & _ & Hcalls2 & _); eauto. }
      specialize (IH remaining_times' w1 (Hwf1 Hwf) Hnodup').
      rewrite Hrun2 in IH |- *. cbn [snd] in *.
      rewrite (new_calls_app w w2 (l1 ++ l2))
        by (by rewrite Hcalls2, Hcalls1, <- app_assoc).
      rewrite (new_calls_app w1 w2 l2) in IH by done.
      rewrite fired_app, Hf. simpl. intros Hf2.
      apply (due_at_shift fuel now e w w1 j Hclock).
      apply IH; [|exact Hf2]. by rewrite Hsame.
    + unfold log. cbn [snd].
      rewrite (new_calls_app w _ (l1 ++ [c_logger "exception"]))
        by (simpl; by rewrite Hcalls1, <- app_assoc).
      by rewrite fired_app, Hf.
    + cbn [snd]. rewrite (new_calls_app w w1 l1) by done.
      by rewrite Hf.
Qed.

(** X21. A tick fires only entries that are due.  If [tick] makes the
    request for the entry filed under [key], then that entry, as it stood
    when the tick began, has a scheduled last run from which nothing
    remains of its cadence at the time of the tick: the [now] given, or
    else a reading of the clock.  The turns of the other entries do not
    touch it. *)
Theorem tick_fires_only_due fuel now w key es e :
  registry_wf registry →
  entries_wf w →
  entries w = Some es →
  es !! key = Some e →
  let w' := (tick registry remaining timedelta_seconds fuel now w).2 in
  fired key (new_calls w w') = true →
  ∃ last e' t,
    scheduled_last_run_at timedelta_seconds fuel e = Ok (last, e') ∧
    match now with
    | Some n => t = n
    | None => ∃ i, t = clock w i
    end ∧
    timedelta_seconds (remaining last (SchedulerEntry.run_every e) t) = 0.
Proof.
  intros Hreg Hwf Hes He w'. unfold w', tick.
  unfold mbind, M_bind, bind, mret, M_ret, ret, get, modify,
    now_or_datetime_now, datetime_now.
  destruct (schedule_periodic w); cbn [negb];
    [|by rewrite new_calls_refl].
  rewrite Hes.
  pose proof (tick_loop_fires_due fuel now (map_to_list es).*1 [] w key e
                Hreg Hwf (NoDup_fst_map_to_list es)) as Hloop.
  rewrite Hes in Hloop. simpl in Hloop. specialize (Hloop He).
  destruct (tick_loop registry remaining timedelta_seconds fuel now
              (map_to_list es).*1 [] w) as [[l|e0|] w1];
    simpl in *; [destruct now|..]; exact Hloop.
Qed.
End due_proofs.

Lemma tick_fires_only_due_witness :
  let w := sample.world_periodic in
  let w' := (tick sample.registry sample.remaining sample.timedelta_seconds
               10 (Some 1000) w).2 in
  fired "beat" (new_calls w w') = true ∧
  ∃ last e' t,
    scheduled_last_run_at sample.timedelta_seconds 10 sample.beat_entry
      = Ok (last, e') ∧
    t = 1000 ∧
    sample.timedelta_seconds
      (sample.remaining last (SchedulerEntry.run_every sample.beat_entry) t)
      = 0.
Proof.
  intros w w'.
  assert (fired "beat" (new_calls w w') = true) as Hf
    by (vm_compute; reflexivity).
  split; [exact Hf|].
  exact (tick_fires_only_due sample.registry sample.remaining
           sample.timedelta_seconds 10 (Some 1000) w "beat"
           {[ "beat"%string := sample.beat_entry ]} sample.beat_entry
           sample_registry_wf sample_entries_wf eq_refl eq_refl Hf).
Defined.

(** ** The last word of the executor *)

Section final_proofs.
Context {S : Type} `{!TaskBackendImpl S}.
Variable PRECEDENCE_MAPPING : gmap string Z.
Variable UNKNOWN_STATE : Z.
Variable registry : gmap string Job.t.
Variable failure_str : value → string.
Implicit Types (w : world (S := S)) (task : Task.t).

(** X22. The executor never leaves a task it has written to in STARTED.
    Either [_execute_task] makes no [save_task] at all, which happens only
    for a task of a registered job whose status code is not above the
    precedence of STARTED; or the last [save_task] it makes, on the task's
    id, carries a status of [READY_STATES] (the states [Task.done]
    recognises) together with [time_ended] and [result]. *)
Theorem _execute_task_final_status task w :
  let w' := (_execute_task PRECEDENCE_MAPPING UNKNOWN_STATE registry
               failure_str task w).2 in
  let saves := filter (λ c, is_save_task c = true) (new_calls w w') in
  (saves = [] ∧
   ∃ job started,
     Task.name task ≫= (registry !!.) = Some job ∧
     PRECEDENCE_MAPPING !! states.STARTED = Some started ∧
     Task.status_code PRECEDENCE_MAPPING UNKNOWN_STATE task ≤ started) ∨
  (∃ fields status,
     list.last saves = Some (c_save_task (Task.id task) fields) ∧
     fields !! "status" = Some (VStr status) ∧
     status ∈ states.READY_STATES ∧
     is_Some (fields !! "time_ended") ∧
     is_Some (fields !! "result")).
Proof.
  intros w' saves. unfold saves, w', _execute_task.
  destruct (Task.name task ≫= (registry !!.)) as [job|] eqn:Hjob;
    unfold_execute; cbn [consumer_job];
    [destruct (PRECEDENCE_MAPPING !! states.STARTED) as [started|]
       eqn:Hstarted;
     [destruct (Task.status_code PRECEDENCE_MAPPING UNKNOWN_STATE task
                  >? started) eqn:Hcode;
      [destruct (expired task (clock w 0%nat));
       [|destruct (Job.call job (Task.args task) (Task.kwargs task))
           as [[]|[]]]|]|]|];
    simpl;
    match goal with
    | |- context [new_calls w ?w1] =>
        erewrite (new_calls_app w w1)
          by (simpl; rewrite <- ?app_assoc; simpl; reflexivity)
    end;
    simpl.
  all: try (right; eexists _, _; split; [reflexivity|];
            unfold finished_fields;
            split; [by simplify_map_eq|];
            split; [unfold states.READY_STATES; set_solver|];
            split; by simplify_map_eq).
  left. split; [reflexivity|]. exists job, started. repeat split. lia.
Qed.
End final_proofs.

(** ** A meta parameter that repeats a keyword *)

Section keyword_proofs.
Context {S : Type} `{!TaskBackendImpl S}.
Variable registry : gmap string Job.t.
Implicit Types (w : world (S := S)) (job : Job.t) (task : Task.t).

(** X23. A meta parameter named like a keyword that [create_task] passes
    to [save_task] itself ([name], [time_executed], [args], [kwargs] or
    [status]; an [expiry] is the method's own parameter) makes the request
    for a new task fail with a [TypeError] at the call of [save_task]:
    nothing is saved, the store is as the lookup left it.  But the
    scheduler entry of the job, if it has one, has already been advanced:
    its run count is one higher and its last run is the reading of the
    clock. *)
Theorem create_task_repeated_keyword jobname job targs tkwargs expiry params
    k w s1 :
  registry !! jobname = Some job →
  let task_id := create_task_id job (py_or targs EMPTY_TUPLE)
                   (py_or tkwargs EMPTY_DICT) in
  impl_get_task (Some task_id) (store w) = (None, s1) →
  k ∈ CREATE_KEYWORDS →
  k ≠ "expiry"%string →
  is_Some (params !! k) →
  ∃ w',
    create_task registry jobname targs tkwargs expiry params w
      = (Exc (TypeError "got multiple values for keyword argument"), w') ∧
    new_calls w w' = [c_get_task (Some task_id); c_logger "debug"] ∧
    store w' = s1 ∧
    ∀ c t, entry_track (Job.name job) w = Some (c, t) →
           entry_track (Job.name job) w' = Some (c + 1, clock w 0%nat).
Proof.
  intros Hreg task_id Hget Hk _ Hparams.
  unfold create_task. rewrite Hreg. fold task_id.
  unfold mbind at 1, M_bind at 1, bind at 1.
  unfold get_task at 1. rewrite Hget. cbn [fst snd].
  unfold save_task, advance_entry, SchedulerEntry_next, now_or_datetime_now,
    set_entry, datetime_now, entry_track.
  destruct (entries w) as [es|] eqn:Hes;
    [destruct (es !! Job.name job) as [e|] eqn:He|];
    run_M; rewrite Hes; simpl; rewrite ?He; simpl;
    erewrite keywords_repeated by eassumption; simpl;
    (eexists; split; [reflexivity|]; split;
     [apply new_calls_app; simpl; by rewrite <- !app_assoc|];
     split; [reflexivity|]); simpl; rewrite ?Hes; simpl;
    rewrite ?lookup_insert_eq; simpl; try done.
  by intros c t [= <- <-].
Qed.
End keyword_proofs.

Lemma create_task_repeated_keyword_witness :
  let w := sample.world_periodic in
  let params := ({[ "status" := VStr "DONE" ]} : gmap string value) in
  sample.registry !! "beat" = Some sample.beat ∧
  entry_track "beat" w = Some (0, 995) ∧
  ∃ w',
    create_task sample.registry "beat" VNone VNone None params w
      = (Exc (TypeError "got multiple values for keyword argument"), w') ∧
    new_calls w w' = [c_get_task (Some "H(beat)"%string); c_logger "debug"] ∧
    entry_track "beat" w' = Some (1, 1003).
Proof.
  intros w params.
  assert (sample.registry !! "beat" = Some sample.beat) as Hreg
    by (vm_compute; reflexivity).
  assert (impl_get_task (Some "H(beat)"%string) (store w)
            = (None, store w)) as Hget by reflexivity.
  assert (entry_track "beat" w = Some (0, 995)) as Htrack
    by (vm_compute; reflexivity).
  split; [exact Hreg|]. split; [exact Htrack|].
  destruct (create_task_repeated_keyword sample.registry "beat" sample.beat
              VNone VNone None params "status" w (store w) Hreg Hget)
    as (w' & Hrun & Hcalls & _ & Hadv).
  - unfold CREATE_KEYWORDS. set_solver.
  - discriminate.
  - by eexists.
  - exists w'. split; [exact Hrun|]. split; [exact Hcalls|].
    exact (Hadv 0 995 Htrack).
Defined.

(** ** An entry with a cadence of zero seconds *)

Section stop_proofs.
Context {S : Type} `{!TaskBackendImpl S}.
Variable registry : gmap string Job.t.
Variable remaining : Z → Z → Z → Z.
Variable timedelta_seconds : Z → Z.
Implicit Types (w : world (S := S)) (key : string).

(** X24. One entry with an anchor and a cadence of zero seconds stops
    the loop of [tick] for every entry that comes after it, in whatever
    order the loop walks the table: the statement is about the loop, for
    any order [before ++ k :: after] of distinct keys.  The [is_due] of
    the entry [k] divides by zero; the [try] statement is around the
    whole loop, so the exception ends the loop: neither that entry nor any
    entry later in the walk is fired, due or not. *)
Theorem tick_loop_stops_at_zero_cadence fuel now before k after
    remaining_times w e anchor key :
  registry_wf registry →
  entries_wf w →
  NoDup (before ++ k :: after) →
  entries w ≫= (.!! k) = Some e →
  SchedulerEntry.anchor e = Some anchor →
  timedelta_seconds (SchedulerEntry.run_every e) = 0 →
  key ∈ k :: after →
  fired key (new_calls w
               (tick_loop registry remaining timedelta_seconds fuel now
                  (before ++ k :: after) remaining_times w).2) = false.
Proof.
  intros Hreg. revert remaining_times w.
  induction before as [|b before IH];
    intros remaining_times w Hwf Hnodup He Hanchor Hzero Hkey.
  - assert (tick_entry registry remaining timedelta_seconds fuel now k
              remaining_times w = (Exc ZeroDivisionError, w)) as Hentry.
    { unfold tick_entry.
      unfold mbind at 1, M_bind at 1, bind at 1, get. rewrite He.
      unfold is_due, scheduled_last_run_at. rewrite Hanchor, Hzero.
      reflexivity. }
    cbn [app tick_loop].
    unfold mbind, M_bind, bind, mret, M_ret, ret, try, log.
    rewrite Hentry. cbn [snd].
    by rewrite (new_calls_app w _ [c_logger "exception"]).
  - cbn [app] in Hnodup. inversion_clear Hnodup as [|? ? Hb Hnodup'].
    assert (b ≠ key) as Hbkey.
    { intros ->. apply Hb. apply elem_of_app. by right. }
    assert (b ≠ k) as Hbk.
    { intros ->. apply Hb. apply elem_of_app. right. apply list_elem_of_here. }
    cbn [app tick_loop].
    unfold mbind, M_bind, bind, mret, M_ret, ret, try.
    destruct (tick_entry_run registry remaining timedelta_seconds fuel now b
                remaining_times w key Hreg Hwf) as (r & w1 & Hentry & Hturn).
    rewrite decide_False in Hturn by done.
    destruct Hturn as (Hwf1 & l1 & j & Hcalls1 & _ & Hf & _).
    pose proof (tick_entry_same_entry registry remaining timedelta_seconds
                  fuel now b remaining_times k w r w1 Hreg Hwf Hbk Hentry)
      as Hsame.
    rewrite Hentry.
    destruct r as [remaining_times'|e0|].
    + specialize (IH remaining_times' w1 (Hwf1 Hwf) Hnodup').
      rewrite Hsame in IH. specialize (IH He Hanchor Hzero Hkey).
      destruct (tick_loop_run registry remaining timedelta_seconds fuel now
                  (before ++ k :: after) remaining_times' w1 key Hreg
                  (Hwf1 Hwf) Hnodup') as (r2 & w2 & Hrun2 & Hq).
      assert (∃ l2, calls w2 = calls w1 ++ l2) as [l2 Hcalls2].
      { case_decide; [destruct Hq as (? & ? & Hq & _)|];
          destruct Hq as (_ & l2 & _ & Hcalls2 & _); eauto. }
      rewrite Hrun2 in IH |- *. cbn [snd] in *.
      rewrite (new_calls_app w1 w2 l2) in IH by done.
      rewrite (new_calls_app w w2 (l1 ++ l2))
        by (by rewrite Hcalls2, Hcalls1, <- app_assoc).
      by rewrite fired_app, Hf, IH.
    + unfold log. cbn [snd].
      rewrite (new_calls_app w _ (l1 ++ [c_logger "exception"]))
        by (simpl; by rewrite Hcalls1, <- app_assoc).
      by rewrite fired_app, Hf.
    + cbn [snd]. by rewrite (new_calls_app w w1 l1).
Qed.
End stop_proofs.

Lemma tick_loop_stops_at_zero_cadence_witness :
  let zero := {| SchedulerEntry.name := "zero";
                 SchedulerEntry.schedule :=
                   {| Schedule.run_every := 0;
                      Schedule.anchor := Some 940 |};
                 SchedulerEntry.last_run_at := 995;
                 SchedulerEntry.total_run_count := 0 |} in
  let es := ({[ "beat"%string := sample.beat_entry;
                "zero"%string := zero ]}
             : gmap string SchedulerEntry.t) in
  let w := with_entries (Some es) sample.world_periodic in
  let walk := tick_loop sample.registry sample.remaining
                sample.timedelta_seconds 10 (Some 1000) in
  fired "beat" (new_calls w (walk ["beat"%string; "zero"%string] [] w).2)
    = true ∧
  fired "beat" (new_calls w (walk ["zero"%string; "beat"%string] [] w).2)
    = false.
Proof.
  intros zero es w walk.
  assert (entries_wf w) as Hwf.
  { intros es' k e [= <-] Hk. unfold es in Hk.
    apply lookup_insert_Some in Hk as [[<- <-]|[_ Hk]]; [reflexivity|].
    apply lookup_singleton_Some in Hk as [<- <-]. reflexivity. }
  assert (NoDup ([] ++ "zero"%string :: ["beat"%string])) as Hnodup.
  { simpl. apply NoDup_cons_2.
    - intros Hin. apply list_elem_of_singleton in Hin. discriminate Hin.
    - apply NoDup_singleton. }
  assert (entries w ≫= (.!! "zero") = Some zero) as Hzero
    by (vm_compute; reflexivity).
  assert ("beat"%string ∈ "zero"%string :: ["beat"%string]) as Hin
    by (apply list_elem_of_further, list_elem_of_here).
  assert (fired "beat"
            (new_calls w (walk ["beat"%string; "zero"%string] [] w).2)
          = true) as Hfires by (vm_compute; reflexivity).
  split; [exact Hfires|].
  exact (tick_loop_stops_at_zero_cadence sample.registry sample.remaining
           sample.timedelta_seconds 10 (Some 1000) [] "zero"
           ["beat"%string] [] w zero 940 "beat" sample_registry_wf Hwf
           Hnodup Hzero eq_refl eq_refl Hin).
Defined.
(** ** The list of jobs *)

Section job_list_proofs.
Context {S : Type} `{!TaskBackendImpl S}.
Variable registry : gmap string Job.t.
Variable remaining : Z → Z → Z → Z.
Variable timedelta_seconds : Z → Z.
Variable job_doc : Job.t → value.
Variable job_doc_syntax : Job.t → value.
Variable job_can_overlap : Job.t → overlap.
Implicit Types (w : world (S := S)).

Local Abbreviation loop :=
  (job_list_loop registry remaining timedelta_seconds job_doc job_doc_syntax
     job_can_overlap).
Local Abbreviation is_listed :=
  (listed registry job_doc job_doc_syntax job_can_overlap).
Local Abbreviation count_of es name :=
  (SchedulerEntry.total_run_count <$> entry_of es name).

Lemma is_due_counts fuel key entry now w r w' name :
  entries w ≫= (.!! key) = Some entry →
  is_due remaining timedelta_seconds fuel key entry now w = (r, w') →
  count_of (entries w') name = count_of (entries w) name.
Proof.
  intros Hentry. unfold is_due.
  destruct (scheduled_last_run_at timedelta_seconds fuel entry)
    as [[last entry']| |] eqn:Hlast.
  2,3: by intros [= _ <-].
  apply scheduled_last_run_at_entry in Hlast as (_ & Hcount & _).
  unfold Schedule_is_due, remaining_estimate, now_or_datetime_now,
    set_entry, modify, datetime_now.
  unfold mbind, M_bind, bind, mret, M_ret, ret.
  destruct (entries w) as [es|] eqn:Hes; [|done].
  simpl in Hentry.
  assert (count_of (Some (<[key := entry']> es)) name
          = count_of (Some es) name) as Hsame.
  { unfold entry_of. simpl. destruct (decide (name = key)) as [->|Hne].
    - rewrite lookup_insert_eq, Hentry. simpl. by rewrite Hcount.
    - by rewrite lookup_insert_ne. }
  destruct now as [n|]; simpl;
    destruct (timedelta_seconds _ =? 0); intros [= _ <-]; simpl;
    exact Hsame.
Qed.

Lemma next_scheduled_of_entry fuel name w r w' :
  next_scheduled remaining timedelta_seconds fuel [name] w = (r, w') →
  (∀ n, count_of (entries w') n = count_of (entries w) n) ∧
  (∀ scheduled, is_Some (entry_of (entries w) name) →
     r = Ok (inr (Some scheduled)) →
     ∃ key seconds, scheduled = next_at key seconds ∧ 0 ≤ seconds).
Proof.
  unfold next_scheduled.
  unfold mbind at 1, M_bind at 1, bind at 1, get.
  destruct (schedule_periodic w); cbn [negb].
  2: { unfold mret, M_ret, ret. intros [= <- <-]. split; [done|].
       by intros ? _ [=]. }
  unfold mbind at 1, M_bind at 1, bind at 1, get.
  destruct (entries w) as [es|] eqn:Hes.
  2: { unfold mret, M_ret, ret. intros [= <- <-].
       split; [intros n; by rewrite Hes|]. by intros ? _ [=]. }
  cbn [next_scheduled_loop].
  unfold mbind at 1, M_bind at 1, bind at 1.
  unfold mbind at 1, M_bind at 1, bind at 1, get. rewrite Hes.
  unfold entry_of at 3. cbn [mbind option_bind].
  destruct (es !! name) as [entry|] eqn:Hentry.
  2: { unfold mret, M_ret, ret. intros [= <- <-].
       split; [intros n; by rewrite Hes|]. by intros ? [? [=]]. }
  assert (∀ r1 w1 n,
            is_due remaining timedelta_seconds fuel name entry None w
              = (r1, w1) →
            count_of (entries w1) n = count_of (Some es) n) as Hcounts.
  { intros r1 w1 n Hdue. rewrite <- Hes.
    eapply is_due_counts; [|exact Hdue]. by rewrite Hes. }
  unfold mbind at 1, M_bind at 1, bind at 1.
  destruct (is_due remaining timedelta_seconds fuel name entry None w)
    as [[[due t]|e|] w1] eqn:Hdue.
  - unfold mret, M_ret, ret.
    destruct due; intros [= <- <-];
      (split; [intros n; by eapply Hcounts|]);
      intros scheduled _ [= <-]; eexists _, _; (split; [reflexivity|]); lia.
  - intros [= <- <-]. split; [|by intros ? _ [=]].
    intros n. by eapply Hcounts.
  - intros [= <- <-]. split; [|by intros ? _ [=]].
    intros n. by eapply Hcounts.
Qed.

Lemma job_list_loop_items fuel names all w items w' es :
  (∀ n, count_of (entries w) n = count_of es n) →
  loop fuel names all w = (Ok (inr items), w') →
  items.*1 = all.*1 ++ filter (λ n, is_Some (registry !! n)) names ∧
  (Forall (is_listed es) all → Forall (is_listed es) items).
Proof.
  revert all w. induction names as [|name names IH]; intros all w Hsame.
  { intros [= <- _]. by rewrite app_nil_r. }
  cbn [job_list_loop].
  destruct (registry !! name) as [job|] eqn:Hjob.
  2: { rewrite filter_cons_False by (rewrite Hjob; by intros [? ?]).
       by apply IH. }
  rewrite filter_cons_True by (rewrite Hjob; by eexists).
  assert (∀ d, is_listed es (name, VDict d) →
            ∀ w1, (∀ n, count_of (entries w1) n = count_of es n) →
                  loop fuel names (all ++ [(name, VDict d)]) w1
                    = (Ok (inr items), w') →
            items.*1 = all.*1 ++ name :: filter (λ n, is_Some (registry !! n))
                                           names ∧
            (Forall (is_listed es) all → Forall (is_listed es) items))
    as Hnext.
  { intros d Hd w1 Hsame1 Hrun. apply IH in Hrun as [Hnames Hall]; [|done].
    rewrite fmap_app in Hnames. simpl in Hnames.
    rewrite <- app_assoc in Hnames. split; [exact Hnames|].
    intros Hlisted. apply Hall. apply Forall_app. split; [done|].
    by constructor. }
  unfold mbind at 1, M_bind at 1, bind at 1, get.
  pose proof (Hsame name) as Hname.
  destruct (entry_of (entries w) name) as [entry|] eqn:Hentry.
  - unfold mbind at 1, M_bind at 1, bind at 1.
    destruct (next_scheduled remaining timedelta_seconds fuel [name] w)
      as [r w1] eqn:Hnext_run.
    apply next_scheduled_of_entry in Hnext_run as [Hsame1 Hresult].
    destruct r as [[e|[scheduled|]]|e|]; try done.
    destruct (Hresult scheduled) as (key & seconds & -> & Hseconds);
      [by rewrite Hentry|done|].
    apply Hnext.
    + exists job. split; [done|]. simpl in *.
      destruct (entry_of es name) as [entry0|]; [|done].
      injection Hname as Hcount. exists seconds. split; [done|].
      by rewrite Hcount.
    + intros n. by rewrite Hsame1.
  - apply Hnext; [|done].
    exists job. split; [done|]. simpl in *.
    by destruct (entry_of es name).
Qed.

(** X25. What [job_list] lists.  When it returns, it gives one item for
    each name asked for that is in the registry, in the order asked, a
    name asked twice listed twice and an unknown name passed over without
    a word; with no names given, one item for each name of the registry,
    in the order in which iterating over the registry gives them.  An
    item pairs the name with the job's dictionary ([doc], [doc_syntax],
    [type], [can_overlap], the last being "maybe" for a callable).  For a
    job with an entry in the scheduler's table, and for no other, the
    dictionary also has [next_run], a number of seconds that is not
    negative, [run_every], the job's cadence in seconds, and
    [runs_count], the run count of that entry. *)
Theorem job_list_items fuel registry_names jobnames w items w' :
  registry_names ≡ₚ (map_to_list registry).*1 →
  job_list registry remaining timedelta_seconds job_doc job_doc_syntax
    job_can_overlap fuel registry_names jobnames w = (Ok (inr items), w') →
  items.*1 = match jobnames with
             | [] => registry_names
             | _ => filter (λ n, is_Some (registry !! n)) jobnames
             end ∧
  Forall (listed registry job_doc job_doc_syntax job_can_overlap (entries w))
    items.
Proof.
  unfold job_list. intros Hperm Hrun.
  apply (job_list_loop_items _ _ _ _ _ _ (entries w)) in Hrun
    as [Hnames Hall]; [|done].
  split; [|by apply Hall].
  rewrite Hnames. simpl. destruct jobnames as [|n jobnames]; [|done].
  assert (Forall (λ n, is_Some (registry !! n)) registry_names) as Hkeys.
  { apply list.Forall_forall. intros n Hn. rewrite Hperm in Hn.
    apply list_elem_of_fmap in Hn as ([n' job] & -> & Hin).
    apply elem_of_map_to_list in Hin. by eexists. }
  clear Hnames Hperm.
  induction Hkeys as [|n l Hn Hl IH]; [reflexivity|].
  rewrite filter_cons_True by done. by rewrite IH.
Qed.
End job_list_proofs.

Lemma job_list_items_witness :
  let job_list_of := job_list sample.registry sample.remaining
                       sample.timedelta_seconds (λ _, VNone) (λ _, VNone)
                       (λ _, overlap_value (VBool false)) 10 in
  let names := ["x"; "beat"; "slow"; "broken"]%string in
  let run := job_list_of names [] sample.world_periodic in
  names ≡ₚ (map_to_list sample.registry).*1 ∧
  ∃ items,
    run.1 = Ok (inr items) ∧
    items.*1 = names ∧
    items !! 1%nat
      = Some ("beat"%string,
              VDict [("doc", VNone); ("doc_syntax", VNone);
                     ("type", VStr "periodic");
                     ("can_overlap", VBool false);
                     ("next_run", VInt 0); ("run_every", VInt 60);
                     ("runs_count", VInt 0)]%string) ∧
    Forall (listed sample.registry (λ _, VNone) (λ _, VNone)
              (λ _, overlap_value (VBool false))
              (entries sample.world_periodic)) items.
Proof.
  intros job_list_of names run.
  assert (names ≡ₚ (map_to_list sample.registry).*1) as Hperm.
  { assert (∃ l, (map_to_list sample.registry).*1 = l ∧ names ≡ₚ l)
      as (l & -> & Hl); [|exact Hl].
    eexists. split; [vm_compute; reflexivity|].
    apply NoDup_Permutation.
    - apply (bool_decide_unpack _). vm_compute. reflexivity.
    - apply (bool_decide_unpack _). vm_compute. reflexivity.
    - intros n. unfold names. rewrite !elem_of_cons, !elem_of_nil.
      tauto. }
  assert (∃ items, run = (Ok (inr items), run.2) ∧
            items !! 1%nat
              = Some ("beat"%string,
                      VDict [("doc", VNone); ("doc_syntax", VNone);
                             ("type", VStr "periodic");
                             ("can_overlap", VBool false);
                             ("next_run", VInt 0); ("run_every", VInt 60);
                             ("runs_count", VInt 0)]%string))
    as (items & Hrun & Hbeat).
  { eexists. split; vm_compute; reflexivity. }
  split; [exact Hperm|].
  exists items. split; [by rewrite Hrun|].
  destruct (job_list_items sample.registry sample.remaining
              sample.timedelta_seconds (λ _, VNone) (λ _, VNone)
              (λ _, overlap_value (VBool false)) 10 names []
              sample.world_periodic items run.2 Hperm Hrun)
    as [Hnames Hlisted].
  split; [exact Hnames|]. split; [exact Hbeat|exact Hlisted].
Defined.
